(** * FIQL parser: the expression tree and the string parser

    A shallow embedding of [fiql_parser/operator.py],
    [fiql_parser/expression.py] and [fiql_parser/parser.py].

    Python objects live in a store ([heap]) addressed by references, so that
    the aliasing the builder relies on (a child listed in its parent's
    [elements] while pointing back through [parent], the
    [_working_fragment] cursor kept inside a node) is modelled as it is
    written.  Methods are state transformers over that store which either
    return, raise a Python exception, or exceed the call depth they were
    given. *)

From Stdlib Require Import ZArith String Ascii Lia.
From stdpp Require Import base strings list.

Open Scope string_scope.
Open Scope list_scope.

(** ** Outcomes, exceptions and the store monad *)

(** The messages of [FiqlObjectException] raised by the object layer. *)
Inductive object_error :=
| NotAValidOperator        (* "'%s' is not a valid FIQL operator" *)
| NotAValidElementType     (* "%s is not a valid element type" *)
| ParentMustBeExpression.  (* "Parent must be of %s not %s" *)

(** The messages of [FiqlFormatException] raised by the parser. *)
Inductive format_error :=
| CanNotBeFollowedByExpression  (* "%s can not be followed by %s", group open *)
| OperatorProceedingInitial     (* "%s proceeding initial %s" *)
| OperatorFollowedByOperator    (* "%s can not be followed by %s", operators *)
| CanNotBeFollowedByConstraint  (* "%s can not be followed by %s", constraint *)
| NestedNotClosed               (* "At least one nested expression was not correctly closed" *)
| ContainedNoConstraint.        (* "Parsed string '%s' contained no constraint" *)

Inductive exn :=
| FiqlObjectException (m : object_error)
| FiqlFormatException (m : format_error)
| IndexError          (* [list.pop()] on an empty list *)
| AttributeError.     (* attribute access on an object that has no such field *)

(** What a call does: it returns, raises, or needs a deeper call stack than
    [fuel] frames of [add_operator] (CPython reports the latter as
    [RecursionError] once its recursion limit is reached). *)
Inductive outcome (A : Type) :=
| Return (a : A)
| Raise (e : exn)
| DepthExceeded.
Arguments Return {A} a.
Arguments Raise {A} e.
Arguments DepthExceeded {A}.

Definition obind {A B} (m : outcome A) (k : A → outcome B) : outcome B :=
  match m with
  | Return a => k a
  | Raise e => Raise e
  | DepthExceeded => DepthExceeded
  end.

Definition is_FiqlException (e : exn) : bool :=
  match e with
  | FiqlObjectException _ | FiqlFormatException _ => true
  | _ => false
  end.

(** ** operator.py *)

Module Op.

Definition OPERATOR_MAP : list (string * (string * Z)) :=
  [ (";", ("AND", 2%Z)); (",", ("OR", 1%Z)) ].

Fixpoint assoc {V} (k : string) (m : list (string * V)) : option V :=
  match m with
  | [] => None
  | (k', v) :: m' => if String.eqb k k' then Some v else assoc k m'
  end.

(** An [Operator] instance; [__init__] only lets the two keys of
    [OPERATOR_MAP] through, so these are the only instances. *)
Inductive Operator := And | Or.

Definition value (o : Operator) : string :=
  match o with And => ";" | Or => "," end.

Definition init (fiql_op_str : string) : outcome Operator :=
  match assoc fiql_op_str OPERATOR_MAP with
  | None => Raise (FiqlObjectException NotAValidOperator)
  | Some _ => if String.eqb fiql_op_str ";" then Return And else Return Or
  end.

Definition entry (o : Operator) : string * Z :=
  match assoc (value o) OPERATOR_MAP with
  | Some e => e
  | None => ("", 0%Z)
  end.

Definition precedence (o : Operator) : Z := snd (entry o).

Definition to_python (o : Operator) : string := fst (entry o).

Definition str (o : Operator) : string := value o.

(** [__eq__] and [__lt__]; Python evaluates [a > b] as [b.__lt__(a)]. *)
Definition eq (self other : Operator) : bool :=
  Z.eqb (precedence self) (precedence other).
Definition lt (self other : Operator) : bool :=
  Z.ltb (precedence self) (precedence other).
Definition gt (self other : Operator) : bool := lt other self.

End Op.

Abbreviation Operator := Op.Operator.

(** ** The object store *)

Definition ref := nat.

(** Modelled from the spec: the [Constraint] class of
    [fiql_parser/constraint.py], which is not among the sources; the spec
    gives it a selector, an optional comparison, an optional argument and the
    parent link of [BaseExpression]. *)
Record Constraint := mkConstraint {
  selector : string;
  comparison : option string;
  argument : option string;
  c_parent : option ref
}.

(** [Expression.__init__]: [_last_element] is initialised to [None] and never
    read or written again, so it is not carried. *)
Record Expression := mkExpression {
  elements : list ref;
  operator : option Operator;
  parent : option ref;
  _working_fragment : ref
}.

Inductive object :=
| Con (c : Constraint)
| Exp (e : Expression).

Abbreviation heap := (list object).

(** What a caller can hand to [add_element] / [add_operator]: a
    [BaseExpression] instance in the store, an [Operator], or anything else
    (a [str], say). *)
Inductive value :=
| VObj (r : ref)
| VOperator (o : Operator)
| VOther.

Definition M (A : Type) := heap → outcome (A * heap).

Definition ret {A} (a : A) : M A := fun h => Return (a, h).
Definition raise {A} (e : exn) : M A := fun _ => Raise e.
Definition bind {A B} (m : M A) (k : A → M B) : M B :=
  fun h => match m h with
           | Return (a, h') => k a h'
           | Raise e => Raise e
           | DepthExceeded => DepthExceeded
           end.

Notation "x <- m ;; k" := (bind m (fun x => k))
  (at level 100, m at next level, right associativity).
Notation "m ;;; k" := (bind m (fun _ => k))
  (at level 100, right associativity).

Definition set_elements (l : list ref) (e : Expression) : Expression :=
  mkExpression l (operator e) (parent e) (_working_fragment e).
Definition set_operator (o : option Operator) (e : Expression) : Expression :=
  mkExpression (elements e) o (parent e) (_working_fragment e).
Definition set_parent_field (p : option ref) (e : Expression) : Expression :=
  mkExpression (elements e) (operator e) p (_working_fragment e).
Definition set_working_fragment (w : ref) (e : Expression) : Expression :=
  mkExpression (elements e) (operator e) (parent e) w.

(** [Expression()]: a fresh node that is its own working fragment. *)
Definition new_Expression : M ref :=
  fun h => Return (length h, h ++ [Exp (mkExpression [] None None (length h))]).

Definition new_Constraint (sel : string) (cmp arg : option string) : M ref :=
  fun h => Return (length h, h ++ [Con (mkConstraint sel cmp arg None)]).

Definition get_Expression (r : ref) : M Expression :=
  fun h => match h !! r with
           | Some (Exp e) => Return (e, h)
           | _ => Raise AttributeError
           end.

Definition put_Expression (r : ref) (e : Expression) : M unit :=
  fun h => Return (tt, <[r := Exp e]> h).

Definition isinstance_Expression (h : heap) (r : ref) : bool :=
  match h !! r with Some (Exp _) => true | _ => false end.

(** ** expression.py *)

(** [BaseExpression.set_parent] *)
Definition set_parent (self parent : ref) : M unit :=
  fun h =>
    if isinstance_Expression h parent then
      match h !! self with
      | Some (Con c) =>
          Return (tt, <[self := Con (mkConstraint (selector c) (comparison c)
                                       (argument c) (Some parent))]> h)
      | Some (Exp e) =>
          Return (tt, <[self := Exp (set_parent_field (Some parent) e)]> h)
      | None => Raise AttributeError
      end
    else Raise (FiqlObjectException ParentMustBeExpression).

Definition parent_of (o : object) : option ref :=
  match o with Con c => c_parent c | Exp e => parent e end.

(** [BaseExpression.get_parent] *)
Definition get_parent (self : ref) : M ref :=
  fun h =>
    match h !! self with
    | None => Raise AttributeError
    | Some o =>
        match parent_of o with
        | Some p =>
            if isinstance_Expression h p then Return (p, h)
            else Raise (FiqlObjectException ParentMustBeExpression)
        | None => Raise (FiqlObjectException ParentMustBeExpression)
        end
    end.

(** [Expression.has_constraint]: the length of [self.elements]. *)
Definition has_constraint (self : ref) : M nat :=
  e <- get_Expression self ;; ret (length (elements e)).

(** The [isinstance(element, BaseExpression)] branch of
    [Expression.add_element]. *)
Definition add_base_expression (self element : ref) : M ref :=
  e <- get_Expression self ;;
  set_parent element (_working_fragment e) ;;;
  w <- get_Expression (_working_fragment e) ;;
  put_Expression (_working_fragment e)
    (set_elements (elements w ++ [element]) w) ;;;
  ret self.

(** [Expression.create_nested_expression]; the new node is an [Expression],
    so [add_element] takes its first branch. *)
Definition create_nested_expression (self : ref) : M ref :=
  sub <- new_Expression ;;
  add_base_expression self sub ;;;
  ret sub.

(** [list.pop()] *)
Definition pop (l : list ref) : option (list ref * ref) :=
  match last l with
  | Some x => Some (removelast l, x)
  | None => None
  end.

(** [Expression.add_operator].  [fuel] bounds the depth of nested
    [add_operator] activations.  Inside, [add_element] is only ever handed
    store objects (the popped element, the new nested node, the working
    fragment), which is its [add_base_expression] branch. *)
Fixpoint add_operator (fuel : nat) (self : ref) (operator_ : value) : M ref :=
  match fuel with
  | 0 => fun _ => DepthExceeded
  | S fuel' =>
      match operator_ with
      | VOperator op =>
          e <- get_Expression self ;;
          w <- get_Expression (_working_fragment e) ;;
          match operator w with
          | None =>
              put_Expression (_working_fragment e)
                (set_operator (Some op) w) ;;;
              ret self
          | Some wop =>
              if Op.gt op wop then
                match pop (elements w) with
                | None => raise IndexError
                | Some (rest, last_constraint) =>
                    put_Expression (_working_fragment e)
                      (set_elements rest w) ;;;
                    sub <- create_nested_expression (_working_fragment e) ;;
                    e' <- get_Expression self ;;
                    put_Expression self (set_working_fragment sub e') ;;;
                    e'' <- get_Expression self ;;
                    add_base_expression (_working_fragment e'')
                      last_constraint ;;;
                    e''' <- get_Expression self ;;
                    add_operator fuel' (_working_fragment e''') operator_ ;;;
                    ret self
                end
              else if Op.lt op wop then
                match parent w with
                | Some p => add_operator fuel' p operator_
                | None =>
                    root <- new_Expression ;;
                    add_base_expression root (_working_fragment e) ;;;
                    add_operator fuel' root operator_
                end
              else ret self
          end
      | _ => raise (FiqlObjectException NotAValidElementType)
      end
  end.

(** [Expression.add_element] *)
Definition add_element (fuel : nat) (self : ref) (element : value) : M ref :=
  match element with
  | VObj r => add_base_expression self r
  | _ => add_operator fuel self element
  end.

Fixpoint add_elements (fuel : nat) (expression : ref) (elements_ : list value)
  : M unit :=
  match elements_ with
  | [] => ret tt
  | element :: rest =>
      add_element fuel expression element ;;;
      add_elements fuel expression rest
  end.

(** [Expression.op_and] and [Expression.op_or] *)
Definition op_and (fuel : nat) (self : ref) (elements_ : list value) : M ref :=
  expression <- add_operator fuel self (VOperator Op.And) ;;
  add_elements fuel expression elements_ ;;;
  ret expression.

Definition op_or (fuel : nat) (self : ref) (elements_ : list value) : M ref :=
  expression <- add_operator fuel self (VOperator Op.Or) ;;
  add_elements fuel expression elements_ ;;;
  ret expression.

(** ** Deconstruction and rendering *)

(** The Python values [to_python] builds. *)
Inductive py :=
| PyNone
| PyStr (s : string)
| PyTuple (items : list py)
| PyList (items : list py).

Definition py_of_option (o : option string) : py :=
  match o with Some s => PyStr s | None => PyNone end.

(** Modelled from the spec: [COMPARISON_MAP] of [constants.py] and
    [Constraint.to_python] / [Constraint.__str__] of [constraint.py], which
    are not among the sources.  The comparison is mapped through the fixed
    table, any other spelling to itself; the rendering is the selector alone,
    or selector, comparison and argument with no separators. *)
Definition COMPARISON_MAP : list (string * string) :=
  [ ("==", "=="); ("!=", "!="); ("=gt=", ">"); ("=ge=", ">=");
    ("=lt=", "<"); ("=le=", "<=") ].

Definition map_comparison (c : string) : string :=
  match Op.assoc c COMPARISON_MAP with Some m => m | None => c end.

Definition Constraint_to_python (c : Constraint) : py :=
  PyTuple [ PyStr (selector c);
            py_of_option (map_comparison <$> comparison c);
            py_of_option (argument c) ].

Definition Constraint_str (c : Constraint) : string :=
  match comparison c, argument c with
  | Some cmp, Some arg => selector c +:+ cmp +:+ arg
  | _, _ => selector c
  end.

Fixpoint omap_list {A B} (f : A → outcome B) (l : list A) : outcome (list B) :=
  match l with
  | [] => Return []
  | x :: l' =>
      obind (f x) (fun y => obind (omap_list f l') (fun ys => Return (y :: ys)))
  end.

(** [self.operator or Operator(';')] *)
Definition effective_operator (e : Expression) : Operator :=
  match operator e with Some o => o | None => Op.And end.

(** [to_python], dispatched on the class of the object at [self];
    [depth] bounds the nesting that is followed. *)
Fixpoint to_python (depth : nat) (h : heap) (self : ref) : outcome py :=
  match depth with
  | 0 => DepthExceeded
  | S depth' =>
      match h !! self with
      | None => Raise AttributeError
      | Some (Con c) => Return (Constraint_to_python c)
      | Some (Exp e) =>
          match elements e with
          | [] => Return PyNone
          | [elem] => to_python depth' h elem
          | _ =>
              obind (omap_list (to_python depth' h) (elements e))
                (fun items =>
                   Return (PyList (PyStr (Op.to_python (effective_operator e))
                                     :: items)))
          end
      end
  end.

(** [__str__], dispatched on the class of the object at [self]. *)
Fixpoint str (depth : nat) (h : heap) (self : ref) : outcome string :=
  match depth with
  | 0 => DepthExceeded
  | S depth' =>
      match h !! self with
      | None => Raise AttributeError
      | Some (Con c) => Return (Constraint_str c)
      | Some (Exp e) =>
          let operator_ := effective_operator e in
          obind (omap_list (str depth' h) (elements e))
            (fun strs =>
               let elements_str := String.concat (Op.str operator_) strs in
               match parent e with
               | Some p =>
                   match h !! p with
                   | Some (Exp pe) =>
                       if Op.gt (effective_operator pe) operator_
                       then Return ("(" +:+ elements_str +:+ ")")
                       else Return elements_str
                   | _ => Raise AttributeError
                   end
               | None => Return elements_str
               end)
      end
  end.

(** ** parser.py: the tokenizer *)

Module Lex.

Definition code (c : ascii) : nat := nat_of_ascii c.

Definition between (lo hi : nat) (c : ascii) : bool :=
  (lo <=? code c)%nat && (code c <=? hi)%nat.

Definition is_alpha (c : ascii) : bool :=
  between 65 90 c || between 97 122 c.
Definition is_digit (c : ascii) : bool := between 48 57 c.
Definition is_hexdig (c : ascii) : bool :=
  is_digit c || between 65 70 c || between 97 102 c.

Definition one_of (s : string) (c : ascii) : bool :=
  existsb (Ascii.eqb c) (list_ascii_of_string s).

(** Modelled from the spec: the character classes and [CONSTRAINT_COMP] of
    [fiql_parser/constants.py], which is not among the sources.  The classes
    follow the grammar of the spec and what [tests/test_regex.py] expects of
    them: a selector is a run of unreserved characters and percent-encodings,
    a comparison is [=], letters, [=] or one delimiter and [=], an argument
    is a run of unreserved characters, percent-encodings, delimiters, [:]
    and [=]. *)
Definition is_unreserved (c : ascii) : bool :=
  is_alpha c || is_digit c || one_of "-._~" c.
Definition is_fiql_delim (c : ascii) : bool := one_of "!$'*+" c.
Definition is_arg_char (c : ascii) : bool :=
  is_unreserved c || is_fiql_delim c || one_of ":=" c.

(** The longest prefix made of characters of class [p] and of
    percent-encodings, and what follows it. *)
Fixpoint run (p : ascii → bool) (s : list ascii) : list ascii * list ascii :=
  match s with
  | [] => ([], [])
  | c :: t =>
      if p c then let '(m, r) := run p t in (c :: m, r)
      else if Ascii.eqb c "%" then
        match t with
        | a :: b :: r' =>
            if is_hexdig a && is_hexdig b
            then let '(m, r) := run p r' in (c :: a :: b :: m, r)
            else ([], s)
        | _ => ([], s)
        end
      else ([], s)
  end.

Fixpoint letters (s : list ascii) : list ascii * list ascii :=
  match s with
  | c :: t => if is_alpha c then let '(m, r) := letters t in (c :: m, r)
              else ([], s)
  | [] => ([], [])
  end.

Definition match_comparison (s : list ascii)
  : option (list ascii * list ascii) :=
  match s with
  | c :: t =>
      if Ascii.eqb c "=" then
        let '(l, r) := letters t in
        match r with
        | c' :: r' => if Ascii.eqb c' "=" then Some (c :: l ++ [c'], r')
                      else None
        | [] => None
        end
      else if is_fiql_delim c then
        match t with
        | c' :: r' => if Ascii.eqb c' "=" then Some ([c; c'], r') else None
        | [] => None
        end
      else None
  | [] => None
  end.

(** A constraint matched at the head of [s]: selector, the optional
    comparison and argument, and the rest. *)
Definition match_constraint (s : list ascii)
  : option (list ascii * option (list ascii * list ascii) * list ascii) :=
  let '(sel, r) := run is_unreserved s in
  match sel with
  | [] => None
  | _ =>
      match match_comparison r with
      | Some (cmp, r2) =>
          let '(arg, r3) := run is_arg_char r2 in
          match arg with
          | [] => Some (sel, None, r)
          | _ => Some (sel, Some (cmp, arg), r3)
          end
      | None => Some (sel, None, r)
      end
  end.

(** [CONSTRAINT_COMP.split(s, 1)]: the text before the leftmost match, the
    match, the rest; [None] when nothing matches. *)
Fixpoint split (s : list ascii)
  : option (list ascii *
            (list ascii * option (list ascii * list ascii) * list ascii)) :=
  match match_constraint s with
  | Some m => Some ([], m)
  | None =>
      match s with
      | [] => None
      | c :: t =>
          match split t with
          | Some (pre, m) => Some (c :: pre, m)
          | None => None
          end
      end
  end.

Definition hexval (c : ascii) : nat :=
  if is_digit c then code c - 48
  else if between 65 70 c then code c - 55
  else code c - 87.

(** [urllib.parse.unquote_plus] on the bytes of the text: [+] becomes a
    space and [%XX] the byte [XX].  Where the bytes so obtained are valid
    UTF-8 this is the encoding of the string Python returns; where they are
    not, Python puts U+FFFD in their place and this function keeps the
    bytes.  No result below depends on a percent-encoding that is not
    valid UTF-8. *)
Fixpoint unquote_plus (s : list ascii) : list ascii :=
  match s with
  | [] => []
  | c :: t =>
      if Ascii.eqb c "+" then " "%char :: unquote_plus t
      else if Ascii.eqb c "%" then
        match t with
        | a :: b :: r =>
            if is_hexdig a && is_hexdig b
            then ascii_of_nat (16 * hexval a + hexval b) :: unquote_plus r
            else c :: unquote_plus t
        | _ => c :: unquote_plus t
        end
      else c :: unquote_plus t
  end.

End Lex.

(** One tuple yielded by [iter_parse]. *)
Record token := mkToken {
  preamble : string;
  tselector : option string;
  tcomparison : option string;
  targument : option string
}.

Definition text (s : list ascii) : string := string_of_list_ascii s.

(** The [while] loop of [iter_parse]; every round but the last drops a
    non-empty selector from the text, so [length fiql_str] rounds are
    enough. *)
Fixpoint iter_parse_loop (rounds : nat) (fiql_str : list ascii) : list token :=
  match rounds with
  | 0 => []
  | S rounds' =>
      match fiql_str with
      | [] => []
      | _ =>
          match Lex.split fiql_str with
          | None => [mkToken (text fiql_str) None None None]
          | Some (pre, (sel, grp, rest)) =>
              mkToken (text pre) (Some (text (Lex.unquote_plus sel)))
                (text <$> (fst <$> grp))
                (text <$> (Lex.unquote_plus <$> (snd <$> grp)))
              :: iter_parse_loop rounds' rest
          end
      end
  end.

Definition iter_parse (fiql_str : string) : list token :=
  let s := list_ascii_of_string fiql_str in
  iter_parse_loop (length s) s.

(** ** parser.py: the parser *)

(** The local variables of [parse_str_to_expression]. *)
Record locals := mkLocals {
  nesting_lvl : Z;
  last_element : option value;
  expression : ref
}.

Definition isinstance_BaseExpression (v : option value) : bool :=
  match v with Some (VObj _) => true | _ => false end.
Definition isinstance_Operator (v : option value) : bool :=
  match v with Some (VOperator _) => true | _ => false end.

Definition lift {A} (o : outcome A) : M A :=
  fun h => match o with
           | Return a => Return (a, h)
           | Raise e => Raise e
           | DepthExceeded => DepthExceeded
           end.

(** The body of [for char in preamble]. *)
Definition parse_char (fuel : nat) (l : locals) (char : ascii) : M locals :=
  if Ascii.eqb char "(" then
    if isinstance_BaseExpression (last_element l) then
      raise (FiqlFormatException CanNotBeFollowedByExpression)
    else
      sub <- create_nested_expression (expression l) ;;
      ret (mkLocals (nesting_lvl l + 1) (last_element l) sub)
  else if Ascii.eqb char ")" then
    p <- get_parent (expression l) ;;
    ret (mkLocals (nesting_lvl l - 1) (Some (VObj p)) p)
  else
    n <- has_constraint (expression l) ;;
    if Nat.eqb n 0 then
      raise (FiqlFormatException OperatorProceedingInitial)
    else if isinstance_Operator (last_element l) then
      raise (FiqlFormatException OperatorFollowedByOperator)
    else
      op <- lift (Op.init (String char EmptyString)) ;;
      e <- add_operator fuel (expression l) (VOperator op) ;;
      ret (mkLocals (nesting_lvl l) (Some (VOperator op)) e).

Fixpoint parse_preamble (fuel : nat) (l : locals) (chars : list ascii)
  : M locals :=
  match chars with
  | [] => ret l
  | char :: rest =>
      l' <- parse_char fuel l char ;;
      parse_preamble fuel l' rest
  end.

(** The [if selector:] part of the loop body. *)
Definition parse_selector (l : locals) (t : token) : M locals :=
  match tselector t with
  | Some sel =>
      if String.eqb sel "" then ret l
      else if isinstance_BaseExpression (last_element l) then
        raise (FiqlFormatException CanNotBeFollowedByConstraint)
      else
        c <- new_Constraint sel (tcomparison t) (targument t) ;;
        add_base_expression (expression l) c ;;;
        ret (mkLocals (nesting_lvl l) (Some (VObj c)) (expression l))
  | None => ret l
  end.

(** One round of the [for ... in iter_parse(fiql_str)] loop. *)
Definition parse_token (fuel : nat) (l : locals) (t : token) : M locals :=
  l' <- parse_preamble fuel l (list_ascii_of_string (preamble t)) ;;
  parse_selector l' t.

Fixpoint parse_tokens (fuel : nat) (l : locals) (ts : list token) : M locals :=
  match ts with
  | [] => ret l
  | t :: rest =>
      l' <- parse_token fuel l t ;;
      parse_tokens fuel l' rest
  end.

(** What follows the loop. *)
Definition parse_finish (l : locals) : M ref :=
  if negb (Z.eqb (nesting_lvl l) 0) then
    raise (FiqlFormatException NestedNotClosed)
  else
    n <- has_constraint (expression l) ;;
    if Nat.eqb n 0 then raise (FiqlFormatException ContainedNoConstraint)
    else ret (expression l).

(** [parse_str_to_expression] on the tuples the tokenizer yields. *)
Definition parse (fuel : nat) (ts : list token) : M ref :=
  expression_ <- new_Expression ;;
  l <- parse_tokens fuel (mkLocals 0 None expression_) ts ;;
  parse_finish l.

Definition parse_str_to_expression (fuel : nat) (fiql_str : string) : M ref :=
  parse fuel (iter_parse fiql_str).

(** Running a parse from the empty store and reading the result back. *)
Definition parsed (fuel : nat) (fiql_str : string) : outcome (ref * heap) :=
  parse_str_to_expression fuel fiql_str [].

Definition parsed_to_python (fuel : nat) (fiql_str : string) : outcome py :=
  obind (parsed fuel fiql_str) (fun '(r, h) => to_python (S (length h)) h r).

Definition parsed_str (fuel : nat) (fiql_str : string) : outcome string :=
  obind (parsed fuel fiql_str) (fun '(r, h) => str (S (length h)) h r).

(** ** Building and reading trees from the empty store *)

Definition con (sel : string) : M ref := new_Constraint sel None None.
Definition con3 (sel cmp arg : string) : M ref :=
  new_Constraint sel (Some cmp) (Some arg).

Definition render (m : M ref) : outcome string :=
  obind (m []) (fun '(r, h) => str (S (length h)) h r).
Definition deconstruct (m : M ref) : outcome py :=
  obind (m []) (fun '(r, h) => to_python (S (length h)) h r).

(** The tree built by [test_to_string] and [test_to_python] of
    [tests/test_objects.py]. *)
Definition test_objects_tree : M ref :=
  sub_expression <- new_Expression ;;
  foo <- con "foo" ;;
  add_element 4 sub_expression (VObj foo) ;;;
  add_element 4 sub_expression (VOperator Op.And) ;;;
  bar <- con3 "bar" "=gt=" "45" ;;
  add_element 4 sub_expression (VObj bar) ;;;
  expression_ <- new_Expression ;;
  a <- con3 "a" "==" "wee" ;;
  add_element 4 expression_ (VObj a) ;;;
  add_element 4 expression_ (VOperator Op.Or) ;;;
  add_element 4 expression_ (VObj sub_expression) ;;;
  add_element 4 expression_ (VOperator Op.And) ;;;
  key <- con "key" ;;
  add_element 4 expression_ (VObj key) ;;;
  ret expression_.

(** The receiver reached through the public mutators after
    [a], [Operator(',')], [b], [Operator(';')], [c]. *)
Definition or_then_and : M ref :=
  e <- new_Expression ;;
  a <- con "a" ;;
  add_element 2 e (VObj a) ;;;
  add_element 2 e (VOperator Op.Or) ;;;
  b <- con "b" ;;
  add_element 2 e (VObj b) ;;;
  add_element 2 e (VOperator Op.And) ;;;
  c <- con "c" ;;
  add_element 2 e (VObj c) ;;;
  ret e.

(** [Expression().op_or()] followed by [op_and(c)]. *)
Definition op_or_then_op_and : M ref :=
  e <- new_Expression ;;
  e' <- op_or 2 e [] ;;
  c <- con "c" ;;
  op_and 2 e' [VObj c].

Definition leaf (sel : string) : py := PyTuple [PyStr sel; PyNone; PyNone].
Definition AND_ (items : list py) : py := PyList (PyStr "AND" :: items).
Definition OR_ (items : list py) : py := PyList (PyStr "OR" :: items).

(** ** Notions used by the properties *)

(** *** Rendering and deconstruction *)

(** The parent's effective operator binds strictly tighter than the node's
    own effective operator. *)
Definition parent_binds_tighter (h : heap) (e : Expression) : Prop :=
  ∃ p pe, parent e = Some p ∧ h !! p = Some (Exp pe) ∧
          (Op.precedence (effective_operator e)
           < Op.precedence (effective_operator pe))%Z.

(** [wraps h k r x]: below [r] there are [k] expressions with exactly one
    element each, the innermost holding [x]. *)
Inductive wraps (h : heap) : nat → ref → ref → Prop :=
| wraps_here r : wraps h 0 r r
| wraps_step k r e x y :
    h !! r = Some (Exp e) → elements e = [x] → wraps h k x y →
    wraps h (S k) r y.

(** The heap and the nested group reached by parsing [a;(b,c)]. *)
Definition group_heap : heap :=
  [ Exp (mkExpression [1; 2] (Some Op.And) None 0);
    Con (mkConstraint "a" None None (Some 0));
    Exp (mkExpression [3; 4] (Some Op.Or) (Some 0) 2);
    Con (mkConstraint "b" None None (Some 2));
    Con (mkConstraint "c" None None (Some 2)) ].

(** *** The working-fragment cursors *)

(** [safe m Q h]: run from [h], [m] does not fail on [list.pop()]; when it
    returns, [Q] holds of the result and the store. *)
Definition safe {A} (m : M A) (Q : A → heap → Prop) (h : heap) : Prop :=
  match m h with
  | Return (a, h') => Q a h'
  | Raise e => e ≠ IndexError
  | DepthExceeded => True
  end.

(** What [add_operator] reads of an expression: its working fragment and
    its operator. *)
Definition cursor_of (o : object) : option (ref * option Operator) :=
  match o with
  | Exp e => Some (_working_fragment e, operator e)
  | Con _ => None
  end.

Definition cursor (h : heap) (r : ref) : option (ref * option Operator) :=
  match h !! r with
  | Some (Exp e) => Some (_working_fragment e, operator e)
  | _ => None
  end.

(** Every expression is its own working fragment, or its working fragment
    is joined by [;]. *)
Definition cursors_settled (h : heap) : Prop :=
  ∀ r w o, cursor h r = Some (w, o) →
           w = r ∨ ∃ w', cursor h w = Some (w', Some Op.And).

Definition same_cursors (h h' : heap) : Prop :=
  (length h ≤ length h')%nat ∧ ∀ r, cursor h' r = cursor h r.

#[global] Instance Operator_eq_dec : EqDecision Operator.
Proof. solve_decision. Defined.

(** *** Inputs without parentheses *)

(** The tuple the tokenizer yields for a constraint after the preamble
    [pre]; of a [Constraint] used as input only the selector, comparison and
    argument matter. *)
Definition ctoken (pre : string) (c : Constraint) : token :=
  mkToken pre (Some (selector c)) (comparison c) (argument c).

(** [c0 o1 c1 ... on cn] as tuples and as text. *)
Definition flat_tokens (c0 : Constraint) (rest : list (Operator * Constraint))
  : list token :=
  ctoken "" c0 :: map (fun oc => ctoken (Op.value (fst oc)) (snd oc)) rest.

Fixpoint flat_tail (rest : list (Operator * Constraint)) : string :=
  match rest with
  | [] => ""
  | (o, c) :: rest' => Op.value o +:+ Constraint_str c +:+ flat_tail rest'
  end.

Definition flat_text (c0 : Constraint) (rest : list (Operator * Constraint))
  : string :=
  Constraint_str c0 +:+ flat_tail rest.

(** The object at [id] is a constraint with the data of [c]. *)
Definition constraint_at (h : heap) (id : ref) (c : Constraint) : Prop :=
  ∃ c', h !! id = Some (Con c') ∧ selector c' = selector c
        ∧ comparison c' = comparison c ∧ argument c' = argument c.

(** The object at [id] is an expression under [N] that joins the
    constraints [cs] with [;]. *)
Definition group_at (h : heap) (N id : ref) (cs : list Constraint) : Prop :=
  ∃ ids w, h !! id = Some (Exp (mkExpression ids (Some Op.And) (Some N) w))
           ∧ Forall2 (constraint_at h) ids cs.

(** What a flat input puts under the top expression: constraints, and
    groups of constraints joined by [;]. *)
Inductive item :=
| IC (c : Constraint)
| IG (cs : list Constraint).

Definition item_at (h : heap) (N id : ref) (it : item) : Prop :=
  match it with
  | IC c => constraint_at h id c
  | IG cs => group_at h N id cs
  end.

Definition render_item (it : item) : string :=
  match it with
  | IC c => Constraint_str c
  | IG cs => String.concat ";" (map Constraint_str cs)
  end.

Definition separator (o : option Operator) : string :=
  match o with Some o => Op.str o | None => ";" end.

Definition render_items (o : option Operator) (its : list item) : string :=
  String.concat (separator o) (map render_item its).

Definition is_IC (it : item) : Prop :=
  match it with IC _ => True | IG _ => False end.

(** The state of a flat parse after a constraint: the working expression
    [X] is the root; either it is its own working fragment and holds [its],
    or its last element is the fragment [;] has sunk, holding [cs]. *)
Inductive flat_state (h : heap) (X : ref) : string → Prop :=
| at_root ids o its :
    h !! X = Some (Exp (mkExpression ids o None X)) →
    Forall2 (item_at h X) ids its →
    its ≠ [] →
    (o = None → length its = 1) →
    (o ≠ Some Op.Or → Forall is_IC its) →
    (∃ its' c, its = its' ++ [IC c]) →
    flat_state h X (render_items o its)
| sunk ids F its cs :
    h !! X = Some (Exp (mkExpression (ids ++ [F]) (Some Op.Or) None F)) →
    Forall2 (item_at h X) ids its →
    F ∉ ids →
    group_at h X F cs →
    cs ≠ [] →
    flat_state h X (render_items (Some Op.Or) (its ++ [IG cs])).

(** Every object of [h] is still in [h'], except that a constraint may have
    been given another parent and the expressions listed in [changed] may
    have been updated. *)
Definition evolves (changed : list ref) (h h' : heap) : Prop :=
  ∀ r o, h !! r = Some o →
    h' !! r = Some o
    ∨ (∃ c, o = Con c ∧ constraint_at h' r c)
    ∨ (r ∈ changed ∧ ∃ e, o = Exp e).

(** The object after [set_parent(p)]. *)
Definition with_parent (p : ref) (o : object) : object :=
  match o with
  | Con c => Con (mkConstraint (selector c) (comparison c) (argument c) (Some p))
  | Exp e => Exp (set_parent_field (Some p) e)
  end.

(** A selector or argument that needs no percent-encoding: a non-empty run
    of unreserved characters. *)
Definition plain_chars (s : string) : bool :=
  forallb Lex.is_unreserved (list_ascii_of_string s) && negb (String.eqb s "").

(** [s] is a comparison: the comparison pattern matches all of it. *)
Definition is_comparison (s : string) : Prop :=
  Lex.match_comparison (list_ascii_of_string s)
  = Some (list_ascii_of_string s, []).

(** A constraint as the tokenizer reads it back from its own rendering. *)
Definition plain_constraint (c : Constraint) : Prop :=
  plain_chars (selector c) = true
  ∧ match comparison c, argument c with
    | None, None => True
    | Some cmp, Some arg => is_comparison cmp ∧ plain_chars arg = true
    | _, _ => False
    end.


(** What ends a run of characters of class [p]: the end of the text, or a
    character that is neither of the class nor the start of a
    percent-encoding. *)
Definition stops (p : ascii → bool) (rest : list ascii) : Prop :=
  match rest with
  | [] => True
  | c :: _ => p c = false ∧ Ascii.eqb c "%" = false
  end.

(** What follows a constraint in a flat text: nothing, or an operator. *)
Definition after_constraint (rest : list ascii) : Prop :=
  match rest with
  | [] => True
  | c :: _ => c = ";"%char ∨ c = ","%char
  end.

(** *** What a call leaves behind *)

(** [post m Q h]: when [m] returns from [h], [Q] holds of the result and the
    store. *)
Definition post {A} (m : M A) (Q : A → heap → Prop) (h : heap) : Prop :=
  match m h with
  | Return (a, h') => Q a h'
  | _ => True
  end.

(** The working fragment of [r] is joined by [op]. *)
Definition joined_by (op : Operator) (h : heap) (r : ref) : Prop :=
  ∃ w o w', cursor h r = Some (w, o) ∧ cursor h w = Some (w', Some op).

(** *** The sequence of what the parser meets *)

(** What the loop of [parse_str_to_expression] meets, in order: the
    characters of each preamble, read as the three branches of the loop over
    the preamble read them, and the constraint of each tuple that has a
    selector. *)
Inductive symbol := SOpen | SClose | SOperator | SConstraint.

Definition symbol_of (char : ascii) : symbol :=
  if Ascii.eqb char "(" then SOpen
  else if Ascii.eqb char ")" then SClose
  else SOperator.

Definition symbols_of (t : token) : list symbol :=
  map symbol_of (list_ascii_of_string (preamble t))
  ++ match tselector t with
     | Some sel => if String.eqb sel "" then [] else [SConstraint]
     | None => []
     end.

Definition symbols (ts : list token) : list symbol :=
  List.concat (map symbols_of ts).

(** The pairs of neighbours that the parser does not let through, [None]
    standing for the start of the input. *)
Definition clash (prev : option symbol) (next : symbol) : bool :=
  match prev, next with
  | None, (SOperator | SClose) => true
  | Some SOpen, SOperator => true
  | Some SOperator, SOperator => true
  | Some SClose, (SOpen | SConstraint) => true
  | Some SConstraint, (SOpen | SConstraint) => true
  | _, _ => false
  end.

Fixpoint sequenced (prev : option symbol) (l : list symbol) : bool :=
  match l with
  | [] => true
  | x :: l' => negb (clash prev x) && sequenced (Some x) l'
  end.

(** The characters a preamble may hold. *)
Definition is_structural (char : ascii) : bool :=
  Lex.one_of "();," char.

Definition preamble_chars (ts : list token) : list ascii :=
  List.concat (map (fun t => list_ascii_of_string (preamble t)) ts).

Definition count_char (char : ascii) (l : list ascii) : nat :=
  length (filter (fun x => x = char) l).

(** What the parser's variables record of the last symbol. *)
Definition follows (prev : option symbol) (l : locals) (h : heap) : Prop :=
  match prev with
  | None =>
      ∃ e, h !! expression l = Some (Exp e) ∧ elements e = [] ∧ parent e = None
  | Some SOpen => ∃ e, h !! expression l = Some (Exp e) ∧ elements e = []
  | Some SOperator => isinstance_Operator (last_element l) = true
  | Some _ => isinstance_BaseExpression (last_element l) = true
  end.

(** What the characters of a preamble add to the nesting level. *)
Definition level_change (chars : list ascii) : Z :=
  (Z.of_nat (count_char "(" chars) - Z.of_nat (count_char ")" chars))%Z.

(** *** Trees *)

(** The elements of a store go down: there is a rank, at most the size of
    the store, that is smaller at an element than at the expression that
    lists it; so no expression is found below itself. *)
Definition ranked (h : heap) : Prop :=
  ∃ rank : ref → nat,
    (∀ x, (rank x ≤ length h)%nat)
    ∧ ∀ (n : ref) e (x : ref),
        h !! n = Some (Exp e) → x ∈ elements e → rank x < rank n.

(** The links of a store make a tree: whatever an expression lists has that
    expression as its parent, whatever has a parent is listed by it, no
    expression lists an object twice, nothing is its own parent, and the
    elements go down. *)
Record tree_links (h : heap) : Prop := mk_tree_links {
  child_parent : ∀ (n : ref) e (x : ref),
    h !! n = Some (Exp e) → x ∈ elements e →
    ∃ o, h !! x = Some o ∧ parent_of o = Some n;
  parent_child : ∀ (x : ref) o (p : ref),
    h !! x = Some o → parent_of o = Some p →
    ∃ e, h !! p = Some (Exp e) ∧ x ∈ elements e;
  elements_nodup : ∀ (n : ref) e, h !! n = Some (Exp e) → NoDup (elements e);
  not_own_parent : ∀ (x : ref) o, h !! x = Some o → parent_of o ≠ Some x;
  elements_descend : ranked h
}.

(** The exceptions [parse_str_to_expression] lets out: its own format
    errors, and the object errors of [get_parent] and of [Operator()]. *)
Definition parser_error (e : exn) : Prop :=
  match e with
  | FiqlFormatException _ => True
  | FiqlObjectException ParentMustBeExpression => True
  | FiqlObjectException NotAValidOperator => True
  | _ => False
  end.

(** [raising E m Q h]: run from [h], [m] raises nothing but exceptions of
    [E]; when it returns, [Q] holds of the result and the store. *)
Definition raising {A} (E : exn → Prop) (m : M A) (Q : A → heap → Prop)
    (h : heap) : Prop :=
  match m h with
  | Return (a, h') => Q a h'
  | Raise e => E e
  | DepthExceeded => True
  end.

Definition no_exception (e : exn) : Prop := False.

(** The elements of a store are objects of the store. *)
Definition elements_inside (h : heap) : Prop :=
  ∀ (n : ref) e (x : ref),
    h !! n = Some (Exp e) → x ∈ elements e → x < length h.

(** What the parser keeps of the store between two steps: the links make a
    tree, the working fragments are settled, and the working expression is
    an expression of the store. *)
Definition parser_invariant (h : heap) (r : ref) : Prop :=
  tree_links h ∧ cursors_settled h ∧ is_Some (cursor h r).

(** *** Grouping by precedence *)

(** What [to_python] makes of a node whose elements deconstruct to
    [items]. *)
Definition node_form (name : string) (items : list py) : py :=
  match items with
  | [] => PyNone
  | [item] => item
  | _ => PyList (PyStr name :: items)
  end.

(** The grouping by precedence of [c0 o1 c1 ... on cn]: the runs between
    two [,], each joined by [;]. *)
Fixpoint or_groups (c0 : Constraint) (rest : list (Operator * Constraint))
  : list (list Constraint) :=
  match rest with
  | [] => [[c0]]
  | (Op.Or, c) :: rest' => [c0] :: or_groups c rest'
  | (Op.And, c) :: rest' =>
      match or_groups c rest' with
      | g :: gs => (c0 :: g) :: gs
      | [] => [[c0]]
      end
  end.

Definition and_form (cs : list Constraint) : py :=
  node_form "AND" (map Constraint_to_python cs).

Definition precedence_form (c0 : Constraint)
    (rest : list (Operator * Constraint)) : py :=
  node_form "OR" (map and_form (or_groups c0 rest)).

(** No [,] comes after a [;] that comes after a [,]. *)
Fixpoint no_or (ops : list Operator) : bool :=
  match ops with
  | [] => true
  | Op.And :: ops' => no_or ops'
  | Op.Or :: _ => false
  end.

Fixpoint no_or_after_and (ops : list Operator) : bool :=
  match ops with
  | [] => true
  | Op.Or :: ops' => no_or_after_and ops'
  | Op.And :: ops' => no_or ops'
  end.

Fixpoint no_or_and_or (ops : list Operator) : bool :=
  match ops with
  | [] => true
  | Op.And :: ops' => no_or_and_or ops'
  | Op.Or :: ops' => no_or_after_and ops'
  end.

(** The tree of a flat parse after a constraint: one constraint alone;
    constraints joined by [;]; items joined by [,] that end with a
    constraint; items joined by [,] that end with the fragment [;] has
    sunk. *)
Inductive shape :=
| Alone (c : Constraint)
| Ands (cs : list Constraint)
| Ors (its : list item) (c : Constraint)
| Sunk (its : list item) (cs : list Constraint).

Definition shape_at (h : heap) (X : ref) (s : shape) : Prop :=
  match s with
  | Alone c =>
      ∃ id, h !! X = Some (Exp (mkExpression [id] None None X))
            ∧ constraint_at h id c
  | Ands cs =>
      ∃ ids, h !! X = Some (Exp (mkExpression ids (Some Op.And) None X))
             ∧ Forall2 (constraint_at h) ids cs ∧ cs ≠ []
  | Ors its c =>
      ∃ ids id,
        h !! X = Some (Exp (mkExpression (ids ++ [id]) (Some Op.Or) None X))
        ∧ Forall2 (item_at h X) ids its ∧ constraint_at h id c
  | Sunk its cs =>
      ∃ ids F,
        h !! X = Some (Exp (mkExpression (ids ++ [F]) (Some Op.Or) None F))
        ∧ Forall2 (item_at h X) ids its ∧ (F ∉ ids) ∧ group_at h X F cs
  end.

(** What an operator and a constraint make of a shape; nothing when [,]
    meets a sunk fragment. *)
Definition next_shape (s : shape) (o : Operator) (c : Constraint)
  : option shape :=
  match s, o with
  | Alone c0, Op.And => Some (Ands [c0; c])
  | Alone c0, Op.Or => Some (Ors [IC c0] c)
  | Ands cs, Op.And => Some (Ands (cs ++ [c]))
  | Ands cs, Op.Or => Some (Ors [IG cs] c)
  | Ors its c0, Op.Or => Some (Ors (its ++ [IC c0]) c)
  | Ors its c0, Op.And => Some (Sunk its [c0; c])
  | Sunk its cs, Op.And => Some (Sunk its (cs ++ [c]))
  | Sunk _ _, Op.Or => None
  end.

Fixpoint last_shape (s : shape) (rest : list (Operator * Constraint))
  : option shape :=
  match rest with
  | [] => Some s
  | (o, c) :: rest' =>
      match next_shape s o c with
      | Some s' => last_shape s' rest'
      | None => None
      end
  end.

Definition item_group (it : item) : list Constraint :=
  match it with IC c => [c] | IG cs => cs end.

Definition shape_groups (s : shape) : list (list Constraint) :=
  match s with
  | Alone c => [[c]]
  | Ands cs => [cs]
  | Ors its c => map item_group its ++ [[c]]
  | Sunk its cs => map item_group its ++ [cs]
  end.

Definition shape_form (s : shape) : py :=
  node_form "OR" (map and_form (shape_groups s)).

Fixpoint extend_and (gs : list (list Constraint)) (c : Constraint)
  : list (list Constraint) :=
  match gs with
  | [] => [[c]]
  | [g] => [g ++ [c]]
  | g :: gs' => g :: extend_and gs' c
  end.

Definition extend_groups (gs : list (list Constraint)) (o : Operator)
    (c : Constraint) : list (list Constraint) :=
  match o with
  | Op.Or => gs ++ [[c]]
  | Op.And => extend_and gs c
  end.

Definition shape_accepts (s : shape) (ops : list Operator) : bool :=
  match s with
  | Alone _ | Ands _ => no_or_and_or ops
  | Ors _ _ => no_or_after_and ops
  | Sunk _ _ => no_or ops
  end.

(** *** Nested parentheses *)

(** One constraint behind [k] opening and before [j] closing parentheses,
    as text and as the tuples of the tokenizer. *)
Definition opens (k : nat) : string := text (repeat "("%char k).
Definition closes (j : nat) : string := text (repeat ")"%char j).

Definition nested_text (k j : nat) (c : Constraint) : string :=
  opens k +:+ Constraint_str c +:+ closes j.

Definition nested_tokens (k j : nat) (c : Constraint) : list token :=
  ctoken (opens k) c
  :: match j with
     | 0 => []
     | S _ => [mkToken (closes j) None None None]
     end.

(** The parent of the [i]-th expression of a chain of nested
    expressions. *)
Definition above (i : nat) : option ref :=
  match i with 0 => None | S i' => Some i' end.

(** The first [i] objects of [h] are expressions nested in one another,
    each holding the next one alone. *)
Definition chain (h : heap) (i : nat) : Prop :=
  ∀ j : nat, j < i →
    h !! j = Some (Exp (mkExpression [S j] None (above j) j)).

(** *** Building with the operator methods *)

(** A [Constraint] object for each of [cs], in order. *)
Fixpoint new_Constraints (cs : list Constraint) : M (list ref) :=
  match cs with
  | [] => ret []
  | c :: cs' =>
      r <- new_Constraint (selector c) (comparison c) (argument c) ;;
      rs <- new_Constraints cs' ;;
      ret (r :: rs)
  end.

(** [Expression().op_and(c1, ..., cn)] and [Expression().op_or(c1, ...,
    cn)]. *)
Definition joined (fuel : nat) (o : Operator) (cs : list Constraint)
  : M ref :=
  e <- new_Expression ;;
  rs <- new_Constraints cs ;;
  match o with
  | Op.And => op_and fuel e (map VObj rs)
  | Op.Or => op_or fuel e (map VObj rs)
  end.

(** The object [new_Constraint] makes of the data of [c]. *)
Definition fresh_Constraint (c : Constraint) : object :=
  Con (mkConstraint (selector c) (comparison c) (argument c) None).

(** *** One operator throughout *)

(** [cs] each after the operator [o]. *)
Definition each_after (o : Operator) (cs : list Constraint)
  : list (Operator * Constraint) :=
  map (fun c => (o, c)) cs.

(** *** The segments of a text *)







(** *** Items and groups in parentheses *)

(** The operator that is not [o]. *)
Definition other (o : Operator) : Operator :=
  match o with Op.And => Op.Or | Op.Or => Op.And end.




















Arguments add_operator : simpl never.

(** * Properties *)

(** ** Unfolding and symbolic execution *)

Lemma add_operator_S fuel self op h :
  add_operator (S fuel) self (VOperator op) h =
  (e <- get_Expression self ;;
   w <- get_Expression (_working_fragment e) ;;
   match operator w with
   | None =>
       put_Expression (_working_fragment e) (set_operator (Some op) w) ;;;
       ret self
   | Some wop =>
       if Op.gt op wop then
         match pop (elements w) with
         | None => raise IndexError
         | Some (rest, last_constraint) =>
             put_Expression (_working_fragment e) (set_elements rest w) ;;;
             sub <- create_nested_expression (_working_fragment e) ;;
             e' <- get_Expression self ;;
             put_Expression self (set_working_fragment sub e') ;;;
             e'' <- get_Expression self ;;
             add_base_expression (_working_fragment e'') last_constraint ;;;
             e''' <- get_Expression self ;;
             add_operator fuel (_working_fragment e''') (VOperator op) ;;;
             ret self
         end
       else if Op.lt op wop then
         match parent w with
         | Some p => add_operator fuel p (VOperator op)
         | None =>
             root <- new_Expression ;;
             add_base_expression root (_working_fragment e) ;;;
             add_operator fuel root (VOperator op)
         end
       else ret self
   end) h.
Proof. reflexivity. Qed.

(** Evaluates a run on a concrete store, leaving [add_operator] folded
    wherever its depth is not a successor. *)
Ltac run_code := repeat (cbv -[add_operator]; rewrite ?add_operator_S).

(** ** Call depth *)

(** Once a call of [add_operator] returns or raises within a call depth, a
    greater depth changes nothing. *)
Lemma add_operator_stable n :
  ∀ m self v h,
    add_operator n self v h ≠ DepthExceeded → (n ≤ m)%nat →
    add_operator m self v h = add_operator n self v h.
Proof.
  induction n as [|n IH]; intros m self v h Hn Hle; [done|].
  destruct m as [|m]; [lia|].
  destruct v as [r|op|]; [done| |done].
  revert Hn. rewrite !add_operator_S. unfold bind.
  destruct (get_Expression self h) as [[e h0]| |]; try done.
  destruct (get_Expression (_working_fragment e) h0) as [[w h1]| |]; try done.
  destruct (operator w) as [wop|]; [|done].
  destruct (Op.gt op wop).
  - destruct (pop (elements w)) as [[rest last_]|]; [|done].
    destruct (put_Expression _ _ h1) as [[? h2]| |]; try done.
    destruct (create_nested_expression _ h2) as [[sub h3]| |]; try done.
    destruct (get_Expression self h3) as [[e1 h4]| |]; try done.
    destruct (put_Expression self _ h4) as [[? h5]| |]; try done.
    destruct (get_Expression self h5) as [[e2 h6]| |]; try done.
    destruct (add_base_expression _ _ h6) as [[? h7]| |]; try done.
    destruct (get_Expression self h7) as [[e3 h8]| |]; try done.
    intros Hn. rewrite (IH m); [done| |lia].
    intros E. by rewrite E in Hn.
  - destruct (Op.lt op wop); [|done].
    destruct (parent w) as [p|].
    + intros Hn. apply IH; [done|lia].
    + destruct (new_Expression h1) as [[root h2]| |]; try done.
      destruct (add_base_expression _ _ h2) as [[? h3]| |]; try done.
      intros Hn. apply IH; [done|lia].
Qed.

Lemma parse_char_stable n m l char h :
  parse_char n l char h ≠ DepthExceeded → (n ≤ m)%nat →
  parse_char m l char h = parse_char n l char h.
Proof.
  unfold parse_char.
  destruct (Ascii.eqb char "("); [done|].
  destruct (Ascii.eqb char ")"); [done|].
  unfold bind.
  destruct (has_constraint _ h) as [[k h0]| |]; try done.
  destruct (Nat.eqb k 0); [done|].
  destruct (isinstance_Operator _); [done|].
  destruct (lift _ h0) as [[op h1]| |]; try done.
  intros Hn Hle. rewrite (add_operator_stable n m); [done| |done].
  intros E. by rewrite E in Hn.
Qed.

Lemma parse_preamble_stable n m chars :
  ∀ l h, parse_preamble n l chars h ≠ DepthExceeded → (n ≤ m)%nat →
         parse_preamble m l chars h = parse_preamble n l chars h.
Proof.
  induction chars as [|c chars IH]; intros l h; [done|].
  cbn [parse_preamble]. unfold bind. intros Hn Hle.
  rewrite (parse_char_stable n m); [| |done].
  - destruct (parse_char n l c h) as [[l1 h1]| |]; try done. by apply IH.
  - intros E. by rewrite E in Hn.
Qed.

Lemma parse_tokens_stable n m ts :
  ∀ l h, parse_tokens n l ts h ≠ DepthExceeded → (n ≤ m)%nat →
         parse_tokens m l ts h = parse_tokens n l ts h.
Proof.
  induction ts as [|t ts IH]; intros l h; [done|].
  cbn [parse_tokens]. unfold bind, parse_token, bind. intros Hn Hle.
  rewrite (parse_preamble_stable n m); [| |done].
  - destruct (parse_preamble n l _ h) as [[l1 h1]| |]; try done.
    destruct (parse_selector l1 t h1) as [[l2 h2]| |]; try done.
    by apply IH.
  - intros E. by rewrite E in Hn.
Qed.

(** The same for the parser: what it returns or raises within a call depth
    is what it does at any greater depth. *)
Lemma parse_stable n m ts h :
  parse n ts h ≠ DepthExceeded → (n ≤ m)%nat → parse m ts h = parse n ts h.
Proof.
  unfold parse, bind. destruct (new_Expression h) as [[r h0]| |]; try done.
  intros Hn Hle. rewrite (parse_tokens_stable n m); [done| |done].
  intros E. by rewrite E in Hn.
Qed.

(** ** The tokenizer's loop *)

Lemma split_unfold (s : list ascii) :
  Lex.split s =
  match Lex.match_constraint s with
  | Some m => Some ([], m)
  | None =>
      match s with
      | [] => None
      | c :: t =>
          match Lex.split t with
          | Some (pre, m) => Some (c :: pre, m)
          | None => None
          end
      end
  end.
Proof. by destruct s. Qed.

Lemma run_splits p n :
  ∀ s m r, (length s ≤ n)%nat → Lex.run p s = (m, r) → s = m ++ r.
Proof.
  induction n as [|n IH]; intros s m r Hn.
  { destruct s; [|simpl in Hn; lia]. by intros [= <- <-]. }
  destruct s as [|c t]; [by intros [= <- <-]|]. simpl in Hn. simpl.
  destruct (p c).
  - destruct (Lex.run p t) as [m' r'] eqn:E. intros [= <- <-].
    simpl. f_equal. apply IH; [lia|done].
  - destruct (Ascii.eqb c "%"); [|by intros [= <- <-]].
    destruct t as [|a [|b r']]; try by intros [= <- <-].
    destruct (Lex.is_hexdig a && Lex.is_hexdig b); [|by intros [= <- <-]].
    destruct (Lex.run p r') as [m' r''] eqn:E. intros [= <- <-].
    simpl. do 3 f_equal. apply IH; [simpl in Hn; lia|done].
Qed.

Lemma letters_splits s : ∀ m r, Lex.letters s = (m, r) → s = m ++ r.
Proof.
  induction s as [|c t IH]; intros m r; [by intros [= <- <-]|]. simpl.
  destruct (Lex.is_alpha c); [|by intros [= <- <-]].
  destruct (Lex.letters t) as [m' r'] eqn:E. intros [= <- <-].
  simpl. f_equal. by apply IH.
Qed.

Lemma match_comparison_splits s m r :
  Lex.match_comparison s = Some (m, r) → s = m ++ r.
Proof.
  destruct s as [|c t]; [done|]. simpl.
  destruct (Ascii.eqb c "=").
  - destruct (Lex.letters t) as [l r0] eqn:E.
    apply letters_splits in E as ->.
    destruct r0 as [|c' r']; [done|].
    destruct (Ascii.eqb c' "="); [|done]. intros [= <- <-].
    simpl. by rewrite <- app_assoc.
  - destruct (Lex.is_fiql_delim c); [|done].
    destruct t as [|c' r']; [done|].
    destruct (Ascii.eqb c' "="); [|done]. by intros [= <- <-].
Qed.

(** A match takes at least one character off the text. *)
Lemma match_constraint_shorter s sel grp rest :
  Lex.match_constraint s = Some (sel, grp, rest) →
  (length rest < length s)%nat.
Proof.
  unfold Lex.match_constraint.
  destruct (Lex.run Lex.is_unreserved s) as [m r] eqn:E.
  apply (run_splits _ _ _ _ _ (le_n _)) in E as ->.
  destruct m as [|c m]; [done|].
  destruct (Lex.match_comparison r) as [[cmp r2]|] eqn:Ec.
  - apply match_comparison_splits in Ec as ->.
    destruct (Lex.run Lex.is_arg_char r2) as [arg r3] eqn:Ea.
    apply (run_splits _ _ _ _ _ (le_n _)) in Ea as ->.
    destruct arg; intros [= <- <- <-]; rewrite !length_app; simpl; lia.
  - intros [= <- <- <-]. rewrite length_app. simpl. lia.
Qed.

Lemma split_shorter s :
  ∀ pre sel grp rest,
    Lex.split s = Some (pre, (sel, grp, rest)) →
    (length rest < length s)%nat.
Proof.
  induction s as [|c t IH]; intros pre sel grp rest.
  - simpl. unfold Lex.match_constraint. simpl. done.
  - rewrite split_unfold.
    destruct (Lex.match_constraint (c :: t)) as [[[sel' grp'] rest']|] eqn:E.
    + intros [= <- <- <- <-]. by eapply match_constraint_shorter.
    + destruct (Lex.split t) as [[pre' [[sel' grp'] rest']]|] eqn:Et; [|done].
      intros [= <- <- <- <-]. specialize (IH _ _ _ _ eq_refl). simpl. lia.
Qed.

(** [length fiql_str] rounds are enough for the [while] loop of
    [iter_parse]: more rounds yield the same tuples. *)
Lemma iter_parse_loop_enough n :
  ∀ m s, (length s ≤ n)%nat → (length s ≤ m)%nat →
         iter_parse_loop n s = iter_parse_loop m s.
Proof.
  induction n as [|n IH]; intros m s Hn Hm.
  { destruct s; [by destruct m|simpl in Hn; lia]. }
  destruct s as [|c t]; [by destruct m|].
  destruct m as [|m]; [simpl in Hm; lia|].
  cbn [iter_parse_loop].
  destruct (Lex.split (c :: t)) as [[pre [[sel grp] rest]]|] eqn:E; [|done].
  apply split_shorter in E. f_equal. apply IH; lia.
Qed.

(** ** The repository's own expectations *)

(** [test_to_string] and [test_to_python] of [tests/test_objects.py]. *)
Example test_to_string :
  render test_objects_tree = Return "a==wee,foo;bar=gt=45;key".
Proof. reflexivity. Qed.

Example test_to_python :
  deconstruct test_objects_tree =
  Return (PyList [PyStr "OR";
                  PyTuple [PyStr "a"; PyStr "=="; PyStr "wee"];
                  PyList [PyStr "AND";
                          PyList [PyStr "AND";
                                  PyTuple [PyStr "foo"; PyNone; PyNone];
                                  PyTuple [PyStr "bar"; PyStr ">"; PyStr "45"]];
                          PyTuple [PyStr "key"; PyNone; PyNone]]]).
Proof. reflexivity. Qed.

(** [test_expression_fluent] *)
Example test_expression_fluent :
  render (foo <- con3 "foo" "==" "bar" ;;
          inner <- new_Expression ;;
          lt_ <- con3 "age" "=lt=" "55" ;;
          gt_ <- con3 "age" "=gt=" "5" ;;
          inner' <- op_and 4 inner [VObj lt_; VObj gt_] ;;
          outer <- new_Expression ;;
          op_or 4 outer [VObj foo; VObj inner'])
  = Return "foo==bar,age=lt=55;age=gt=5"
  ∧ (e <- new_Expression ;; op_or 4 e [VOther]) []
    = Raise (FiqlObjectException NotAValidElementType).
Proof. split; reflexivity. Qed.

(** [test_iter_parse] of [tests/test_parse.py]. *)
Example test_iter_parse :
  iter_parse "a==23;(b=gt=4,(c=ge=5;c=lt=15))" =
  [ mkToken "" (Some "a") (Some "==") (Some "23");
    mkToken ";(" (Some "b") (Some "=gt=") (Some "4");
    mkToken ",(" (Some "c") (Some "=ge=") (Some "5");
    mkToken ";" (Some "c") (Some "=lt=") (Some "15");
    mkToken "))" None None None ].
Proof. reflexivity. Qed.

(** [test_parse_str_to_expression_explicit_nesting] and
    [..._implicit_nesting]: the rendering and the nested form of the six
    inputs. *)
Example test_parse_nesting :
  let foo := PyTuple [PyStr "foo"; PyStr "=="; PyStr "bar"] in
  let g5 := PyTuple [PyStr "goo"; PyStr ">"; PyStr "5"] in
  let l10 := PyTuple [PyStr "goo"; PyStr "<"; PyStr "10"] in
  map (fun s => (parsed_str 4 s, parsed_to_python 4 s))
    [ "foo==bar,(goo=gt=5;goo=lt=10)"; "(goo=gt=5;goo=lt=10),foo==bar";
      "foo==bar;(goo=gt=5,goo=lt=10)"; "(goo=gt=5,goo=lt=10);foo==bar";
      "foo==bar,goo=gt=5;goo=lt=10"; "goo=gt=5;goo=lt=10,foo==bar" ]
  = [ (Return "foo==bar,goo=gt=5;goo=lt=10",
       Return (PyList [PyStr "OR"; foo; PyList [PyStr "AND"; g5; l10]]));
      (Return "goo=gt=5;goo=lt=10,foo==bar",
       Return (PyList [PyStr "OR"; PyList [PyStr "AND"; g5; l10]; foo]));
      (Return "foo==bar;(goo=gt=5,goo=lt=10)",
       Return (PyList [PyStr "AND"; foo;
                       PyList [PyStr "OR";
                               g5; PyTuple [PyStr "goo"; PyStr "<"; PyStr "10"]]]));
      (Return "(goo=gt=5,goo=lt=10);foo==bar",
       Return (PyList [PyStr "AND";
                       PyList [PyStr "OR"; g5; l10]; foo]));
      (Return "foo==bar,goo=gt=5;goo=lt=10",
       Return (PyList [PyStr "OR"; foo; PyList [PyStr "AND"; g5; l10]]));
      (Return "goo=gt=5;goo=lt=10,foo==bar",
       Return (PyList [PyStr "OR"; PyList [PyStr "AND"; g5; l10]; foo])) ].
Proof. vm_compute. reflexivity. Qed.

(** [test_parse_str_to_expression_failure]: none of the nine strings yields a
    tree; each raises one of the two Fiql exceptions. *)
Example test_parse_failure :
  forallb (fun s => match parsed 4 s with
                    | Raise e => is_FiqlException e
                    | _ => false
                    end)
    [ "foo=bar"; "foo=="; "foo="; ";;foo"; "(foo)(bar)"; "(foo==bar";
      "foo==bar(foo==bar)"; ";foo==bar"; "foo==bar;,foo==bar" ] = true.
Proof. vm_compute. reflexivity. Qed.

(** ** Delegation to the parent in [add_operator] *)

(** When the working fragment of [self] is a node whose operator is [;] and
    whose parent is [self] again, the lower-precedence branch calls
    [self.add_operator] with nothing changed, at every depth. *)
Lemma add_operator_delegation_cycle fuel :
  ∀ h self e w,
    h !! self = Some (Exp e) →
    h !! (_working_fragment e) = Some (Exp w) →
    operator w = Some Op.And →
    parent w = Some self →
    add_operator fuel self (VOperator Op.Or) h = DepthExceeded.
Proof.
  induction fuel as [|n IH]; intros h self e w He Hw Ho Hp; [reflexivity|].
  rewrite add_operator_S. unfold bind, get_Expression.
  rewrite He, Hw, Ho. simpl. rewrite Hp. eauto.
Qed.

Ltac close_cycle :=
  erewrite add_operator_delegation_cycle; reflexivity.

(** The flat input [a,b;c,d]: after [;] has sunk [b] into a nested
    fragment, [,] is handed from that fragment to its parent, which is the
    receiver itself. *)
Lemma or_and_or_exceeds (fuel : nat) :
  parse_str_to_expression fuel "a,b;c,d" [] = DepthExceeded.
Proof.
  destruct fuel as [|[|k]]; [reflexivity..|].
  run_code. close_cycle.
Qed.

(** C3.  Termination by reaching a compatible ancestor or the parentless
    root fails on the input [a,b;c,d]: the lower-precedence branch of
    [add_operator] delegates to the parent of the active fragment, which is
    the receiver, so [parse_str_to_expression] exhausts every call depth it
    is given; it neither returns a tree nor raises one of its own errors, and
    the work is not bounded by the length of the input. *)
Theorem parse_or_and_or_exceeds_every_depth (fuel : nat) :
  parsed fuel "a,b;c,d" = DepthExceeded
  ∧ length (iter_parse "a,b;c,d") = 4.
Proof. split; [apply or_and_or_exceeds | reflexivity]. Qed.

(** C1.  The two inputs of the claim are grouped by precedence, [;] below
    [,] whichever comes first; but the flat input [a,b;c,d], whose grouping
    by precedence is OR(a, AND(b,c), d), gets no tree at any call depth. *)
Theorem precedence_of_and_over_or :
  (∀ fuel, parsed_to_python (2 + fuel) "a;b,c"
           = Return (OR_ [AND_ [leaf "a"; leaf "b"]; leaf "c"]))
  ∧ (∀ fuel, parsed_to_python (2 + fuel) "a,b;c"
             = Return (OR_ [leaf "a"; AND_ [leaf "b"; leaf "c"]]))
  ∧ Op.gt Op.And Op.Or = true
  ∧ (∀ fuel, parsed_to_python fuel "a,b;c,d" = DepthExceeded).
Proof.
  split; [|split; [|split]].
  - intros fuel. run_code. reflexivity.
  - intros fuel. run_code. reflexivity.
  - reflexivity.
  - intros fuel. unfold parsed_to_python, parsed.
    now rewrite or_and_or_exceeds.
Qed.

(** C4.  The receiver built by [a], [,], [b], [;], [c] has an active
    fragment whose operator [;] binds tighter than [,]; calling
    [add_operator(Operator(','))] on it returns nothing at any call depth:
    the fragment's parent is the receiver, and the call is repeated
    unchanged. *)
Theorem add_operator_lower_precedence_does_not_return :
  ∃ h e w,
    or_then_and [] = Return (0, h)
    ∧ h !! 0 = Some (Exp e)
    ∧ h !! (_working_fragment e) = Some (Exp w)
    ∧ operator w = Some Op.And
    ∧ Op.lt Op.Or Op.And = true
    ∧ parent w = Some 0
    ∧ ∀ fuel, add_operator fuel 0 (VOperator Op.Or) h = DepthExceeded.
Proof.
  do 3 eexists. split; [reflexivity|].
  do 5 (split; [reflexivity|]).
  intros fuel. close_cycle.
Qed.

(** C7.  The inputs the claim names are rejected with a parser error, but
    [()] holds no constraint at all and is accepted: [has_constraint] counts
    the empty nested expression as an element, and the tree that is returned
    deconstructs to [None]. *)
Theorem parse_rejections_and_empty_group (fuel : nat) :
  parsed (1 + fuel) ";foo==bar"
  = Raise (FiqlFormatException OperatorProceedingInitial)
  ∧ parsed (1 + fuel) "foo==bar;,foo==bar"
    = Raise (FiqlFormatException OperatorFollowedByOperator)
  ∧ parsed (1 + fuel) "foo==bar(foo==bar)"
    = Raise (FiqlFormatException CanNotBeFollowedByExpression)
  ∧ parsed (1 + fuel) "(foo==bar)foo==bar"
    = Raise (FiqlFormatException CanNotBeFollowedByConstraint)
  ∧ parsed (1 + fuel) "" = Raise (FiqlFormatException ContainedNoConstraint)
  ∧ parsed fuel "()"
    = Return (0, [ Exp (mkExpression [1] None None 0);
                   Exp (mkExpression [] None (Some 0) 1) ])
  ∧ parsed_to_python fuel "()" = Return PyNone
  ∧ parsed_to_python (1 + fuel) "();a"
    = Return (AND_ [PyNone; leaf "a"]).
Proof.
  do 5 (split; [run_code; reflexivity|]).
  do 2 (split; [reflexivity|]). run_code. reflexivity.
Qed.

(** C8.  The parentheses of [(a;b,c)] are balanced, yet the parse fails at
    the closing parenthesis with the missing-parent error: [,] was handed by
    the group to its parent, the root, which became the working expression
    and has no parent to ascend to. *)
Theorem balanced_group_fails_as_unbalanced (fuel : nat) :
  parsed (2 + fuel) "(a;b,c)"
  = Raise (FiqlObjectException ParentMustBeExpression)
  ∧ parsed (2 + fuel) "a)"
    = Raise (FiqlObjectException ParentMustBeExpression)
  ∧ parsed (2 + fuel) "(a"
    = Raise (FiqlFormatException NestedNotClosed).
Proof. split; [|split]; run_code; reflexivity. Qed.

(** C9.  On [a,b;(c,d)] the parser returns normally, but what it returns is
    the nested fragment that [;] created: its parent is the root, and the
    root's own nested form, which holds [a], is not the form of the result. *)
Theorem parse_returns_nested_fragment (fuel : nat) :
  ∃ r h e,
    parsed (2 + fuel) "a,b;(c,d)" = Return (r, h)
    ∧ h !! r = Some (Exp e)
    ∧ parent e = Some 0
    ∧ to_python (length h) h r
      = Return (AND_ [leaf "b"; OR_ [leaf "c"; leaf "d"]])
    ∧ to_python (length h) h 0
      = Return (OR_ [leaf "a"; AND_ [leaf "b"; OR_ [leaf "c"; leaf "d"]]]).
Proof.
  do 3 eexists. split; [run_code; reflexivity|].
  do 3 (split; [reflexivity|]). reflexivity.
Qed.


(** ** Rendering and deconstruction *)

Lemma length_append (a b : string) :
  String.length (a +:+ b) = String.length a + String.length b.
Proof. induction a as [|c a IH]; simpl; [done|]. by rewrite IH. Qed.

Lemma parenthesized_differs (s : string) : "(" +:+ s +:+ ")" ≠ s.
Proof.
  intros E. apply (f_equal String.length) in E.
  rewrite !length_append in E. simpl in E. lia.
Qed.

Lemma str_Expression depth h self e strs :
  h !! self = Some (Exp e) →
  omap_list (str depth h) (elements e) = Return strs →
  str (S depth) h self =
  let elements_str := String.concat (Op.str (effective_operator e)) strs in
  match parent e with
  | Some p =>
      match h !! p with
      | Some (Exp pe) =>
          if Op.gt (effective_operator pe) (effective_operator e)
          then Return ("(" +:+ elements_str +:+ ")")
          else Return elements_str
      | _ => Raise AttributeError
      end
  | None => Return elements_str
  end.
Proof. intros He Hs. simpl. by rewrite He, Hs. Qed.

Lemma gt_precedence a b :
  Op.gt a b = true ↔ (Op.precedence b < Op.precedence a)%Z.
Proof. unfold Op.gt, Op.lt. apply Z.ltb_lt. Qed.

(** C5.  [str()] of an Expression whose elements render to [strs] is the
    join of [strs] by the node's effective operator, wrapped in parentheses
    exactly when the node has a parent whose effective operator (its own, or
    [;] when it has none) has a strictly greater precedence than the node's
    effective operator, and bare otherwise; so [a;(b,c)] renders back to
    [a;(b,c)] and [((a))] renders to [a]. *)
Theorem str_parenthesizes_iff depth h self e strs :
  h !! self = Some (Exp e) →
  (∀ p, parent e = Some p → isinstance_Expression h p = true) →
  omap_list (str depth h) (elements e) = Return strs →
  let elements_str := String.concat (Op.str (effective_operator e)) strs in
  (str (S depth) h self = Return ("(" +:+ elements_str +:+ ")")
   ↔ parent_binds_tighter h e)
  ∧ (str (S depth) h self = Return elements_str
     ↔ ¬ parent_binds_tighter h e)
  ∧ (∀ fuel, parsed_str (1 + fuel) "a;(b,c)" = Return "a;(b,c)")
  ∧ (∀ fuel, parsed_str fuel "((a))" = Return "a").
Proof.
  intros He Hp Hs body.
  rewrite (str_Expression _ _ _ _ _ He Hs). fold body.
  split; [|split; [|split; [intros fuel; run_code|]; reflexivity]].
  - destruct (parent e) as [p|] eqn:Ep.
    2:{ split; [intros [= E]; by apply eq_sym, parenthesized_differs in E|].
        intros (p & pe & ? & _). congruence. }
    specialize (Hp p eq_refl). unfold isinstance_Expression in Hp.
    destruct (h !! p) as [[c|pe]|] eqn:Epe; try done.
    destruct (Op.gt _ _) eqn:Egt.
    + split; [intros _|done]. exists p, pe. by rewrite <- gt_precedence.
    + split; [intros [= E]; by apply eq_sym, parenthesized_differs in E|].
      intros (p' & pe' & Hp' & Hpe' & Hlt).
      rewrite Ep in Hp'. injection Hp' as <-.
      rewrite Epe in Hpe'. injection Hpe' as <-.
      apply gt_precedence in Hlt. congruence.
  - destruct (parent e) as [p|] eqn:Ep.
    2:{ split; [|done]. intros _ (p & pe & ? & _). congruence. }
    specialize (Hp p eq_refl). unfold isinstance_Expression in Hp.
    destruct (h !! p) as [[c|pe]|] eqn:Epe; try done.
    destruct (Op.gt _ _) eqn:Egt.
    + split; [intros [= E]; by apply parenthesized_differs in E|].
      intros Hn. exfalso. apply Hn. exists p, pe. by rewrite <- gt_precedence.
    + split; [|done]. intros _ (p' & pe' & Hp' & Hpe' & Hlt).
      rewrite Ep in Hp'. injection Hp' as <-.
      rewrite Epe in Hpe'. injection Hpe' as <-.
      apply gt_precedence in Hlt. congruence.
Qed.

Lemma str_parenthesizes_iff_witness :
  parsed 2 "a;(b,c)" = Return (0, group_heap)
  ∧ parent_binds_tighter group_heap (mkExpression [3; 4] (Some Op.Or) (Some 0) 2)
  ∧ str 2 group_heap 2 = Return "(b,c)".
Proof.
  split; [reflexivity|].
  destruct (str_parenthesizes_iff 1 group_heap 2
              (mkExpression [3; 4] (Some Op.Or) (Some 0) 2) ["b"; "c"])
    as (Hwrap & _); [reflexivity| |reflexivity|].
  - intros p [= <-]. reflexivity.
  - split; [apply Hwrap|]; reflexivity.
Defined.

Lemma to_python_wraps h k :
  ∀ depth r x, wraps h k r x → to_python (k + depth) h r = to_python depth h x.
Proof.
  induction k as [|k IH]; intros depth r x Hw; inversion Hw; subst; [done|].
  simpl. rewrite H0, H1. by apply IH.
Qed.

Lemma omap_list_Forall2 {A B} (f : A → outcome B) l ys :
  omap_list f l = Return ys → Forall2 (fun x y => f x = Return y) l ys.
Proof.
  revert ys. induction l as [|x l IH]; intros ys; simpl.
  - intros [= <-]. constructor.
  - destruct (f x) as [y| |] eqn:Ex; try done. simpl.
    destruct (omap_list f l) as [ys'| |]; try done. simpl.
    intros [= <-]. constructor; eauto.
Qed.

(** C6.  [to_python()] of an Expression is [None] when it has no element,
    the deconstruction of its sole element when it has one (so a chain of
    [k] single-element wrappers collapses to what the innermost holds), and
    otherwise the list that starts with the display name of the effective
    operator and continues with the deconstruction of every element in
    order; when no operator was set the display name is AND and [str()]
    joins with [;]. *)
Theorem to_python_deconstruction depth h self e :
  h !! self = Some (Exp e) →
  (elements e = [] → to_python (S depth) h self = Return PyNone)
  ∧ (∀ elem, elements e = [elem] →
             to_python (S depth) h self = to_python depth h elem)
  ∧ (∀ k x, wraps h k self x → to_python (k + depth) h self = to_python depth h x)
  ∧ (∀ items, (2 ≤ length (elements e))%nat →
              omap_list (to_python depth h) (elements e) = Return items →
              to_python (S depth) h self
              = Return (PyList (PyStr (Op.to_python (effective_operator e))
                                  :: items))
              ∧ Forall2 (fun elem item => to_python depth h elem = Return item)
                  (elements e) items)
  ∧ (operator e = None →
     Op.to_python (effective_operator e) = "AND"
     ∧ ∀ strs, (∀ p, parent e = Some p → isinstance_Expression h p = true) →
               omap_list (str depth h) (elements e) = Return strs →
               str (S depth) h self = Return (String.concat ";" strs)).
Proof.
  intros He. split; [|split; [|split; [|split]]].
  - intros E. simpl. by rewrite He, E.
  - intros elem E. simpl. by rewrite He, E.
  - intros k x Hw. by apply to_python_wraps.
  - intros items Hlen Hitems. split; [|by apply omap_list_Forall2].
    simpl. rewrite He.
    destruct (elements e) as [|x [|y l]] eqn:E; simpl in Hlen; try lia.
    rewrite <- E in *. by rewrite Hitems.
  - intros Eop. unfold effective_operator. rewrite Eop. split; [done|].
    intros strs Hp Hs. rewrite (str_Expression _ _ _ _ _ He Hs).
    unfold effective_operator. rewrite Eop.
    destruct (parent e) as [p|]; [|done].
    specialize (Hp p eq_refl). unfold isinstance_Expression in Hp.
    destruct (h !! p) as [[c|pe]|]; try done.
    by destruct (operator pe) as [[]|].
Qed.

Lemma to_python_deconstruction_witness :
  group_heap !! 0 = Some (Exp (mkExpression [1; 2] (Some Op.And) None 0))
  ∧ to_python 3 group_heap 0
    = Return (AND_ [leaf "a"; OR_ [leaf "b"; leaf "c"]]).
Proof.
  split; [reflexivity|].
  destruct (to_python_deconstruction 2 group_heap 0 _ eq_refl)
    as (_ & _ & _ & H & _).
  apply H; [simpl; lia | reflexivity].
Defined.

(** ** The detach step never fails in the parser *)

Section Safe.
Context {A B : Type}.

Lemma safe_ret (a : A) (Q : A → heap → Prop) h : Q a h → safe (ret a) Q h.
Proof. done. Qed.

Lemma safe_raise e (Q : A → heap → Prop) h :
  e ≠ IndexError → safe (raise e) Q h.
Proof. done. Qed.

Lemma safe_bind (m : M A) (k : A → M B) (Q : B → heap → Prop) h :
  safe m (fun a h' => safe (k a) Q h') h → safe (bind m k) Q h.
Proof. unfold safe, bind. destruct (m h) as [[a h']| |]; done. Qed.

Lemma safe_mono (m : M A) (Q Q' : A → heap → Prop) h :
  safe m Q h → (∀ a h', Q a h' → Q' a h') → safe m Q' h.
Proof. unfold safe. destruct (m h) as [[a h']| |]; eauto. Qed.

End Safe.

Lemma cursor_Some h r w o :
  cursor h r = Some (w, o) →
  ∃ e, h !! r = Some (Exp e) ∧ _working_fragment e = w ∧ operator e = o.
Proof.
  unfold cursor. destruct (h !! r) as [[c|e]|]; [done| |done].
  intros [= <- <-]. eauto.
Qed.

Lemma cursor_Exp h r e :
  h !! r = Some (Exp e) → cursor h r = Some (_working_fragment e, operator e).
Proof. unfold cursor. now intros ->. Qed.

Lemma cursor_lt h r x : cursor h r = Some x → r < length h.
Proof.
  unfold cursor. destruct (h !! r) eqn:E; [|done].
  intros _. eapply lookup_lt_Some. eauto.
Qed.

Lemma cursor_insert (h : heap) r o r' :
  r < length h →
  cursor (<[r := o]> h) r' = if decide (r' = r) then cursor_of o else cursor h r'.
Proof.
  intros Hr. unfold cursor. case_decide as Hd.
  - subst. rewrite list_lookup_insert_eq by done. now destruct o.
  - rewrite list_lookup_insert_ne by done. done.
Qed.

Lemma cursor_snoc (h : heap) o r' :
  cursor (h ++ [o]) r' = if decide (r' = length h) then cursor_of o else cursor h r'.
Proof.
  unfold cursor. case_decide as Hd.
  - subst. rewrite lookup_app_r by done. rewrite Nat.sub_diag. simpl. now destruct o.
  - destruct (decide (r' < length h)).
    + now rewrite lookup_app_l.
    + rewrite !lookup_ge_None_2; [done| lia |]. rewrite length_app. simpl. lia.
Qed.

Lemma same_cursors_refl h : same_cursors h h.
Proof. split; done. Qed.

Lemma same_cursors_trans h1 h2 h3 :
  same_cursors h1 h2 → same_cursors h2 h3 → same_cursors h1 h3.
Proof. intros [L1 H1] [L2 H2]. split; [lia|]. intros r. now rewrite H2. Qed.

Lemma same_cursors_settled h h' :
  same_cursors h h' → cursors_settled h → cursors_settled h'.
Proof.
  intros [_ Hs] Hc r w o Hr. rewrite Hs in Hr.
  destruct (Hc r w o Hr) as [->|[w' Hw]]; [now left|right].
  exists w'. now rewrite Hs.
Qed.

Lemma safe_get_Expression r h :
  safe (get_Expression r) (fun e h' => h' = h ∧ h !! r = Some (Exp e)) h.
Proof.
  unfold safe, get_Expression. destruct (h !! r) as [[c|e]|]; done.
Qed.

Lemma safe_put_keep r e' h :
  cursor h r = Some (_working_fragment e', operator e') →
  safe (put_Expression r e') (fun _ h' => same_cursors h h') h.
Proof.
  intros Hc. unfold safe, put_Expression. split.
  - now rewrite length_insert.
  - intros r'. rewrite cursor_insert by (eapply cursor_lt; eauto).
    case_decide; subst; done.
Qed.

Lemma safe_put r e' h x :
  cursor h r = Some x →
  safe (put_Expression r e')
    (fun _ h' => length h' = length h ∧
       ∀ r', cursor h' r' = if decide (r' = r)
                            then Some (_working_fragment e', operator e')
                            else cursor h r') h.
Proof.
  intros Hc. unfold safe, put_Expression. split.
  - now rewrite length_insert.
  - intros r'. now rewrite cursor_insert by (eapply cursor_lt; eauto).
Qed.

Lemma safe_set_parent s p h :
  safe (set_parent s p) (fun _ h' => same_cursors h h') h.
Proof.
  unfold safe, set_parent. destruct (isinstance_Expression h p); [|done].
  destruct (h !! s) as [[c|e]|] eqn:E; [| |done].
  - split; [now rewrite length_insert|]. intros r'.
    rewrite cursor_insert by (eapply lookup_lt_Some; eauto).
    case_decide; [subst|done]. unfold cursor. now rewrite E.
  - split; [now rewrite length_insert|]. intros r'.
    rewrite cursor_insert by (eapply lookup_lt_Some; eauto).
    case_decide; [subst|done]. unfold cursor. now rewrite E.
Qed.

Lemma safe_new_Expression h :
  safe new_Expression
    (fun r h' => r = length h ∧ length h' = S (length h) ∧
       ∀ r', cursor h' r' = if decide (r' = length h)
                            then Some (length h, None) else cursor h r') h.
Proof.
  unfold safe, new_Expression. split; [done|]. split.
  - rewrite length_app. simpl. lia.
  - intros r'. now rewrite cursor_snoc.
Qed.

Lemma cursor_fresh h : cursor h (length h) = None.
Proof. unfold cursor. now rewrite lookup_ge_None_2. Qed.

Lemma safe_new_Constraint sel cmp arg h :
  safe (new_Constraint sel cmp arg) (fun _ h' => same_cursors h h') h.
Proof.
  unfold safe, new_Constraint. split.
  - rewrite length_app. lia.
  - intros r'. rewrite cursor_snoc. case_decide; [subst|done].
    simpl. now rewrite cursor_fresh.
Qed.

Lemma safe_add_base_expression s x h :
  safe (add_base_expression s x) (fun _ h' => same_cursors h h') h.
Proof.
  unfold add_base_expression.
  apply safe_bind. eapply safe_mono; [apply safe_get_Expression|].
  intros e ? [-> He]. 
  apply safe_bind. eapply safe_mono; [apply safe_set_parent|].
  intros [] h1 H1.
  apply safe_bind. eapply safe_mono; [apply safe_get_Expression|].
  intros w ? [-> Hw].
  apply safe_bind. eapply safe_mono; [apply safe_put_keep|].
  { now rewrite (cursor_Exp _ _ _ Hw). }
  intros [] h2 H2. apply safe_ret. eauto using same_cursors_trans.
Qed.

Lemma safe_create_nested_expression s h :
  safe (create_nested_expression s)
    (fun sub h' => sub = length h ∧ (length h < length h')%nat ∧
       ∀ r', cursor h' r' = if decide (r' = length h)
                            then Some (length h, None) else cursor h r') h.
Proof.
  unfold create_nested_expression.
  apply safe_bind. eapply safe_mono; [apply safe_new_Expression|].
  intros sub h1 (-> & L1 & H1).
  apply safe_bind. eapply safe_mono; [apply safe_add_base_expression|].
  intros _ h2 [L2 H2]. apply safe_ret.
  split; [done|]. split; [lia|]. intros r'. now rewrite H2, H1.
Qed.

Lemma gt_And_Or op wop : Op.gt op wop = true → op = Op.And ∧ wop = Op.Or.
Proof. destruct op, wop; done. Qed.

Lemma lt_Or_And op wop : Op.lt op wop = true → op = Op.Or ∧ wop = Op.And.
Proof. destruct op, wop; done. Qed.

Lemma add_operator_safe fuel :
  ∀ self op h,
    cursors_settled h →
    (op = Op.And → ∀ e, h !! self = Some (Exp e) → elements e ≠ []) →
    safe (add_operator fuel self (VOperator op))
      (fun _ h' => cursors_settled h') h.
Proof.
  induction fuel as [|n IH]; intros self op h Hset Hne; [exact I|].
  unfold safe. rewrite add_operator_S. fold (safe (A:=ref)).
  apply safe_bind. eapply safe_mono; [apply safe_get_Expression|].
  intros e ? [-> He].
  apply safe_bind. eapply safe_mono; [apply safe_get_Expression|].
  intros w ? [-> Hw].
  pose proof (cursor_Exp _ _ _ He) as Ce.
  pose proof (cursor_Exp _ _ _ Hw) as Cw.
  destruct (operator w) as [wop|] eqn:Eop.
  - destruct (Op.gt op wop) eqn:Egt.
    + (* the new operator binds tighter: the last element is detached *)
      apply gt_And_Or in Egt as [-> ->].
      assert (_working_fragment e = self) as Hself.
      { destruct (Hset _ _ _ Ce) as [?|[w' Hw']]; [done|].
        rewrite Cw in Hw'. by inversion Hw'. }
      rewrite Hself in *. assert (w = e) as -> by congruence.
      destruct (pop (elements e)) as [[rest last_constraint]|] eqn:Epop.
      2:{ exfalso. unfold pop in Epop.
          destruct (last (elements e)) eqn:El; [done|].
          apply last_None in El. by eapply Hne. }
      apply safe_bind. eapply safe_mono; [apply safe_put_keep|];
        [simpl; by rewrite Hself|].
      intros _ h1 [L1 H1].
      apply safe_bind. eapply safe_mono; [apply safe_create_nested_expression|].
      intros sub h2 (-> & L2 & H2).
      apply safe_bind. eapply safe_mono; [apply safe_get_Expression|].
      intros e' ? [-> He'].
      assert (cursor h2 self = Some (self, Some Op.Or)) as C2.
      { rewrite H2. case_decide as Hd; [|by rewrite H1, Ce, Eop].
        apply cursor_lt in Ce. lia. }
      apply safe_bind. eapply safe_mono; [eapply safe_put; eauto|].
      intros _ h3 [L3 H3].
      apply safe_bind. eapply safe_mono; [apply safe_get_Expression|].
      intros e'' ? [-> He''].
      apply safe_bind. eapply safe_mono; [apply safe_add_base_expression|].
      intros _ h4 [L4 H4].
      apply safe_bind. eapply safe_mono; [apply safe_get_Expression|].
      intros e''' ? [-> He'''].
      pose proof (cursor_Exp _ _ _ He''') as C4.
      rewrite H4, H3 in C4. rewrite decide_True in C4 by done.
      injection C4 as Hwf Hop. simpl in Hwf, Hop.
      rewrite <- Hwf.
      (* the nested call sets the operator of the fresh fragment *)
      apply safe_bind.
      destruct n as [|n']; [done|].
      unfold safe at 1. rewrite add_operator_S. fold (safe (A:=ref)).
      set (sub := length h1) in *.
      assert (sub ≠ self) as Hsub.
      { apply cursor_lt in Ce. subst sub. lia. }
      assert (cursor h4 sub = Some (sub, None)) as Csub.
      { rewrite H4, H3, decide_False by done. rewrite H2.
        by rewrite decide_True. }
      apply safe_bind. eapply safe_mono; [apply safe_get_Expression|].
      intros s1 ? [-> Hs1].
      pose proof (cursor_Exp _ _ _ Hs1) as Cs1. rewrite Csub in Cs1.
      injection Cs1 as Hs1w Hs1o. rewrite <- Hs1w.
      apply safe_bind. eapply safe_mono; [apply safe_get_Expression|].
      intros s2 ? [-> Hs2].
      assert (s2 = s1) as -> by congruence. rewrite <- Hs1o.
      apply safe_bind. eapply safe_mono; [eapply safe_put; eauto|].
      intros _ h5 [L5 H5]. apply safe_ret. apply safe_ret.
      (* the cursors are settled again *)
      intros r w o. rewrite H5. simpl. rewrite <- Hs1w.
      case_decide as Hr; [intros [= <- <-]; by left|].
      rewrite H4, H3. case_decide as Hr'.
      * intros [= <- <-]. right. exists sub. rewrite H5.
        rewrite decide_True by done. simpl. by rewrite <- Hs1w.
      * rewrite H2, decide_False by done. rewrite H1. intros Cr.
        destruct (Hset _ _ _ Cr) as [->|[w' Cw']]; [by left|right].
        exists w'. rewrite H5, decide_False.
        2:{ apply cursor_lt in Cw'. subst sub. lia. }
        rewrite H4, H3, decide_False.
        2:{ intros ->. rewrite Ce, Eop in Cw'. by inversion Cw'. }
        rewrite H2, decide_False.
        2:{ apply cursor_lt in Cw'. subst sub. lia. }
        by rewrite H1.
    + destruct (Op.lt op wop) eqn:Elt; [|by apply safe_ret].
      apply lt_Or_And in Elt as [-> ->].
      destruct (parent w) as [p|].
      * by apply IH.
      * apply safe_bind. eapply safe_mono; [apply safe_new_Expression|].
        intros root h1 (-> & L1 & H1).
        apply safe_bind. eapply safe_mono; [apply safe_add_base_expression|].
        intros _ h2 [L2 H2]. apply IH; [|done].
        intros r w0 o. rewrite H2, H1. case_decide as Hr.
        { intros [= <- <-]. by left. }
        intros Cr. destruct (Hset _ _ _ Cr) as [->|[w' Cw']]; [by left|right].
        exists w'. rewrite H2, H1, decide_False; [done|].
        apply cursor_lt in Cw'. lia.
  - (* no operator yet on the working fragment *)
    apply safe_bind. eapply safe_mono; [eapply safe_put; eauto|].
    intros _ h1 [L1 H1]. apply safe_ret.
    intros r w0 o. rewrite H1. simpl. case_decide as Hr.
    + intros [= <- <-]. subst r.
      destruct (Hset _ _ _ Cw) as [?|[w' Cw']]; [by left|right].
      exists w'. rewrite H1. case_decide as Hd; [|done].
      rewrite Hd in Cw'. rewrite Cw in Cw'. by inversion Cw'.
    + intros Cr. destruct (Hset _ _ _ Cr) as [->|[w' Cw']]; [by left|right].
      exists w'. rewrite H1, decide_False; [done|].
      intros ->. rewrite Cw in Cw'. by inversion Cw'.
Qed.

Lemma safe_has_constraint r h :
  safe (has_constraint r)
    (fun n h' => h' = h ∧ ∃ e, h !! r = Some (Exp e) ∧ n = length (elements e)) h.
Proof.
  unfold has_constraint.
  apply safe_bind. eapply safe_mono; [apply safe_get_Expression|].
  intros e ? [-> He]. apply safe_ret. eauto.
Qed.

Lemma safe_get_parent s h :
  safe (get_parent s) (fun _ h' => h' = h) h.
Proof.
  unfold safe, get_parent. destruct (h !! s) as [o|]; [|done].
  destruct (parent_of o) as [p|]; [|done].
  by destruct (isinstance_Expression h p).
Qed.

Lemma safe_Operator_init s h :
  safe (lift (Op.init s)) (fun _ h' => h' = h) h.
Proof.
  unfold safe, lift, Op.init.
  destruct (Op.assoc s Op.OPERATOR_MAP); [|done].
  by destruct (String.eqb s ";").
Qed.

Lemma parse_char_safe fuel l char h :
  cursors_settled h →
  safe (parse_char fuel l char) (fun _ h' => cursors_settled h') h.
Proof.
  intros Hset. unfold parse_char.
  destruct (Ascii.eqb char "(").
  { destruct (isinstance_BaseExpression (last_element l)); [done|].
    apply safe_bind. eapply safe_mono; [apply safe_create_nested_expression|].
    intros sub h1 (-> & L1 & H1). apply safe_ret.
    intros r w o. rewrite H1. case_decide as Hr; [intros [= <- <-]; by left|].
    intros Cr. destruct (Hset _ _ _ Cr) as [->|[w' Cw']]; [by left|right].
    exists w'. rewrite H1, decide_False; [done|].
    apply cursor_lt in Cw'. lia. }
  destruct (Ascii.eqb char ")").
  { apply safe_bind. eapply safe_mono; [apply safe_get_parent|].
    intros p ? ->. by apply safe_ret. }
  apply safe_bind. eapply safe_mono; [apply safe_has_constraint|].
  intros n ? (-> & e & He & ->).
  destruct (Nat.eqb (length (elements e)) 0) eqn:En; [done|].
  destruct (isinstance_Operator (last_element l)); [done|].
  apply safe_bind. eapply safe_mono; [apply safe_Operator_init|].
  intros op ? ->.
  apply safe_bind. eapply safe_mono.
  - apply add_operator_safe; [done|]. intros _ e' He' Hnil.
    assert (e' = e) as -> by congruence. by rewrite Hnil in En.
  - intros r h1 H1. by apply safe_ret.
Qed.

Lemma parse_preamble_safe fuel chars :
  ∀ l h, cursors_settled h →
         safe (parse_preamble fuel l chars) (fun _ h' => cursors_settled h') h.
Proof.
  induction chars as [|c chars IH]; intros l h Hset; [by apply safe_ret|].
  simpl. apply safe_bind. eapply safe_mono; [by apply parse_char_safe|].
  intros l' h1 H1. by apply IH.
Qed.

Lemma parse_selector_safe l t h :
  cursors_settled h →
  safe (parse_selector l t) (fun _ h' => cursors_settled h') h.
Proof.
  intros Hset. unfold parse_selector.
  destruct (tselector t) as [sel|]; [|by apply safe_ret].
  destruct (String.eqb sel ""); [by apply safe_ret|].
  destruct (isinstance_BaseExpression (last_element l)); [done|].
  apply safe_bind. eapply safe_mono; [apply safe_new_Constraint|].
  intros c h1 H1.
  apply safe_bind. eapply safe_mono; [apply safe_add_base_expression|].
  intros r2 h2 H2. simpl in H1, H2. apply safe_ret.
  eapply same_cursors_settled; [|exact Hset].
  eapply same_cursors_trans; eauto.
Qed.

Lemma parse_tokens_safe fuel ts :
  ∀ l h, cursors_settled h →
         safe (parse_tokens fuel l ts) (fun _ h' => cursors_settled h') h.
Proof.
  induction ts as [|t ts IH]; intros l h Hset; [by apply safe_ret|].
  simpl. apply safe_bind. unfold parse_token.
  apply safe_bind. eapply safe_mono; [by apply parse_preamble_safe|].
  intros l1 h1 H1. eapply safe_mono; [by apply parse_selector_safe|].
  intros l2 h2 H2. by apply IH.
Qed.

Lemma parse_safe fuel ts :
  safe (parse fuel ts) (fun _ _ => True) [].
Proof.
  unfold parse.
  apply safe_bind. eapply safe_mono; [apply safe_new_Expression|].
  intros r h1 (-> & L1 & H1).
  apply safe_bind. eapply safe_mono.
  - apply parse_tokens_safe. intros r w o. rewrite H1.
    case_decide; [intros [= <- <-]; by left|done].
  - intros l h2 H2. unfold parse_finish.
    destruct (negb _); [done|].
    apply safe_bind. eapply safe_mono; [apply safe_has_constraint|].
    intros n h3 Hh3. by destruct (Nat.eqb n 0).
Qed.

(** C10.  The detach step of [add_operator] pops a non-empty list throughout
    [parse_str_to_expression]: no token sequence, hence no input string,
    makes the parser raise [IndexError], at any call depth.  Called directly
    on [Expression().op_or()], [op_and(c)] raises [IndexError], which is not
    one of the Fiql exceptions. *)
Theorem pop_never_fails_in_parse :
  (∀ fuel ts, parse fuel ts [] ≠ Raise IndexError)
  ∧ (∀ fuel fiql_str, parsed fuel fiql_str ≠ Raise IndexError)
  ∧ op_or_then_op_and [] = Raise IndexError
  ∧ is_FiqlException IndexError = false.
Proof.
  assert (∀ fuel ts, parse fuel ts [] ≠ Raise IndexError) as H.
  { intros fuel ts E. pose proof (parse_safe fuel ts) as Hs.
    unfold safe in Hs. rewrite E in Hs. done. }
  split; [done|]. split; [intros; apply H|]. split; reflexivity.
Qed.

(** ** Round trip of inputs without parentheses *)

(** *** Strings *)

Lemma append_assoc (a b c : string) : (a +:+ b) +:+ c = a +:+ (b +:+ c).
Proof.
  induction a as [|x a IH]; [reflexivity|].
  change (String x ((a +:+ b) +:+ c) = String x (a +:+ (b +:+ c))).
  by f_equal.
Qed.

Lemma append_empty_r (a : string) : a +:+ "" = a.
Proof.
  induction a as [|x a IH]; [reflexivity|].
  change (String x (a +:+ "") = String x a). by f_equal.
Qed.

Lemma concat_snoc sep (l : list string) x :
  l ≠ [] → String.concat sep (l ++ [x]) = String.concat sep l +:+ sep +:+ x.
Proof.
  induction l as [|y l IH]; [done|]. intros _.
  destruct l as [|z l]; [done|].
  change (String.concat sep ((y :: z :: l) ++ [x]))
    with (y +:+ sep +:+ String.concat sep ((z :: l) ++ [x])).
  rewrite IH by done.
  change (String.concat sep (y :: z :: l))
    with (y +:+ sep +:+ String.concat sep (z :: l)).
  by rewrite !append_assoc.
Qed.

(** *** Running the primitives on a store that is only partly known *)

Lemma get_Expression_eq h r e :
  h !! r = Some (Exp e) → get_Expression r h = Return (e, h).
Proof. unfold get_Expression. by intros ->. Qed.

Lemma set_parent_eq h x p ox ep :
  h !! x = Some ox → h !! p = Some (Exp ep) →
  set_parent x p h = Return (tt, <[x := with_parent p ox]> h).
Proof.
  intros Hx Hp. unfold set_parent, isinstance_Expression. rewrite Hp, Hx.
  by destruct ox.
Qed.

Lemma add_base_expression_eq h s e w x ox :
  h !! s = Some (Exp e) →
  h !! _working_fragment e = Some (Exp w) →
  h !! x = Some ox →
  x ≠ _working_fragment e →
  add_base_expression s x h
  = Return (s, <[_working_fragment e := Exp (set_elements (elements w ++ [x]) w)]>
                 (<[x := with_parent (_working_fragment e) ox]> h)).
Proof.
  intros Hs Hw Hx Hne. unfold add_base_expression, bind.
  rewrite (get_Expression_eq _ _ _ Hs).
  rewrite (set_parent_eq _ _ _ _ _ Hx Hw).
  rewrite (get_Expression_eq _ _ w).
  2:{ by rewrite list_lookup_insert_ne. }
  done.
Qed.

Lemma lookup_snoc_new (h : heap) o : (h ++ [o]) !! length h = Some o.
Proof. rewrite lookup_app_r by done. by rewrite Nat.sub_diag. Qed.

Lemma lookup_snoc_old (h : heap) o r x :
  h !! r = Some x → (h ++ [o]) !! r = Some x.
Proof. intros H. rewrite lookup_app_l; [done|]. by eapply lookup_lt_Some. Qed.

Ltac side :=
  repeat first [rewrite length_insert | rewrite length_app];
  simpl; first [lia | congruence | done].

Ltac lookup_simpl :=
  repeat first
    [ rewrite list_lookup_insert_eq by side
    | rewrite list_lookup_insert_ne by side
    | rewrite lookup_snoc_new
    | rewrite lookup_app_l by side ].

Ltac lk := simpl; lookup_simpl; first [reflexivity | done].

(** Appending a new constraint to the working fragment of [X]. *)
Lemma parse_selector_appends h l pre c e w :
  h !! expression l = Some (Exp e) →
  h !! _working_fragment e = Some (Exp w) →
  selector c ≠ "" →
  isinstance_BaseExpression (last_element l) = false →
  ∃ h',
    parse_selector l (ctoken pre c) h
    = Return (mkLocals (nesting_lvl l) (Some (VObj (length h))) (expression l), h')
    ∧ length h' = S (length h)
    ∧ constraint_at h' (length h) c
    ∧ h' !! _working_fragment e
      = Some (Exp (set_elements (elements w ++ [length h]) w))
    ∧ ∀ r, r < length h → r ≠ _working_fragment e → h' !! r = h !! r.
Proof.
  intros He Hw Hsel Hlast.
  pose proof (lookup_lt_Some _ _ _ Hw) as Lw.
  unfold parse_selector, ctoken. simpl.
  apply String.eqb_neq in Hsel. rewrite Hsel, Hlast.
  unfold bind, new_Constraint.
  erewrite add_base_expression_eq;
    [| by apply lookup_snoc_old | by apply lookup_snoc_old
     | apply lookup_snoc_new | lia].
  eexists. split; [reflexivity|]. simpl.
  split; [by rewrite !length_insert, length_app, Nat.add_1_r|].
  split; [|split].
  - eexists. lookup_simpl. by repeat split.
  - by lookup_simpl.
  - intros r Hr Hne. by lookup_simpl.
Qed.

(** The four ways [add_operator] returns on a flat input. *)

Lemma add_operator_sets h n X e w op :
  h !! X = Some (Exp e) →
  h !! _working_fragment e = Some (Exp w) →
  operator w = None →
  add_operator (S n) X (VOperator op) h
  = Return (X, <[_working_fragment e := Exp (set_operator (Some op) w)]> h).
Proof.
  intros He Hw Ho. rewrite add_operator_S. unfold bind.
  rewrite (get_Expression_eq _ _ _ He), (get_Expression_eq _ _ _ Hw), Ho.
  done.
Qed.

Lemma add_operator_keeps h n X e w op :
  h !! X = Some (Exp e) →
  h !! _working_fragment e = Some (Exp w) →
  operator w = Some op →
  add_operator (S n) X (VOperator op) h = Return (X, h).
Proof.
  intros He Hw Ho. rewrite add_operator_S. unfold bind.
  rewrite (get_Expression_eq _ _ _ He), (get_Expression_eq _ _ _ Hw), Ho.
  by destruct op.
Qed.

Lemma add_operator_lifts h n X ids :
  h !! X = Some (Exp (mkExpression ids (Some Op.And) None X)) →
  ∃ h',
    add_operator (S (S n)) X (VOperator Op.Or) h = Return (length h, h')
    ∧ length h' = S (length h)
    ∧ h' !! length h
      = Some (Exp (mkExpression [X] (Some Op.Or) None (length h)))
    ∧ h' !! X = Some (Exp (mkExpression ids (Some Op.And) (Some (length h)) X))
    ∧ ∀ r, r < length h → r ≠ X → h' !! r = h !! r.
Proof.
  intros He. pose proof (lookup_lt_Some _ _ _ He) as LX.
  eexists. split.
  { rewrite add_operator_S. unfold bind.
    rewrite (get_Expression_eq _ _ _ He). simpl.
    rewrite (get_Expression_eq _ _ _ He). simpl.
    unfold new_Expression.
    erewrite add_base_expression_eq;
      [| apply lookup_snoc_new | apply lookup_snoc_new
       | by apply lookup_snoc_old | simpl; lia].
    simpl.
    erewrite add_operator_sets;
      [| by lookup_simpl | simpl; by lookup_simpl | done].
    reflexivity. }
  simpl.
  split; [by rewrite !length_insert, length_app, Nat.add_1_r|].
  split; [by lookup_simpl|]. split; [by lookup_simpl|].
  intros r Hr Hne. by lookup_simpl.
Qed.

Lemma pop_snoc ids last_ : pop (ids ++ [last_]) = Some (ids, last_).
Proof. unfold pop. by rewrite last_snoc, removelast_last. Qed.

Lemma create_nested_expression_eq h s e w :
  h !! s = Some (Exp e) →
  h !! _working_fragment e = Some (Exp w) →
  create_nested_expression s h
  = Return (length h,
            <[_working_fragment e
                := Exp (set_elements (elements w ++ [length h]) w)]>
              (<[length h
                   := Exp (mkExpression [] None (Some (_working_fragment e))
                             (length h))]>
                 (h ++ [Exp (mkExpression [] None None (length h))]))).
Proof.
  intros He Hw. pose proof (lookup_lt_Some _ _ _ Hw) as Lw.
  unfold create_nested_expression, bind, new_Expression.
  erewrite add_base_expression_eq;
    [| by apply lookup_snoc_old | by apply lookup_snoc_old
     | apply lookup_snoc_new | lia].
  done.
Qed.

Lemma add_operator_sinks h n X ids last_ cl :
  h !! X = Some (Exp (mkExpression (ids ++ [last_]) (Some Op.Or) None X)) →
  h !! last_ = Some (Con cl) →
  ∃ h',
    add_operator (S (S n)) X (VOperator Op.And) h = Return (X, h')
    ∧ length h' = S (length h)
    ∧ h' !! X
      = Some (Exp (mkExpression (ids ++ [length h]) (Some Op.Or) None (length h)))
    ∧ h' !! length h
      = Some (Exp (mkExpression [last_] (Some Op.And) (Some X) (length h)))
    ∧ constraint_at h' last_ cl
    ∧ ∀ r, r < length h → r ≠ X → r ≠ last_ → h' !! r = h !! r.
Proof.
  intros He Hl.
  pose proof (lookup_lt_Some _ _ _ He) as LX.
  pose proof (lookup_lt_Some _ _ _ Hl) as Ll.
  assert (last_ ≠ X) as Hne by congruence.
  eexists. split.
  { rewrite add_operator_S. unfold bind.
    rewrite (get_Expression_eq _ _ _ He). simpl.
    rewrite (get_Expression_eq _ _ _ He). simpl.
    rewrite pop_snoc.
    erewrite create_nested_expression_eq;
      [| lookup_simpl; reflexivity | simpl; lookup_simpl; reflexivity].
    simpl. rewrite length_insert.
    erewrite get_Expression_eq by lk.
    erewrite get_Expression_eq by lk. simpl.
    erewrite add_base_expression_eq; [| lk | lk | lk | simpl; lia].
    simpl.
    erewrite get_Expression_eq by lk. simpl.
    erewrite add_operator_sets; [| lk | lk | done].
    reflexivity. }
  simpl.
  split; [side|].
  split; [lk|]. split; [lk|].
  split.
  - eexists. lookup_simpl. by repeat split.
  - intros r Hr HX Hlast. lk.
Qed.

(** More call depth does not change what [add_operator] returns. *)
Lemma add_operator_mono n :
  ∀ m self v h x,
    add_operator n self v h = Return x → (n ≤ m)%nat →
    add_operator m self v h = Return x.
Proof.
  intros m self v h x Hn Hle.
  rewrite (add_operator_stable n m); [done| by rewrite Hn |done].
Qed.

(** *** Frames *)

Lemma constraint_at_evolves ch h h' id c :
  constraint_at h id c → evolves ch h h' → constraint_at h' id c.
Proof.
  intros (c' & Hc' & Hs & Hcm & Ha) Hev.
  destruct (Hev _ _ Hc') as [H|[(c2 & [= <-] & (c3 & H3 & ? & ? & ?))|(_ & e & ?)]].
  - exists c'. eauto.
  - exists c3. repeat split; congruence.
  - done.
Qed.

Lemma constraints_at_evolves ch h h' ids cs :
  Forall2 (constraint_at h) ids cs → evolves ch h h' →
  Forall2 (constraint_at h') ids cs.
Proof.
  intros H Hev. eapply Forall2_impl; [exact H|].
  intros. by eapply constraint_at_evolves.
Qed.

Lemma item_at_evolves ch h h' N id it :
  item_at h N id it → evolves ch h h' → id ∉ ch → item_at h' N id it.
Proof.
  destruct it as [c|cs]; simpl.
  - intros H Hev _. by eapply constraint_at_evolves.
  - intros (ids & w & Hg & Hcs) Hev Hid. exists ids, w. split.
    + destruct (Hev _ _ Hg) as [H|[(c2 & ? & _)|(? & _)]]; done.
    + by eapply constraints_at_evolves.
Qed.

Lemma items_at_evolves ch h h' N ids its :
  Forall2 (item_at h N) ids its → evolves ch h h' →
  (∀ id, id ∈ ids → id ∉ ch) →
  Forall2 (item_at h' N) ids its.
Proof.
  intros H Hev Hch. induction H as [|id it ids its Hi H IH]; constructor.
  - eapply item_at_evolves; eauto. apply Hch. by left.
  - apply IH. intros id' Hin. apply Hch. by right.
Qed.

Lemma item_at_lt h N id it : item_at h N id it → id < length h.
Proof.
  destruct it; simpl.
  - intros (c' & H & _). by eapply lookup_lt_Some.
  - intros (ids & w & H & _). by eapply lookup_lt_Some.
Qed.

Lemma items_at_lt h N ids its id :
  Forall2 (item_at h N) ids its → id ∈ ids → id < length h.
Proof.
  intros H Hin. induction H as [|id' it ids its Hi H IH]; [by inversion Hin|].
  inversion Hin; subst; [by eapply item_at_lt|eauto].
Qed.

(** The elements of a parentless expression are not that expression. *)
Lemma items_at_not_root h X e ids its :
  h !! X = Some (Exp e) → parent e = None →
  Forall2 (item_at h X) ids its → X ∉ ids.
Proof.
  intros HX Hp H Hin.
  induction H as [|id it ids its Hi H IH]; [by inversion Hin|].
  inversion Hin; subst; [|eauto].
  destruct it as [c|cs]; simpl in Hi.
  - destruct Hi as (c' & Hc & _). congruence.
  - destruct Hi as (gids & w & Hg & _). rewrite HX in Hg.
    injection Hg as ->. done.
Qed.

Lemma items_all_IC h N ids its :
  Forall2 (item_at h N) ids its → Forall is_IC its →
  ∃ cs, its = map IC cs ∧ Forall2 (constraint_at h) ids cs.
Proof.
  intros H. induction H as [|id it ids its Hi H IH]; intros Hall.
  - by exists [].
  - inversion Hall as [|? ? Hit Hrest]; subst.
    destruct (IH Hrest) as (cs & -> & Hcs).
    destruct it as [c|]; [|done]. exists (c :: cs). split; [done|].
    by constructor.
Qed.

(** *** Rendering of the items *)

Lemma render_items_snoc o its it :
  its ≠ [] →
  render_items o (its ++ [it])
  = render_items o its +:+ separator o +:+ render_item it.
Proof.
  intros Hne. unfold render_items. rewrite map_app. simpl.
  apply concat_snoc. by destruct its.
Qed.

Lemma render_items_sink its cl c :
  render_items (Some Op.Or) (its ++ [IG [cl; c]])
  = render_items (Some Op.Or) (its ++ [IC cl])
    +:+ ";" +:+ Constraint_str c.
Proof.
  destruct its as [|it its]; [done|].
  rewrite !render_items_snoc by done. simpl.
  by rewrite !append_assoc.
Qed.

Lemma render_items_lift cs c :
  render_items (Some Op.Or) [IG cs; IC c]
  = render_items (Some Op.And) (map IC cs) +:+ "," +:+ Constraint_str c.
Proof. unfold render_items. simpl. by rewrite map_map. Qed.

Lemma render_items_grow its cs c :
  cs ≠ [] →
  render_items (Some Op.Or) (its ++ [IG (cs ++ [c])])
  = render_items (Some Op.Or) (its ++ [IG cs]) +:+ ";" +:+ Constraint_str c.
Proof.
  intros Hcs.
  assert (render_item (IG (cs ++ [c]))
          = render_item (IG cs) +:+ ";" +:+ Constraint_str c) as E.
  { simpl. rewrite map_app. apply concat_snoc. by destruct cs. }
  destruct its as [|it its].
  - unfold render_items. simpl. exact E.
  - rewrite !render_items_snoc by done. rewrite E.
    by rewrite !append_assoc.
Qed.

(** *** One operator and one constraint of a flat input *)

Lemma parse_token_operator fuel l lc o c h e :
  last_element l = Some (VObj lc) →
  h !! expression l = Some (Exp e) →
  elements e ≠ [] →
  parse_token fuel l (ctoken (Op.value o) c) h
  = match add_operator fuel (expression l) (VOperator o) h with
    | Return (X', h1) =>
        parse_selector (mkLocals (nesting_lvl l) (Some (VOperator o)) X')
          (ctoken (Op.value o) c) h1
    | Raise e => Raise e
    | DepthExceeded => DepthExceeded
    end.
Proof.
  intros Hl He Hne. unfold parse_token, ctoken.
  destruct o; simpl; unfold bind, parse_char; simpl;
    unfold bind, has_constraint, bind;
    rewrite (get_Expression_eq _ _ _ He); simpl;
    (destruct (elements e); [done|]); simpl; rewrite Hl; simpl;
    by destruct (add_operator _ _ _ _) as [[]| |].
Qed.

(** What [add_operator] returns at some depth is what it returns at a
    greater one. *)
Lemma add_operator_returns_as n m self v h x y :
  add_operator n self v h = Return x →
  add_operator m self v h = Return y →
  x = y.
Proof.
  intros Hn Hm.
  pose proof (add_operator_mono _ (n + m) _ _ _ _ Hn ltac:(lia)) as H1.
  pose proof (add_operator_mono _ (n + m) _ _ _ _ Hm ltac:(lia)) as H2.
  congruence.
Qed.

Lemma Forall2_snoc_r {A B} (P : A → B → Prop) l k' y :
  Forall2 P l (k' ++ [y]) →
  ∃ l' x, l = l' ++ [x] ∧ Forall2 P l' k' ∧ P x y.
Proof.
  intros H. apply Forall2_app_inv_r in H as (l' & lx & H1 & H2 & ->).
  inversion H2 as [|x ? ? ? Hxy Hnil]; subst. inversion Hnil; subst.
  by exists l', x.
Qed.

Lemma flat_step fuel h X text lc o c l' h' :
  flat_state h X text →
  selector c ≠ "" →
  parse_token fuel (mkLocals 0 (Some (VObj lc)) X) (ctoken (Op.value o) c) h
  = Return (l', h') →
  ∃ X' lc',
    l' = mkLocals 0 (Some (VObj lc')) X'
    ∧ flat_state h' X' (text +:+ Op.value o +:+ Constraint_str c).
Proof.
  intros Hst Hsel Hrun. destruct Hst as
    [ids o0 its HX Hits Hne Hnone Hand Hlast | ids F its cs HX Hits HF HG Hcs].
  - (* the root is its own working fragment *)
    assert (ids ≠ []) as Hids.
    { intros ->. inversion Hits; by subst. }
    erewrite parse_token_operator in Hrun; [|done|exact HX|done].
    simpl in Hrun.
    destruct (add_operator fuel X (VOperator o) h) as [[X1 h1]| |] eqn:Eop;
      try done.
    pose proof (items_at_not_root _ _ _ _ _ HX eq_refl Hits) as HXids.
    pose proof (lookup_lt_Some _ _ _ HX) as LX.
    destruct o0 as [o0|].
    + destruct (decide (o = o0)) as [->|Hoo].
      * (* the same operator again *)
        pose proof (add_operator_keeps h 0 X _ _ o0 HX HX eq_refl) as Hk.
        pose proof (add_operator_returns_as _ _ _ _ _ _ _ Eop Hk) as [= -> ->].
        destruct (parse_selector_appends h
                    (mkLocals 0 (Some (VOperator o0)) X) (Op.value o0) c _ _
                    HX HX Hsel eq_refl) as (hf & Hps & Lf & Cf & HXf & Hfr).
        rewrite Hps in Hrun. injection Hrun as <- <-.
        do 2 eexists. split; [done|].
        change (Op.value o0) with (separator (Some o0)).
        change (Constraint_str c) with (render_item (IC c)).
        rewrite <- render_items_snoc by done.
        assert (evolves [X] h hf) as Hev.
        { intros r ob Hr. destruct (decide (r = X)) as [->|Hn].
          - right; right. split; [by left|]. rewrite HX in Hr.
            injection Hr as <-. eauto.
          - left. rewrite Hfr; [done| by eapply lookup_lt_Some |done]. }
        eapply at_root.
        -- exact HXf.
        -- apply Forall2_app.
           ++ eapply items_at_evolves; [exact Hits|exact Hev|].
              intros id Hin. rewrite list_elem_of_singleton. by intros ->.
           ++ constructor; [exact Cf|constructor].
        -- by destruct its.
        -- done.
        -- intros Ho. apply Forall_app. split; [by apply Hand|].
           by constructor.
        -- eauto.
      * destruct o, o0; try done.
        -- (* [;] after [,]: the last constraint sinks into a new fragment *)
           destruct Hlast as (its' & cl & ->).
           apply Forall2_snoc_r in Hits as (ids' & last_ & -> & Hits' & Hcl).
           destruct Hcl as (cl' & Hcl' & Hd1 & Hd2 & Hd3).
           destruct (add_operator_sinks h 0 X ids' last_ cl' HX Hcl')
             as (hs & Hs & Ls & HXs & HSs & Cls & Hfrs).
           pose proof (add_operator_returns_as _ _ _ _ _ _ _ Eop Hs)
             as [= -> ->].
           destruct (parse_selector_appends hs
                       (mkLocals 0 (Some (VOperator Op.And)) X) (Op.value Op.And) c _ _
                       HXs HSs Hsel eq_refl)
             as (hf & Hps & Lf & Cf & HSf & Hfr).
           simpl in HSf, Hfr. rewrite Hps in Hrun.
           injection Hrun as <- <-.
           do 2 eexists. split; [done|].
           change (Op.value Op.And) with ";".
           rewrite <- render_items_sink.
           assert (last_ ≠ X) as HlX by congruence.
           assert (last_ < length h) as Ll by (by eapply lookup_lt_Some).
           assert (evolves [X] h hf) as Hev.
           { intros r ob Hr.
             pose proof (lookup_lt_Some _ _ _ Hr) as Lr.
             destruct (decide (r = X)) as [->|Hn].
             { right; right. split; [by left|]. rewrite HX in Hr.
               injection Hr as <-. eauto. }
             destruct (decide (r = last_)) as [->|Hn'].
             { right; left. exists cl'. split; [congruence|].
               destruct Cls as (c2 & Hc2 & ? & ? & ?).
               exists c2. rewrite Hfr by lia. done. }
             left. rewrite Hfr by lia. by rewrite Hfrs. }
           eapply sunk.
           ++ rewrite Hfr by lia. exact HXs.
           ++ eapply items_at_evolves; [exact Hits'|exact Hev|].
              intros id Hin. rewrite list_elem_of_singleton. intros ->.
              apply HXids. apply elem_of_app. by left.
           ++ intros Hin. eapply items_at_lt in Hin; [|exact Hits']. lia.
           ++ exists [last_; length hs], (length h). split; [exact HSf|].
              constructor; [|constructor; [exact Cf|constructor]].
              destruct Cls as (c2 & Hc2 & ? & ? & ?).
              exists c2. rewrite Hfr by lia.
              split; [exact Hc2|]. repeat split; congruence.
           ++ done.
        -- (* [,] after [;]: a new root takes the old one as its first element *)
           destruct (items_all_IC _ _ _ _ Hits (Hand ltac:(done)))
             as (cs & -> & Hcs).
           destruct (add_operator_lifts h 0 X ids HX)
             as (hs & Hs & Ls & HNs & HXs & Hfrs).
           pose proof (add_operator_returns_as _ _ _ _ _ _ _ Eop Hs)
             as [= -> ->].
           destruct (parse_selector_appends hs
                       (mkLocals 0 (Some (VOperator Op.Or)) (length h))
                       (Op.value Op.Or) c
                       _ _ HNs HNs Hsel eq_refl)
             as (hf & Hps & Lf & Cf & HNf & Hfr).
           simpl in HNf, Hfr. rewrite Hps in Hrun.
           injection Hrun as <- <-.
           do 2 eexists. split; [done|].
           change (Op.value Op.Or) with ",".
           rewrite <- render_items_lift.
           assert (evolves [X] h hf) as Hev.
           { intros r ob Hr.
             pose proof (lookup_lt_Some _ _ _ Hr) as Lr.
             destruct (decide (r = X)) as [->|Hn].
             { right; right. split; [by left|]. rewrite HX in Hr.
               injection Hr as <-. eauto. }
             left. rewrite Hfr by lia. by rewrite Hfrs. }
           eapply (at_root _ _ [X; length hs] (Some Op.Or) [IG cs; IC c]).
           ++ exact HNf.
           ++ constructor; [|constructor; [exact Cf|constructor]].
              exists ids, X. split; [rewrite Hfr by lia; exact HXs|].
              by eapply constraints_at_evolves.
           ++ done.
           ++ done.
           ++ done.
           ++ by exists [IG cs], c.
    + (* no operator yet *)
      pose proof (add_operator_sets h 0 X _ _ o HX HX eq_refl) as Hk.
      pose proof (add_operator_returns_as _ _ _ _ _ _ _ Eop Hk) as [= -> ->].
      simpl in Hrun.
      set (h1 := <[X:=Exp (set_operator (Some o)
                            (mkExpression ids None None X))]> h) in *.
      assert (h1 !! X = Some (Exp (mkExpression ids (Some o) None X))) as HX1.
      { subst h1. by rewrite list_lookup_insert_eq. }
      destruct (parse_selector_appends h1
                  (mkLocals 0 (Some (VOperator o)) X) (Op.value o) c _ _
                  HX1 HX1 Hsel eq_refl) as (hf & Hps & Lf & Cf & HXf & Hfr).
      rewrite Hps in Hrun. injection Hrun as <- <-.
      do 2 eexists. split; [done|].
      specialize (Hnone eq_refl).
      destruct its as [|it [|it2 its]]; try done.
      change (render_items None [it]) with (render_items (Some o) [it]).
      change (Op.value o) with (separator (Some o)).
      change (Constraint_str c) with (render_item (IC c)).
      rewrite <- render_items_snoc by done.
      assert (length h1 = length h) as L1 by (subst h1; apply length_insert).
      assert (evolves [X] h hf) as Hev.
      { intros r ob Hr. pose proof (lookup_lt_Some _ _ _ Hr) as Lr.
        destruct (decide (r = X)) as [->|Hn].
        - right; right. split; [by left|]. rewrite HX in Hr.
          injection Hr as <-. eauto.
        - left. rewrite Hfr by (simpl; lia). subst h1.
          by rewrite list_lookup_insert_ne. }
      eapply at_root.
      * exact HXf.
      * apply Forall2_app.
        -- eapply items_at_evolves; [exact Hits|exact Hev|].
           intros id Hin. rewrite list_elem_of_singleton. by intros ->.
        -- constructor; [exact Cf|constructor].
      * done.
      * done.
      * intros Ho. apply Forall_app. split; [by apply Hand|].
        by constructor.
      * eauto.
  - (* the working fragment is the one [;] has sunk *)
    destruct HG as (gids & wS & HSn & Hgc).
    erewrite parse_token_operator in Hrun; [|done|exact HX|by destruct ids].
    simpl in Hrun.
    destruct (add_operator fuel X (VOperator o) h) as [[X1 h1]| |] eqn:Eop;
      try done.
    destruct o.
    + pose proof (add_operator_keeps h 0 X _ _ Op.And HX HSn eq_refl) as Hk.
      pose proof (add_operator_returns_as _ _ _ _ _ _ _ Eop Hk) as [= -> ->].
      destruct (parse_selector_appends h
                  (mkLocals 0 (Some (VOperator Op.And)) X) (Op.value Op.And) c _ _
                  HX HSn Hsel eq_refl) as (hf & Hps & Lf & Cf & HSf & Hfr).
      simpl in HSf, Hfr. rewrite Hps in Hrun. injection Hrun as <- <-.
      do 2 eexists. split; [done|].
      change (Op.value Op.And) with ";".
      rewrite <- render_items_grow by done.
      pose proof (lookup_lt_Some _ _ _ HX) as LX.
      assert (F ≠ X) as HFX by congruence.
      assert (evolves [F] h hf) as Hev.
      { intros r ob Hr. pose proof (lookup_lt_Some _ _ _ Hr) as Lr.
        destruct (decide (r = F)) as [->|Hn].
        - right; right. split; [by left|]. rewrite HSn in Hr.
          injection Hr as <-. eauto.
        - left. rewrite Hfr by lia. done. }
      eapply sunk.
      * rewrite Hfr by lia. exact HX.
      * eapply items_at_evolves; [exact Hits|exact Hev|].
        intros id Hin. rewrite list_elem_of_singleton. by intros ->.
      * done.
      * exists (gids ++ [length h]), wS. split; [exact HSf|].
        apply Forall2_app; [by eapply constraints_at_evolves|].
        constructor; [exact Cf|constructor].
      * by destruct cs.
    + by rewrite (add_operator_delegation_cycle fuel h X _ _ HX HSn) in Eop.
Qed.

(** *** Rendering the state of a flat parse *)

Lemma Constraint_str_data c c' :
  selector c' = selector c → comparison c' = comparison c →
  argument c' = argument c → Constraint_str c' = Constraint_str c.
Proof. unfold Constraint_str. by intros -> -> ->. Qed.

Lemma str_constraint d h id c :
  constraint_at h id c → str (S d) h id = Return (Constraint_str c).
Proof.
  intros (c' & Hc & ? & ? & ?). simpl. rewrite Hc.
  by rewrite (Constraint_str_data c c').
Qed.

Lemma str_constraints d h ids cs :
  Forall2 (constraint_at h) ids cs →
  omap_list (str (S d) h) ids = Return (map Constraint_str cs).
Proof.
  induction 1 as [|id c ids cs Hc H IH]; [done|].
  cbn [omap_list map]. rewrite (str_constraint _ _ _ _ Hc). cbn [obind].
  by rewrite IH.
Qed.

Lemma gt_And_false o : Op.gt o Op.And = false.
Proof. by destruct o. Qed.

Lemma str_item d h X pe id it :
  h !! X = Some (Exp pe) → item_at h X id it →
  str (S (S d)) h id = Return (render_item it).
Proof.
  intros HX. destruct it as [c|cs]; simpl item_at.
  - apply str_constraint.
  - intros (gids & w & Hg & Hcs).
    change (str (S (S d)) h id) with
      (match h !! id with
       | None => Raise AttributeError
       | Some (Con c) => Return (Constraint_str c)
       | Some (Exp e) =>
           obind (omap_list (str (S d) h) (elements e))
             (fun strs =>
                let elements_str :=
                  String.concat (Op.str (effective_operator e)) strs in
                match parent e with
                | Some p =>
                    match h !! p with
                    | Some (Exp pe) =>
                        if Op.gt (effective_operator pe) (effective_operator e)
                        then Return ("(" +:+ elements_str +:+ ")")
                        else Return elements_str
                    | _ => Raise AttributeError
                    end
                | None => Return elements_str
                end)
       end).
    rewrite Hg. cbn [elements parent effective_operator operator].
    rewrite (str_constraints _ _ _ _ Hcs). cbn [obind].
    by rewrite HX, gt_And_false.
Qed.

Lemma str_items d h X pe ids its :
  h !! X = Some (Exp pe) → Forall2 (item_at h X) ids its →
  omap_list (str (S (S d)) h) ids = Return (map render_item its).
Proof.
  intros HX. induction 1 as [|id it ids its Hi H IH]; [done|].
  cbn [omap_list map]. rewrite (str_item _ _ _ _ _ _ HX Hi). cbn [obind].
  by rewrite IH.
Qed.

Lemma str_root d h X ids o w its :
  h !! X = Some (Exp (mkExpression ids o None w)) →
  Forall2 (item_at h X) ids its →
  str (S (S (S d))) h X = Return (render_items o its).
Proof.
  intros HX Hits.
  rewrite (str_Expression _ _ _ _ _ HX (str_items _ _ _ _ _ _ HX Hits)).
  by destruct o.
Qed.

Lemma str_flat_state d h X text :
  flat_state h X text → str (S (S (S d))) h X = Return text.
Proof.
  intros [ids o its HX Hits _ _ _ _ | ids F its cs HX Hits _ HG _].
  - by eapply str_root.
  - eapply str_root; [exact HX|]. apply Forall2_app; [done|].
    constructor; [exact HG|constructor].
Qed.


(** *** The whole flat input *)

Lemma flat_first fuel c0 l h :
  selector c0 ≠ "" →
  parse_token fuel (mkLocals 0 None 0) (ctoken "" c0)
    [Exp (mkExpression [] None None 0)] = Return (l, h) →
  ∃ lc, l = mkLocals 0 (Some (VObj lc)) 0
        ∧ flat_state h 0 (Constraint_str c0).
Proof.
  intros Hsel. unfold parse_token, bind. simpl.
  unfold parse_selector, ctoken. simpl.
  apply String.eqb_neq in Hsel. rewrite Hsel. simpl.
  intros [= <- <-]. eexists. split; [done|].
  apply (at_root _ 0 [1] None [IC c0]); try done.
  - constructor; [|constructor]. eexists. split; [reflexivity|done].
  - intros _. by constructor.
  - by exists [], c0.
Qed.

Lemma flat_rest fuel rest :
  ∀ h X lc text l' h',
    flat_state h X text →
    Forall (fun oc => selector (snd oc) ≠ "") rest →
    parse_tokens fuel (mkLocals 0 (Some (VObj lc)) X)
      (map (fun oc => ctoken (Op.value (fst oc)) (snd oc)) rest) h
    = Return (l', h') →
    ∃ X' lc',
      l' = mkLocals 0 (Some (VObj lc')) X'
      ∧ flat_state h' X' (text +:+ flat_tail rest).
Proof.
  induction rest as [|[o c] rest IH]; intros h X lc text l' h' Hst Hsel.
  - simpl. intros [= <- <-]. exists X, lc. by rewrite append_empty_r.
  - inversion Hsel as [|? ? Hc Hrest]; subst. simpl in Hc.
    cbn [map parse_tokens fst snd]. unfold bind at 1.
    destruct (parse_token _ _ _ h) as [[l1 h1]| |] eqn:Et; try done.
    destruct (flat_step _ _ _ _ _ _ _ _ _ Hst Hc Et) as (X1 & lc1 & -> & Hst1).
    intros Hrun.
    destruct (IH _ _ _ _ _ _ Hst1 Hrest Hrun) as (X2 & lc2 & -> & Hst2).
    exists X2, lc2. split; [done|].
    cbn [flat_tail]. by rewrite <- !append_assoc in *.
Qed.

Lemma flat_parse fuel c0 rest r h :
  selector c0 ≠ "" →
  Forall (fun oc => selector (snd oc) ≠ "") rest →
  parse fuel (flat_tokens c0 rest) [] = Return (r, h) →
  flat_state h r (flat_text c0 rest).
Proof.
  intros Hc0 Hrest. unfold parse, flat_tokens, new_Expression.
  cbn [parse_tokens]. unfold bind. cbn [length app].
  destruct (parse_token fuel _ _ _) as [[l1 h1]| |] eqn:E1; try done.
  destruct (parse_tokens fuel l1 _ h1) as [[l2 h2]| |] eqn:E2; try done.
  destruct (flat_first _ _ _ _ Hc0 E1) as (lc & -> & Hst1).
  destruct (flat_rest _ _ _ _ _ _ _ _ Hst1 Hrest E2) as (X & lc' & -> & Hst2).
  unfold parse_finish, bind, has_constraint, bind, get_Expression.
  simpl. destruct (h2 !! X) as [[?|e]|]; try done. simpl.
  destruct (Nat.eqb _ _); [done|]. by intros [= <- <-].
Qed.

(** On an input without parentheses, what the parser returns is the root. *)
Lemma flat_parse_returns_root fuel c0 rest r h :
  selector c0 ≠ "" →
  Forall (fun oc => selector (snd oc) ≠ "") rest →
  parse fuel (flat_tokens c0 rest) [] = Return (r, h) →
  ∃ e, h !! r = Some (Exp e) ∧ parent e = None.
Proof.
  intros Hc0 Hrest Hp.
  destruct (flat_parse _ _ _ _ _ Hc0 Hrest Hp)
    as [ids o its HX _ _ _ _ _ | ids F its cs HX _ _ _ _]; eauto.
Qed.

(** *** The tokenizer on the rendering of a flat input *)

Lemma chars_append (a b : string) :
  list_ascii_of_string (a +:+ b)
  = list_ascii_of_string a ++ list_ascii_of_string b.
Proof.
  induction a as [|x a IH]; [done|].
  change (x :: list_ascii_of_string (a +:+ b)
          = x :: (list_ascii_of_string a ++ list_ascii_of_string b)).
  by f_equal.
Qed.

Lemma run_app p (m rest : list ascii) :
  forallb p m = true → stops p rest → Lex.run p (m ++ rest) = (m, rest).
Proof.
  induction m as [|c m IH]; intros Hm Hrest.
  - destruct rest as [|c r]; [done|]. destruct Hrest as [Hp Hc].
    simpl. by rewrite Hp, Hc.
  - simpl in Hm. apply andb_true_iff in Hm as [Hc Hm].
    simpl. rewrite Hc. by rewrite IH.
Qed.

Lemma letters_app (s t l r : list ascii) c :
  Lex.letters s = (l, c :: r) → Lex.letters (s ++ t) = (l, c :: r ++ t).
Proof.
  revert l. induction s as [|x s IH]; intros l; [done|].
  simpl. destruct (Lex.is_alpha x).
  - destruct (Lex.letters s) as [l' r'] eqn:E. intros [= <- ->].
    by rewrite (IH l' eq_refl).
  - by intros [= <- <- <-].
Qed.

Lemma match_comparison_app (s t m r : list ascii) :
  Lex.match_comparison s = Some (m, r) →
  Lex.match_comparison (s ++ t) = Some (m, r ++ t).
Proof.
  destruct s as [|c s]; [done|]. simpl.
  destruct (Ascii.eqb c "=").
  - destruct (Lex.letters s) as [l r0] eqn:E.
    destruct r0 as [|c' r']; [done|].
    rewrite (letters_app _ t _ _ _ E).
    destruct (Ascii.eqb c' "="); [|done]. by intros [= <- <-].
  - destruct (Lex.is_fiql_delim c); [|done].
    destruct s as [|c' r']; [done|]. simpl.
    destruct (Ascii.eqb c' "="); [|done]. by intros [= <- <-].
Qed.

Lemma unquote_plus_plain (s : list ascii) :
  forallb Lex.is_unreserved s = true → Lex.unquote_plus s = s.
Proof.
  induction s as [|c s IH]; [done|]. simpl.
  intros [Hc Hs]%andb_true_iff. rewrite (IH Hs).
  destruct (Ascii.eqb c "+") eqn:E1.
  { apply Ascii.eqb_eq in E1. by subst. }
  destruct (Ascii.eqb c "%") eqn:E2; [|done].
  apply Ascii.eqb_eq in E2. by subst.
Qed.

Lemma plain_chars_spec s :
  plain_chars s = true →
  forallb Lex.is_unreserved (list_ascii_of_string s) = true
  ∧ list_ascii_of_string s ≠ [].
Proof.
  unfold plain_chars. intros [H1 H2]%andb_true_iff. split; [done|].
  by destruct s.
Qed.

Lemma is_arg_char_unreserved (s : list ascii) :
  forallb Lex.is_unreserved s = true → forallb Lex.is_arg_char s = true.
Proof.
  induction s as [|c s IH]; [done|]. simpl.
  intros [Hc Hs]%andb_true_iff. unfold Lex.is_arg_char at 1.
  by rewrite Hc, IH.
Qed.

Lemma after_constraint_stops p rest :
  p ";"%char = false → p ","%char = false →
  after_constraint rest → stops p rest.
Proof. destruct rest as [|c r]; [done|]. by intros ? ? [->| ->]. Qed.

Lemma match_nonempty {A B} (l : list A) (x y : B) :
  l ≠ [] → match l with [] => x | _ :: _ => y end = y.
Proof. by destruct l. Qed.

Lemma match_constraint_plain c rest :
  plain_constraint c → after_constraint rest →
  ∃ sel grp,
    Lex.match_constraint (list_ascii_of_string (Constraint_str c) ++ rest)
    = Some (sel, grp, rest)
    ∧ text (Lex.unquote_plus sel) = selector c
    ∧ text <$> (fst <$> grp) = comparison c
    ∧ text <$> (Lex.unquote_plus <$> (snd <$> grp)) = argument c.
Proof.
  intros [Hsel Hgrp] Hrest.
  apply plain_chars_spec in Hsel as [Hsel Hne].
  unfold Constraint_str, Lex.match_constraint.
  destruct (comparison c) as [cmp|], (argument c) as [arg|]; try done.
  - destruct Hgrp as [Hcmp Harg].
    apply plain_chars_spec in Harg as [Harg Hane].
    rewrite !chars_append, <- !app_assoc.
    rewrite run_app; [|done|].
    2:{ red in Hcmp. destruct (list_ascii_of_string cmp) as [|x cs]; [done|].
        simpl. simpl in Hcmp. destruct (Ascii.eqb x "=") eqn:Ex.
        - apply Ascii.eqb_eq in Ex. by subst.
        - destruct (Lex.is_fiql_delim x) eqn:Ed; [|done].
          clear Hcmp. split; [|by destruct x as [[] [] [] [] [] [] [] []]].
          by destruct x as [[] [] [] [] [] [] [] []]. }
    rewrite match_nonempty by done.
    rewrite (match_comparison_app _ _ _ _ Hcmp). cbn [app].
    rewrite run_app; [|by apply is_arg_char_unreserved|].
    2:{ by apply after_constraint_stops. }
    rewrite match_nonempty by done.
    do 2 eexists. split; [reflexivity|]. cbn [fmap option_fmap option_map fst snd].
    rewrite !unquote_plus_plain by done.
    unfold text. by rewrite !string_of_list_ascii_of_string.
  - rewrite run_app; [|done|by apply after_constraint_stops].
    rewrite match_nonempty by done.
    assert (Lex.match_comparison rest = None) as ->.
    { destruct rest as [|x r]; [done|]. by destruct Hrest as [->| ->]. }
    do 2 eexists. split; [reflexivity|]. cbn [fmap option_fmap option_map fst snd].
    rewrite unquote_plus_plain by done.
    unfold text. by rewrite string_of_list_ascii_of_string.
Qed.

Lemma chars_flat_tail o c rest :
  list_ascii_of_string (flat_tail ((o, c) :: rest))
  = list_ascii_of_string (Op.value o)
    ++ list_ascii_of_string (Constraint_str c)
    ++ list_ascii_of_string (flat_tail rest).
Proof. cbn [flat_tail]. by rewrite !chars_append. Qed.

Lemma after_constraint_flat_tail rest :
  after_constraint (list_ascii_of_string (flat_tail rest)).
Proof.
  destruct rest as [|[o c] rest]; [done|].
  rewrite chars_flat_tail. destruct o; simpl; eauto.
Qed.

Lemma Constraint_str_nonempty c :
  plain_constraint c → list_ascii_of_string (Constraint_str c) ≠ [].
Proof.
  intros [Hsel _]. apply plain_chars_spec in Hsel as [_ Hne].
  unfold Constraint_str.
  destruct (comparison c), (argument c); try done.
  rewrite chars_append. by destruct (list_ascii_of_string (selector c)).
Qed.

Lemma iter_parse_loop_tail rest :
  Forall (fun oc => plain_constraint (snd oc)) rest →
  ∀ n, (length (list_ascii_of_string (flat_tail rest)) ≤ n)%nat →
       iter_parse_loop n (list_ascii_of_string (flat_tail rest))
       = map (fun oc => ctoken (Op.value (fst oc)) (snd oc)) rest.
Proof.
  induction 1 as [|[o c] rest Hc Hrest IH]; intros n Hn.
  - by destruct n.
  - rewrite chars_flat_tail in *. simpl in Hc.
    destruct (match_constraint_plain c _ Hc (after_constraint_flat_tail rest))
      as (sel & grp & Hm & Hs & Hcm & Ha).
    pose proof (Constraint_str_nonempty _ Hc) as Hne.
    destruct n as [|n].
    { exfalso. destruct o; simpl in Hn; lia. }
    assert (∃ x, list_ascii_of_string (Op.value o) = [x]
                 ∧ Lex.match_constraint
                     (x :: list_ascii_of_string (Constraint_str c)
                        ++ list_ascii_of_string (flat_tail rest)) = None)
      as (x & Hx & Hnone).
    { destruct o; eexists; (split; [reflexivity|]);
        unfold Lex.match_constraint; by simpl. }
    rewrite Hx in *. cbn [app iter_parse_loop].
    rewrite split_unfold, Hnone, split_unfold, Hm.
    cbn [map fst snd]. f_equal.
    + unfold ctoken. rewrite Hs, Hcm, Ha. f_equal.
      unfold text. rewrite <- Hx. apply string_of_list_ascii_of_string.
    + apply IH. revert Hn Hne. rewrite !length_app. simpl.
      destruct (list_ascii_of_string (Constraint_str c)); [done|].
      simpl. lia.
Qed.

Lemma iter_parse_flat c0 rest :
  plain_constraint c0 →
  Forall (fun oc => plain_constraint (snd oc)) rest →
  iter_parse (flat_text c0 rest) = flat_tokens c0 rest.
Proof.
  intros Hc0 Hrest. unfold iter_parse, flat_text, flat_tokens.
  rewrite chars_append.
  destruct (match_constraint_plain c0 _ Hc0 (after_constraint_flat_tail rest))
    as (sel & grp & Hm & Hs & Hcm & Ha).
  pose proof (Constraint_str_nonempty _ Hc0) as Hne.
  rewrite length_app.
  destruct (length (list_ascii_of_string (Constraint_str c0))) as [|k] eqn:Ek.
  { by destruct (list_ascii_of_string (Constraint_str c0)). }
  cbn [Nat.add iter_parse_loop].
  rewrite split_unfold, Hm.
  destruct (list_ascii_of_string (Constraint_str c0) ++ _) eqn:E.
  { by destruct (list_ascii_of_string (Constraint_str c0)). }
  f_equal.
  - unfold ctoken. by rewrite Hs, Hcm, Ha.
  - apply iter_parse_loop_tail; [done|lia].
Qed.

(** *** Deconstruction of the state of a flat parse *)



Lemma to_python_Expression d h self e :
  h !! self = Some (Exp e) →
  to_python (S d) h self =
  match elements e with
  | [] => Return PyNone
  | [elem] => to_python d h elem
  | _ =>
      obind (omap_list (to_python d h) (elements e))
        (fun items =>
           Return (PyList (PyStr (Op.to_python (effective_operator e))
                             :: items)))
  end.
Proof. intros He. simpl. by rewrite He. Qed.





Lemma plain_constraint_selector c : plain_constraint c → selector c ≠ "".
Proof.
  intros [H _]. unfold plain_chars in H.
  apply andb_true_iff in H as [_ H]. intros E. by rewrite E in H.
Qed.


(** * Properties of the single methods and of the parser as a whole *)

(** ** The operators *)

(** X1.  [Operator(s)] is accepted exactly for the two keys of [OPERATOR_MAP],
    [str()] gives the key back, and any other string raises
    [FiqlObjectException]. *)
Theorem Operator_init_str (s : string) :
  (∀ o, Op.init s = Return o ↔ Op.str o = s)
  ∧ (Op.init s = Raise (FiqlObjectException NotAValidOperator)
     ↔ s ≠ ";" ∧ s ≠ ",").
Proof.
  unfold Op.init, Op.OPERATOR_MAP, Op.assoc.
  destruct (String.eqb_spec s ";") as [->|H1].
  { split; [intros []; simpl; split; congruence|]. split; [done|].
    intros [? _]. done. }
  destruct (String.eqb_spec s ",") as [->|H2].
  { split; [intros []; simpl; split; congruence|]. split; [done|].
    intros [_ ?]. done. }
  split; [|done].
  intros []; simpl; split; try done; intros; congruence.
Qed.

(** X2.  [__lt__] and [__eq__] compare precedences: of two operators exactly
    one of [a < b], [a == b], [a > b] holds, [==] only between equal symbols,
    and [<] only from [,] to [;]. *)
Theorem Operator_comparisons (a b : Operator) :
  (Op.eq a b = true ↔ a = b)
  ∧ (Op.lt a b = true ↔ a = Op.Or ∧ b = Op.And)
  ∧ (Op.gt a b = true ↔ Op.lt b a = true)
  ∧ (Op.lt a b = false → Op.gt a b = false → Op.eq a b = true)
  ∧ (Op.lt a b = true → Op.gt a b = false ∧ Op.eq a b = false)
  ∧ (Op.eq a b = true → Op.lt a b = false ∧ Op.gt a b = false).
Proof.
  destruct a, b; vm_compute; intuition congruence.
Qed.

(** ** Parent links *)

Lemma set_parent_then_get_parent (h : heap) (x p : ref) :
  x < length h → isinstance_Expression h p = true →
  ∃ h', set_parent x p h = Return (tt, h')
        ∧ get_parent x h' = Return (p, h')
        ∧ length h' = length h
        ∧ ∀ r, r ≠ x → h' !! r = h !! r.
Proof.
  intros Hx Hp. destruct (lookup_lt_is_Some_2 h x Hx) as [ox Hox].
  unfold isinstance_Expression in Hp.
  destruct (h !! p) as [[cp|ep]|] eqn:Ep; try done.
  rewrite (set_parent_eq _ _ _ _ _ Hox Ep).
  eexists. split; [reflexivity|]. split; [|split].
  - unfold get_parent, isinstance_Expression. change ref with nat in *.
    rewrite list_lookup_insert_eq by done.
    assert (parent_of (with_parent p ox) = Some p) as -> by by destruct ox.
    destruct (decide (p = x)) as [->|Hne].
    + rewrite list_lookup_insert_eq by done.
      assert (ox = Exp ep) as -> by congruence. done.
    + rewrite list_lookup_insert_ne by done. by rewrite Ep.
  - by rewrite length_insert.
  - intros r Hr. by rewrite list_lookup_insert_ne.
Qed.

(** X3.  [set_parent] accepts exactly the parents that are an [Expression];
    once it has returned, [get_parent] returns that parent and no other object
    has changed. Anything else as a parent, and [get_parent] on an object that
    was never given one, raise [FiqlObjectException]. *)
Theorem set_parent_get_parent (h : heap) (x p : ref) :
  x < length h →
  (isinstance_Expression h p = true →
   ∃ h', set_parent x p h = Return (tt, h')
         ∧ get_parent x h' = Return (p, h')
         ∧ length h' = length h
         ∧ ∀ r, r ≠ x → h' !! r = h !! r)
  ∧ (isinstance_Expression h p = false →
     set_parent x p h = Raise (FiqlObjectException ParentMustBeExpression))
  ∧ (∀ o, h !! x = Some o → parent_of o = None →
     get_parent x h = Raise (FiqlObjectException ParentMustBeExpression)).
Proof.
  intros Hx. split; [by apply set_parent_then_get_parent|]. split.
  - intros Hp. unfold set_parent. by rewrite Hp.
  - intros o Ho Hpar. unfold get_parent. by rewrite Ho, Hpar.
Qed.

Lemma set_parent_get_parent_witness :
  ∃ h', set_parent 1 0 [Exp (mkExpression [] None None 0);
                        Con (mkConstraint "a" None None None)]
        = Return (tt, h')
        ∧ get_parent 1 h' = Return (0, h').
Proof.
  destruct (set_parent_get_parent
              [Exp (mkExpression [] None None 0);
               Con (mkConstraint "a" None None None)] 1 0) as (H & _).
  { simpl. lia. }
  destruct (H eq_refl) as (h' & H1 & H2 & _). eauto.
Defined.

(** ** Adding elements *)

(** X4.  [add_element] with a [BaseExpression] hands it to the working
    fragment: the element is appended to the working fragment's elements, its
    parent is the working fragment, the receiver is returned and nothing else
    changes; with anything that is neither a [BaseExpression] nor an
    [Operator] it raises [FiqlObjectException] whatever the store. *)
Theorem add_element_appends fuel h s e w x ox :
  h !! s = Some (Exp e) →
  h !! _working_fragment e = Some (Exp w) →
  h !! x = Some ox →
  x ≠ _working_fragment e →
  (∃ h', add_element fuel s (VObj x) h = Return (s, h')
         ∧ h' !! _working_fragment e
           = Some (Exp (set_elements (elements w ++ [x]) w))
         ∧ h' !! x = Some (with_parent (_working_fragment e) ox)
         ∧ get_parent x h' = Return (_working_fragment e, h')
         ∧ length h' = length h
         ∧ ∀ r, r ≠ x → r ≠ _working_fragment e → h' !! r = h !! r)
  ∧ (∀ h0, add_element (S fuel) s VOther h0
           = Raise (FiqlObjectException NotAValidElementType)).
Proof.
  intros Hs Hw Hx Hne. split; [|done].
  pose proof (lookup_lt_Some _ _ _ Hw) as Lw.
  pose proof (lookup_lt_Some _ _ _ Hx) as Lx.
  simpl. rewrite (add_base_expression_eq _ _ _ _ _ _ Hs Hw Hx Hne).
  eexists. split; [reflexivity|].
  split; [lk|]. split; [lk|]. split; [|split].
  - unfold get_parent. lookup_simpl.
    assert (parent_of (with_parent (_working_fragment e) ox)
            = Some (_working_fragment e)) as -> by by destruct ox.
    unfold isinstance_Expression. by lookup_simpl.
  - side.
  - intros r H1 H2. lk.
Qed.

Lemma add_element_appends_witness :
  ∃ h', add_element 0 0 (VObj 1)
          [Exp (mkExpression [] None None 0);
           Con (mkConstraint "a" None None None)] = Return (0, h')
        ∧ h' !! 0 = Some (Exp (mkExpression [1] None None 0))
        ∧ get_parent 1 h' = Return (0, h').
Proof.
  destruct (add_element_appends 0
              [Exp (mkExpression [] None None 0);
               Con (mkConstraint "a" None None None)] 0 _ _ 1 _
              eq_refl eq_refl eq_refl) as ((h' & H1 & H2 & _ & H3 & _) & _).
  { simpl. lia. }
  exists h'. eauto.
Defined.

(** X5.  [create_nested_expression] attaches the new [Expression] to the
    receiver's working fragment, which need not be the receiver: it is the
    last element of the working fragment, [get_parent] on it returns the
    working fragment, and it is empty and its own working fragment. *)
Theorem create_nested_expression_attaches h s e w :
  h !! s = Some (Exp e) →
  h !! _working_fragment e = Some (Exp w) →
  ∃ h', create_nested_expression s h = Return (length h, h')
        ∧ h' !! length h
          = Some (Exp (mkExpression [] None (Some (_working_fragment e))
                         (length h)))
        ∧ h' !! _working_fragment e
          = Some (Exp (set_elements (elements w ++ [length h]) w))
        ∧ get_parent (length h) h' = Return (_working_fragment e, h')
        ∧ length h' = S (length h)
        ∧ ∀ r, r < length h → r ≠ _working_fragment e → h' !! r = h !! r.
Proof.
  intros Hs Hw. pose proof (lookup_lt_Some _ _ _ Hw) as Lw.
  rewrite (create_nested_expression_eq _ _ _ _ Hs Hw).
  eexists. split; [reflexivity|].
  split; [lk|]. split; [lk|]. split; [|split].
  - unfold get_parent. lookup_simpl. simpl.
    unfold isinstance_Expression. by lookup_simpl.
  - side.
  - intros r H1 H2. lk.
Qed.

Lemma create_nested_expression_attaches_witness :
  ∃ h', create_nested_expression 0 [Exp (mkExpression [] None None 0)]
        = Return (1, h')
        ∧ get_parent 1 h' = Return (0, h').
Proof.
  destruct (create_nested_expression_attaches
              [Exp (mkExpression [] None None 0)] 0 _ _ eq_refl eq_refl)
    as (h' & H1 & _ & _ & H2 & _).
  exists h'. eauto.
Defined.

(** ** Adding the same operator twice *)

Section Post.
Context {A B : Type}.

Lemma post_ret (a : A) (Q : A → heap → Prop) h : Q a h → post (ret a) Q h.
Proof. done. Qed.

Lemma post_bind (m : M A) (k : A → M B) (Q : B → heap → Prop) h :
  post m (fun a h' => post (k a) Q h') h → post (bind m k) Q h.
Proof. unfold post, bind. destruct (m h) as [[a h']| |]; done. Qed.

Lemma post_mono (m : M A) (Q Q' : A → heap → Prop) h :
  post m Q h → (∀ a h', Q a h' → Q' a h') → post m Q' h.
Proof. unfold post. destruct (m h) as [[a h']| |]; eauto. Qed.

Lemma safe_post (m : M A) (Q : A → heap → Prop) h : safe m Q h → post m Q h.
Proof. unfold safe, post. destruct (m h) as [[a h']| |]; done. Qed.

End Post.

Ltac post_step lem :=
  apply post_bind; eapply post_mono; [apply safe_post, lem|].

Lemma add_operator_joins n :
  ∀ self op h,
    post (add_operator n self (VOperator op)) (fun r h' => joined_by op h' r) h.
Proof.
  induction n as [|n IH]; intros self op h; [exact I|].
  unfold post. rewrite add_operator_S. fold (post (A:=ref)).
  post_step safe_get_Expression. intros e ? [-> He].
  post_step safe_get_Expression. intros w ? [-> Hw].
  pose proof (cursor_Exp _ _ _ He) as Ce.
  pose proof (cursor_Exp _ _ _ Hw) as Cw.
  destruct (operator w) as [wop|] eqn:Eop.
  - destruct (Op.gt op wop) eqn:Egt.
    + apply gt_And_Or in Egt as [-> ->].
      destruct (pop (elements w)) as [[rest last_constraint]|]; [|done].
      apply post_bind. eapply post_mono;
        [apply safe_post, safe_put_keep; simpl; by rewrite Eop|].
      intros _ h1 [L1 H1].
      post_step safe_create_nested_expression.
      intros sub h2 (-> & L2 & H2).
      post_step safe_get_Expression. intros e' ? [-> He'].
      assert (self < length h) as Lself by (by eapply cursor_lt).
      assert (cursor h2 self = Some (_working_fragment e, operator e)) as C2.
      { rewrite H2, decide_False by lia. by rewrite H1. }
      apply post_bind. eapply post_mono;
        [apply safe_post; eapply safe_put; exact C2|].
      intros _ h3 [L3 H3].
      post_step safe_get_Expression. intros e'' ? [-> He''].
      post_step safe_add_base_expression. intros _ h4 [L4 H4].
      post_step safe_get_Expression. intros e''' ? [-> He'''].
      pose proof (cursor_Exp _ _ _ He''') as C4.
      rewrite H4, H3 in C4. rewrite decide_True in C4 by done.
      injection C4 as Hwf Hop. simpl in Hwf, Hop. rewrite <- Hwf.
      apply post_bind.
      destruct n as [|n']; [done|].
      unfold post at 1. rewrite add_operator_S. fold (post (A:=ref)).
      set (sub := length h1) in *.
      assert (sub ≠ self) as Hsub by (subst sub; lia).
      assert (cursor h4 sub = Some (sub, None)) as Csub.
      { rewrite H4, H3, decide_False by done. rewrite H2.
        by rewrite decide_True. }
      post_step safe_get_Expression. intros s1 ? [-> Hs1].
      pose proof (cursor_Exp _ _ _ Hs1) as Cs1. rewrite Csub in Cs1.
      injection Cs1 as Hs1w Hs1o. rewrite <- Hs1w.
      post_step safe_get_Expression. intros s2 ? [-> Hs2].
      assert (s2 = s1) as -> by congruence. rewrite <- Hs1o.
      apply post_bind. eapply post_mono;
        [apply safe_post; eapply safe_put; exact Csub|].
      intros _ h5 [L5 H5]. apply post_ret. apply post_ret.
      exists sub, (operator e'), sub. split.
      * rewrite H5, decide_False by done.
        rewrite H4, H3. by rewrite decide_True.
      * rewrite H5, decide_True by done. simpl. by rewrite <- Hs1w.
    + destruct (Op.lt op wop) eqn:Elt.
      * apply lt_Or_And in Elt as [-> ->].
        destruct (parent w) as [p|]; [by apply IH|].
        post_step safe_new_Expression. intros root h1 (-> & L1 & H1).
        post_step safe_add_base_expression. intros _ h2 [L2 H2].
        by apply IH.
      * apply post_ret. exists (_working_fragment e), (operator e),
          (_working_fragment w). split; [done|]. rewrite Cw.
        by destruct op, wop.
  - apply post_bind. eapply post_mono;
      [apply safe_post; eapply safe_put; exact Cw|].
    intros _ h1 [L1 H1]. apply post_ret.
    destruct (decide (self = _working_fragment e)) as [Heq|Hne].
    + exists (_working_fragment w), (Some op), (_working_fragment w).
      assert (e = w) as -> by congruence.
      rewrite H1, decide_True by done. simpl.
      split; [done|]. rewrite H1, decide_True by congruence. done.
    + exists (_working_fragment e), (operator e), (_working_fragment w).
      rewrite !H1. rewrite decide_False by done.
      rewrite decide_True by done. done.
Qed.

(** X6.  When [add_operator(op)] has returned an expression, adding [op] to
    that expression again returns it with the store unchanged, from any store
    and at any call depth. *)
Theorem add_operator_idempotent n m self op h r h' :
  add_operator n self (VOperator op) h = Return (r, h') →
  add_operator (S m) r (VOperator op) h' = Return (r, h').
Proof.
  intros Hrun. pose proof (add_operator_joins n self op h) as Hp.
  unfold post in Hp. rewrite Hrun in Hp.
  destruct Hp as (w & o & w' & Cr & Cw).
  apply cursor_Some in Cr as (e & He & <- & _).
  apply cursor_Some in Cw as (ew & Hw & _ & Ho).
  rewrite add_operator_S. unfold bind.
  rewrite (get_Expression_eq _ _ _ He), (get_Expression_eq _ _ _ Hw), Ho.
  by destruct op.
Qed.

Lemma add_operator_idempotent_witness :
  ∃ h', add_operator 2 0 (VOperator Op.And)
          [ Exp (mkExpression [1; 2] (Some Op.Or) None 0);
            Con (mkConstraint "a" None None (Some 0));
            Con (mkConstraint "b" None None (Some 0)) ] = Return (0, h')
        ∧ add_operator 1 0 (VOperator Op.And) h' = Return (0, h').
Proof.
  eexists. split; [reflexivity|].
  eapply (add_operator_idempotent 2 0 0 Op.And
            [ Exp (mkExpression [1; 2] (Some Op.Or) None 0);
              Con (mkConstraint "a" None None (Some 0));
              Con (mkConstraint "b" None None (Some 0)) ]).
  reflexivity.
Defined.

(** ** The branches of [add_operator] that build a new node *)

Lemma add_operator_nests (h : heap) n (X : ref) ids (last_ : ref) ox par :
  h !! X = Some (Exp (mkExpression (ids ++ [last_]) (Some Op.Or) par X)) →
  h !! last_ = Some ox →
  last_ ≠ X →
  ∃ h',
    add_operator (S (S n)) X (VOperator Op.And) h = Return (X, h')
    ∧ length h' = S (length h)
    ∧ h' !! X
      = Some (Exp (mkExpression (ids ++ [length h]) (Some Op.Or) par (length h)))
    ∧ h' !! length h
      = Some (Exp (mkExpression [last_] (Some Op.And) (Some X) (length h)))
    ∧ h' !! last_ = Some (with_parent (length h) ox)
    ∧ ∀ r, r < length h → r ≠ X → r ≠ last_ → h' !! r = h !! r.
Proof.
  intros He Hl Hne.
  pose proof (lookup_lt_Some _ _ _ He) as LX.
  pose proof (lookup_lt_Some _ _ _ Hl) as Ll.
  eexists. split.
  { rewrite add_operator_S. unfold bind.
    rewrite (get_Expression_eq _ _ _ He). simpl.
    rewrite (get_Expression_eq _ _ _ He). simpl.
    rewrite pop_snoc.
    erewrite create_nested_expression_eq;
      [| lookup_simpl; reflexivity | simpl; lookup_simpl; reflexivity].
    simpl. rewrite length_insert.
    erewrite get_Expression_eq by lk.
    erewrite get_Expression_eq by lk. simpl.
    erewrite add_base_expression_eq; [| lk | lk | lk | simpl; lia].
    simpl.
    erewrite get_Expression_eq by lk. simpl.
    erewrite add_operator_sets; [| lk | lk | done].
    reflexivity. }
  simpl.
  split; [side|].
  split; [lk|]. split; [lk|]. split; [lk|].
  intros r Hr HX Hlast. lk.
Qed.

Lemma add_operator_new_root (h : heap) n (s : ref) e w :
  h !! s = Some (Exp e) →
  h !! _working_fragment e = Some (Exp w) →
  operator w = Some Op.And →
  parent w = None →
  ∃ h',
    add_operator (S (S n)) s (VOperator Op.Or) h = Return (length h, h')
    ∧ length h' = S (length h)
    ∧ h' !! length h
      = Some (Exp (mkExpression [_working_fragment e] (Some Op.Or) None
                     (length h)))
    ∧ h' !! _working_fragment e
      = Some (Exp (set_parent_field (Some (length h)) w))
    ∧ ∀ r, r < length h → r ≠ _working_fragment e → h' !! r = h !! r.
Proof.
  intros He Hw Ho Hp. pose proof (lookup_lt_Some _ _ _ Hw) as Lw.
  eexists. split.
  { rewrite add_operator_S. unfold bind.
    rewrite (get_Expression_eq _ _ _ He).
    rewrite (get_Expression_eq _ _ _ Hw). rewrite Ho, Hp. simpl.
    unfold new_Expression.
    erewrite add_base_expression_eq;
      [| apply lookup_snoc_new | apply lookup_snoc_new
       | by apply lookup_snoc_old | simpl; lia].
    simpl.
    erewrite add_operator_sets;
      [| by lookup_simpl | simpl; by lookup_simpl | done].
    reflexivity. }
  simpl.
  split; [by rewrite !length_insert, length_app, Nat.add_1_r|].
  split; [by lookup_simpl|]. split; [by lookup_simpl|].
  intros r Hr Hne. by lookup_simpl.
Qed.

(** X7.  An operator of higher precedence takes the last element with it: when
    the receiver is its own working fragment, joined by [,] and ending in
    [last_], adding [;] returns the receiver; its last element is now a new
    expression joined by [;] that holds [last_] alone and is the receiver's
    working fragment, [last_] has the new expression as parent, and nothing
    else has changed. *)
Theorem add_operator_higher_precedence_nests
    (h : heap) n (X : ref) ids (last_ : ref) ox par :
  h !! X = Some (Exp (mkExpression (ids ++ [last_]) (Some Op.Or) par X)) →
  h !! last_ = Some ox →
  last_ ≠ X →
  ∃ h',
    add_element (S (S n)) X (VOperator Op.And) h = Return (X, h')
    ∧ length h' = S (length h)
    ∧ h' !! X
      = Some (Exp (mkExpression (ids ++ [length h]) (Some Op.Or) par (length h)))
    ∧ h' !! length h
      = Some (Exp (mkExpression [last_] (Some Op.And) (Some X) (length h)))
    ∧ h' !! last_ = Some (with_parent (length h) ox)
    ∧ ∀ r, r < length h → r ≠ X → r ≠ last_ → h' !! r = h !! r.
Proof. apply add_operator_nests. Qed.

Lemma add_operator_higher_precedence_nests_witness :
  ∃ h',
    add_element 2 0 (VOperator Op.And)
      [ Exp (mkExpression [1; 2] (Some Op.Or) None 0);
        Con (mkConstraint "a" None None (Some 0));
        Con (mkConstraint "b" None None (Some 0)) ] = Return (0, h')
    ∧ h' !! 0 = Some (Exp (mkExpression [1; 3] (Some Op.Or) None 3))
    ∧ h' !! 3 = Some (Exp (mkExpression [2] (Some Op.And) (Some 0) 3))
    ∧ h' !! 2 = Some (Con (mkConstraint "b" None None (Some 3))).
Proof.
  destruct (add_operator_higher_precedence_nests
              [ Exp (mkExpression [1; 2] (Some Op.Or) None 0);
                Con (mkConstraint "a" None None (Some 0));
                Con (mkConstraint "b" None None (Some 0)) ]
              0 0 [1] 2 _ None eq_refl eq_refl)
    as (h' & H1 & _ & H2 & H3 & H4 & _); [lia|].
  exists h'. eauto.
Defined.

(** X8.  An operator of lower precedence on a working fragment that has no
    parent makes a new root: adding [,] when the working fragment is joined by
    [;] and parentless returns a new expression, not the receiver; the new
    expression is joined by [,], has no parent and holds the former working
    fragment alone, whose parent it now is; nothing else has changed. *)
Theorem add_operator_lower_precedence_new_root
    (h : heap) n (s : ref) e w :
  h !! s = Some (Exp e) →
  h !! _working_fragment e = Some (Exp w) →
  operator w = Some Op.And →
  parent w = None →
  ∃ h',
    add_element (S (S n)) s (VOperator Op.Or) h = Return (length h, h')
    ∧ length h ≠ s
    ∧ h' !! length h
      = Some (Exp (mkExpression [_working_fragment e] (Some Op.Or) None
                     (length h)))
    ∧ h' !! _working_fragment e
      = Some (Exp (set_parent_field (Some (length h)) w))
    ∧ get_parent (_working_fragment e) h' = Return (length h, h')
    ∧ length h' = S (length h)
    ∧ ∀ r, r < length h → r ≠ _working_fragment e → h' !! r = h !! r.
Proof.
  intros He Hw Ho Hp.
  destruct (add_operator_new_root h n s e w He Hw Ho Hp)
    as (h' & H1 & H2 & H3 & H4 & H5).
  exists h'. split; [exact H1|].
  split; [apply lookup_lt_Some in He; lia|].
  split; [done|]. split; [done|]. split; [|done].
  unfold get_parent, isinstance_Expression. change ref with nat in *.
  rewrite H4. simpl. change ref with nat in *. by rewrite H3.
Qed.

Lemma add_operator_lower_precedence_new_root_witness :
  ∃ h',
    add_element 2 0 (VOperator Op.Or)
      [ Exp (mkExpression [1; 2] (Some Op.And) None 0);
        Con (mkConstraint "a" None None (Some 0));
        Con (mkConstraint "b" None None (Some 0)) ] = Return (3, h')
    ∧ h' !! 3 = Some (Exp (mkExpression [0] (Some Op.Or) None 3))
    ∧ h' !! 0 = Some (Exp (mkExpression [1; 2] (Some Op.And) (Some 3) 0)).
Proof.
  destruct (add_operator_lower_precedence_new_root
              [ Exp (mkExpression [1; 2] (Some Op.And) None 0);
                Con (mkConstraint "a" None None (Some 0));
                Con (mkConstraint "b" None None (Some 0)) ]
              0 0 _ _ eq_refl eq_refl eq_refl eq_refl)
    as (h' & H1 & _ & H2 & H3 & _).
  exists h'. eauto.
Defined.

(** ** The tuples of [iter_parse] *)

Lemma length_chars (s : string) :
  length (list_ascii_of_string s) = String.length s.
Proof. induction s as [|c s IH]; simpl; [done|]. by rewrite IH. Qed.

Lemma text_nonempty c s : text (c :: s) ≠ "".
Proof. done. Qed.

Lemma chars_text (s : list ascii) : list_ascii_of_string (text s) = s.
Proof. apply list_ascii_of_string_of_list_ascii. Qed.

Lemma iter_parse_loop_tuples n :
  ∀ s, (length s ≤ n)%nat →
    (iter_parse_loop n s = [] ↔ s = [])
    ∧ (length (iter_parse_loop n s) ≤ length s)%nat
    ∧ ∀ i t, iter_parse_loop n s !! i = Some t → tselector t = None →
             S i = length (iter_parse_loop n s)
             ∧ tcomparison t = None ∧ targument t = None ∧ preamble t ≠ "".
Proof.
  induction n as [|n IH]; intros s Hn.
  { destruct s; [|simpl in Hn; lia]. simpl. repeat split; try done. }
  destruct s as [|c t0]; [simpl; repeat split; done|].
  cbn [iter_parse_loop].
  destruct (Lex.split (c :: t0)) as [[pre [[sel grp] rest]]|] eqn:E.
  - pose proof (split_shorter _ _ _ _ _ E) as Hlt. simpl in Hlt, Hn.
    destruct (IH rest ltac:(lia)) as (_ & Hlen & Hlast).
    split; [done|]. split; [simpl; lia|].
    intros [|i] t; simpl.
    + by intros [= <-].
    + intros Ht Hsel. destruct (Hlast i t Ht Hsel) as (-> & ? & ? & ?).
      done.
  - split; [done|]. split; [simpl; lia|].
    intros [|i] t; simpl; [|done]. intros [= <-] _. done.
Qed.

(** X9.  [iter_parse] yields nothing for the empty string only, at most one
    tuple per character, and a tuple without a selector only as the last one;
    such a tuple carries a non-empty preamble and neither comparison nor
    argument. *)
Theorem iter_parse_tuples (s : string) :
  (iter_parse s = [] ↔ s = "")
  ∧ (length (iter_parse s) ≤ String.length s)%nat
  ∧ ∀ i t, iter_parse s !! i = Some t → tselector t = None →
           S i = length (iter_parse s)
           ∧ tcomparison t = None ∧ targument t = None ∧ preamble t ≠ "".
Proof.
  unfold iter_parse.
  destruct (iter_parse_loop_tuples (length (list_ascii_of_string s))
              (list_ascii_of_string s) (le_n _)) as (H1 & H2 & H3).
  split; [|split; [by rewrite <- length_chars|exact H3]].
  rewrite H1. destruct s; simpl; split; done.
Qed.

(** ** The first character of the input *)

(** The first tuple of a text whose first character cannot start a
    constraint has a preamble that starts with that character. *)
Lemma iter_parse_first c (s : string) :
  Lex.is_unreserved c = false → c ≠ "%"%char →
  ∃ t ts p, iter_parse (String c s) = t :: ts
            ∧ list_ascii_of_string (preamble t) = c :: p.
Proof.
  intros Hc Hp. unfold iter_parse.
  change (list_ascii_of_string (String c s))
    with (c :: list_ascii_of_string s).
  cbn [length iter_parse_loop]. rewrite split_unfold.
  assert (Lex.match_constraint (c :: list_ascii_of_string s) = None) as ->.
  { unfold Lex.match_constraint. cbn [Lex.run]. rewrite Hc.
    apply Ascii.eqb_neq in Hp. by rewrite Hp. }
  destruct (Lex.split (list_ascii_of_string s))
    as [[pre [[sel grp] rest]]|].
  - eexists _, _, pre. split; [reflexivity|]. exact (chars_text _).
  - eexists _, _, (list_ascii_of_string s). split; [reflexivity|].
    exact (chars_text _).
Qed.

(** X10.  An input whose first character is an operator, or any other
    character that can neither start a constraint nor is a parenthesis, is
    rejected with the operator-before-constraint error whatever follows: the
    check that the working expression holds something comes first. *)
Theorem leading_operator_rejected fuel c (s : string) :
  Lex.is_unreserved c = false →
  c ≠ "%"%char → c ≠ "("%char → c ≠ ")"%char →
  parsed fuel (String c s)
  = Raise (FiqlFormatException OperatorProceedingInitial).
Proof.
  intros Hc Hp Ho Hcl.
  destruct (iter_parse_first c s Hc Hp) as (t & ts & p & Ht & Hpre).
  unfold parsed, parse_str_to_expression, parse. rewrite Ht.
  unfold bind at 1. unfold new_Expression. cbn [length app parse_tokens].
  unfold bind at 1. unfold bind at 1. unfold parse_token, bind at 1.
  rewrite Hpre. cbn [parse_preamble]. unfold bind at 1.
  unfold parse_char. apply Ascii.eqb_neq in Ho, Hcl.
  rewrite Ho, Hcl. reflexivity.
Qed.

Lemma leading_operator_rejected_witness :
  parsed 0 ";a,b"
  = Raise (FiqlFormatException OperatorProceedingInitial).
Proof. by apply (leading_operator_rejected 0 ";"%char "a,b"). Defined.

(** X11.  An input that starts with a closing parenthesis fails in
    [get_parent], with [FiqlObjectException] and not with a format error,
    whatever follows. *)
Theorem leading_close_raises_object_error fuel (s : string) :
  parsed fuel (String ")" s)
  = Raise (FiqlObjectException ParentMustBeExpression).
Proof.
  destruct (iter_parse_first ")"%char s eq_refl ltac:(done))
    as (t & ts & p & Ht & Hpre).
  unfold parsed, parse_str_to_expression, parse. rewrite Ht.
  unfold bind at 1. unfold new_Expression. cbn [length app parse_tokens].
  unfold bind at 1. unfold bind at 1. unfold parse_token, bind at 1.
  rewrite Hpre. reflexivity.
Qed.

(** ** What an accepted input looks like *)

Lemma returns_post {A} (m : M A) (Q : A → heap → Prop) h a h' :
  safe m Q h → m h = Return (a, h') → Q a h'.
Proof. intros H E. unfold safe in H. by rewrite E in H. Qed.

Lemma settled_working_fragment h (r : ref) e :
  cursors_settled h → h !! r = Some (Exp e) →
  ∃ w, h !! _working_fragment e = Some (Exp w).
Proof.
  intros Hset He. destruct (Hset _ _ _ (cursor_Exp _ _ _ He)) as [->|[w' Hw]].
  - eauto.
  - apply cursor_Some in Hw as (w & Hw & _). eauto.
Qed.

Lemma cursor_is_Some h (r : ref) :
  is_Some (cursor h r) ↔ ∃ e, h !! r = Some (Exp e).
Proof.
  unfold cursor. destruct (h !! r) as [[c|e]|].
  - split; [by intros [? ?]|by intros [? ?]].
  - split; eauto.
  - split; [by intros [? ?]|by intros [? ?]].
Qed.

Lemma add_operator_returns_expression n self op h r h' :
  add_operator n self (VOperator op) h = Return (r, h') →
  ∃ e, h' !! r = Some (Exp e).
Proof.
  intros Hrun. pose proof (add_operator_joins n self op h) as Hp.
  unfold post in Hp. rewrite Hrun in Hp.
  destruct Hp as (w & o & w' & Cr & _).
  apply cursor_Some in Cr as (e & He & _). eauto.
Qed.

Lemma parse_char_follows fuel prev l char h l' h' :
  cursors_settled h → is_Some (cursor h (expression l)) →
  follows prev l h →
  parse_char fuel l char h = Return (l', h') →
  clash prev (symbol_of char) = false
  ∧ follows (Some (symbol_of char)) l' h'
  ∧ cursors_settled h'
  ∧ is_Some (cursor h' (expression l'))
  ∧ is_structural char = true.
Proof.
  intros Hset Hexp Hprev Hrun.
  pose proof (returns_post _ _ _ _ _ (parse_char_safe fuel l char h Hset) Hrun)
    as Hset'.
  apply cursor_is_Some in Hexp as (e & He).
  destruct (settled_working_fragment _ _ _ Hset He) as (w & Hw).
  revert Hrun. unfold parse_char, symbol_of, is_structural, Lex.one_of.
  cbn [list_ascii_of_string existsb].
  destruct (Ascii.eqb char "(") eqn:Eo.
  { destruct (isinstance_BaseExpression (last_element l)) eqn:Eb; [done|].
    unfold bind. rewrite (create_nested_expression_eq _ _ _ _ He Hw).
    intros [= <- <-]. pose proof (lookup_lt_Some _ _ _ Hw) as Lw.
    split.
    { destruct prev as [[]|]; simpl in *; congruence. }
    split; [|split; [done|split; [|done]]].
    - simpl. eexists. split; [lk|done].
    - apply cursor_is_Some. simpl. eexists. lk. }
  destruct (Ascii.eqb char ")") eqn:Ec.
  { unfold bind.
    destruct (get_parent (expression l) h) as [[p h1]| |] eqn:Ep; try done.
    intros [= <- <-]. revert Ep. unfold get_parent. rewrite He. simpl.
    destruct (parent e) as [p'|] eqn:Epar; [|done].
    unfold isinstance_Expression.
    destruct (h !! p') as [[cp|ep]|] eqn:Ep'; try done.
    intros [= <- <-]. split.
    { destruct prev as [[]|]; simpl in *; try done.
      destruct Hprev as (e' & He' & _ & Hpar). congruence. }
    split; [done|]. split; [done|]. split; [|done].
    apply cursor_is_Some. simpl. eauto. }
  unfold bind, has_constraint, bind. rewrite (get_Expression_eq _ _ _ He).
  simpl.
  destruct (Nat.eqb (length (elements e)) 0) eqn:En; [done|].
  destruct (isinstance_Operator (last_element l)) eqn:Eop; [done|].
  unfold lift.
  destruct (Op.init (String char "")) as [op| |] eqn:Ei; try done.
  destruct (add_operator fuel (expression l) (VOperator op) h)
    as [[r h1]| |] eqn:Ea; try done.
  intros [= <- <-]. split.
  { destruct prev as [[]|]; simpl in *; try congruence.
    - destruct Hprev as (e' & He' & Hnil). assert (e' = e) as -> by congruence.
      by rewrite Hnil in En.
    - destruct Hprev as (e' & He' & Hnil & _).
      assert (e' = e) as -> by congruence. by rewrite Hnil in En. }
  split; [done|]. split; [done|]. split.
  - apply cursor_is_Some. simpl. by eapply add_operator_returns_expression.
  - revert Ei. unfold Op.init. simpl.
    destruct (Ascii.eqb char ";") eqn:E1; [done|].
    destruct (Ascii.eqb char ",") eqn:E2; done.
Qed.

Lemma parse_selector_cursors l t h :
  safe (parse_selector l t)
    (fun l' h' => same_cursors h h' ∧ expression l' = expression l) h.
Proof.
  unfold parse_selector.
  destruct (tselector t) as [sel|]; [|apply safe_ret; split; [apply same_cursors_refl|done]].
  destruct (String.eqb sel "");
    [apply safe_ret; split; [apply same_cursors_refl|done]|].
  destruct (isinstance_BaseExpression (last_element l)); [done|].
  apply safe_bind. eapply safe_mono; [apply safe_new_Constraint|].
  intros c h1 H1.
  apply safe_bind. eapply safe_mono; [apply safe_add_base_expression|].
  intros r2 h2 H2. simpl in H1, H2. apply safe_ret.
  split; [|done]. eapply same_cursors_trans; eauto.
Qed.

Lemma parse_preamble_follows fuel chars :
  ∀ prev l h l' h',
    cursors_settled h → is_Some (cursor h (expression l)) →
    follows prev l h →
    parse_preamble fuel l chars h = Return (l', h') →
    ∃ prev',
      (∀ rest, sequenced prev (map symbol_of chars ++ rest) = true
               ↔ sequenced prev' rest = true)
      ∧ follows prev' l' h'
      ∧ cursors_settled h'
      ∧ is_Some (cursor h' (expression l'))
      ∧ forallb is_structural chars = true.
Proof.
  induction chars as [|c chars IH]; intros prev l h l' h' Hset Hexp Hprev.
  - simpl. intros [= <- <-]. exists prev. done.
  - cbn [parse_preamble]. unfold bind at 1.
    destruct (parse_char fuel l c h) as [[l1 h1]| |] eqn:Ec; try done.
    intros Hrun.
    destruct (parse_char_follows _ _ _ _ _ _ _ Hset Hexp Hprev Ec)
      as (Hclash & Hf1 & Hset1 & Hexp1 & Hc).
    destruct (IH _ _ _ _ _ Hset1 Hexp1 Hf1 Hrun)
      as (prev' & Hseq & Hf2 & Hset2 & Hexp2 & Hcs).
    exists prev'. split; [|by rewrite <- (andb_true_intro (conj Hc Hcs))].
    intros rest. cbn [map app sequenced]. rewrite Hclash. simpl.
    apply Hseq.
Qed.

Lemma parse_selector_follows prev l t h l' h' :
  cursors_settled h → is_Some (cursor h (expression l)) →
  follows prev l h →
  parse_selector l t h = Return (l', h') →
  ∃ prev',
    (∀ rest,
       sequenced prev
         (match tselector t with
          | Some sel => if String.eqb sel "" then [] else [SConstraint]
          | None => []
          end ++ rest) = true
       ↔ sequenced prev' rest = true)
    ∧ follows prev' l' h'
    ∧ cursors_settled h'
    ∧ is_Some (cursor h' (expression l')).
Proof.
  intros Hset Hexp Hprev Hrun.
  pose proof (returns_post _ _ _ _ _ (parse_selector_safe l t h Hset) Hrun)
    as Hset'.
  destruct (returns_post _ _ _ _ _ (parse_selector_cursors l t h) Hrun)
    as [[_ Hsame] Hsame_e].
  assert (is_Some (cursor h' (expression l'))) as Hexp'.
  { by rewrite Hsame_e, Hsame. }
  revert Hrun. unfold parse_selector.
  destruct (tselector t) as [sel|].
  2:{ intros [= <- <-]. by exists prev. }
  destruct (String.eqb sel "").
  { intros [= <- <-]. by exists prev. }
  destruct (isinstance_BaseExpression (last_element l)) eqn:Eb; [done|].
  unfold bind.
  destruct (new_Constraint _ _ _ h) as [[c h1]| |]; try done.
  destruct (add_base_expression _ _ h1) as [[r2 h2]| |]; try done.
  intros [= <- <-]. exists (Some SConstraint).
  split; [|done]. intros rest. cbn [app sequenced].
  assert (clash prev SConstraint = false) as ->; [|done].
  destruct prev as [[]|]; simpl in *; congruence.
Qed.

Lemma parse_tokens_follows fuel ts :
  ∀ prev l h l' h',
    cursors_settled h → is_Some (cursor h (expression l)) →
    follows prev l h →
    parse_tokens fuel l ts h = Return (l', h') →
    sequenced prev (symbols ts) = true
    ∧ forallb is_structural (preamble_chars ts) = true.
Proof.
  induction ts as [|t ts IH]; intros prev l h l' h' Hset Hexp Hprev;
    [done|].
  cbn [parse_tokens]. unfold bind at 1, parse_token, bind at 1.
  destruct (parse_preamble fuel l _ h) as [[l1 h1]| |] eqn:Ep; try done.
  destruct (parse_selector l1 t h1) as [[l2 h2]| |] eqn:Es; try done.
  intros Hrun.
  destruct (parse_preamble_follows _ _ _ _ _ _ _ Hset Hexp Hprev Ep)
    as (p1 & Hs1 & Hf1 & Hset1 & Hexp1 & Hc).
  destruct (parse_selector_follows _ _ _ _ _ _ Hset1 Hexp1 Hf1 Es)
    as (p2 & Hs2 & Hf2 & Hset2 & Hexp2).
  destruct (IH _ _ _ _ _ Hset2 Hexp2 Hf2 Hrun) as (Hseq & Hcs).
  split.
  - unfold symbols. cbn [map List.concat]. unfold symbols_of.
    rewrite <- app_assoc. apply Hs1, Hs2. exact Hseq.
  - unfold preamble_chars. cbn [map List.concat].
    rewrite forallb_app. by rewrite Hc.
Qed.

(** X12.  Whatever the parser accepts is well sequenced: it does not start
    with an operator or a closing parenthesis; no operator follows an operator
    or an opening parenthesis; no opening parenthesis and no constraint
    follows a closing parenthesis or a constraint; and its preambles hold
    nothing but parentheses and the two operators. *)
Theorem accepted_is_sequenced fuel ts r h :
  parse fuel ts [] = Return (r, h) →
  sequenced None (symbols ts) = true
  ∧ forallb is_structural (preamble_chars ts) = true.
Proof.
  unfold parse, bind at 1, new_Expression. cbn [length app].
  unfold bind at 1.
  destruct (parse_tokens fuel _ ts _) as [[l h1]| |] eqn:Et; [|done..].
  intros _. eapply parse_tokens_follows; [| | |exact Et].
  - intros r0 w o. unfold cursor. destruct r0 as [|[|]]; simpl; try done.
    intros [= <- <-]. by left.
  - simpl. by eexists.
  - simpl. eexists. split; [reflexivity|done].
Qed.

Lemma accepted_is_sequenced_witness :
  parse 2 (iter_parse "a,(b;c)") [] = Return
    (0, [ Exp (mkExpression [1; 2] (Some Op.Or) None 0);
          Con (mkConstraint "a" None None (Some 0));
          Exp (mkExpression [3; 4] (Some Op.And) (Some 0) 2);
          Con (mkConstraint "b" None None (Some 2));
          Con (mkConstraint "c" None None (Some 2)) ])
  ∧ sequenced None (symbols (iter_parse "a,(b;c)")) = true.
Proof.
  split; [reflexivity|].
  eapply (accepted_is_sequenced 2 (iter_parse "a,(b;c)")). reflexivity.
Defined.

(** ** Parentheses of an accepted input *)

Lemma level_change_cons c chars :
  level_change (c :: chars)
  = ((if Ascii.eqb c "(" then 1 else if Ascii.eqb c ")" then -1 else 0)
     + level_change chars)%Z.
Proof.
  unfold level_change, count_char. rewrite !filter_cons.
  destruct (Ascii.eqb_spec c "(") as [->|H1].
  { rewrite decide_True by done. rewrite decide_False by done. simpl. lia. }
  rewrite (decide_False (P := c = "("%char)) by done.
  destruct (Ascii.eqb_spec c ")") as [->|H2].
  { rewrite decide_True by done. simpl. lia. }
  rewrite decide_False by done. lia.
Qed.

Lemma level_change_app a b :
  level_change (a ++ b) = (level_change a + level_change b)%Z.
Proof.
  induction a as [|c a IH].
  { simpl app. change (level_change []) with 0%Z. lia. }
  rewrite <- app_comm_cons, !level_change_cons, IH. lia.
Qed.

Lemma parse_char_level fuel l c h l' h' :
  parse_char fuel l c h = Return (l', h') →
  nesting_lvl l' = (nesting_lvl l + level_change [c])%Z.
Proof.
  rewrite level_change_cons. unfold parse_char, bind.
  change (level_change []) with 0%Z.
  destruct (Ascii.eqb c "(").
  { destruct (isinstance_BaseExpression _); [done|].
    destruct (create_nested_expression _ _) as [[]| |]; try done.
    intros [= <- <-]. simpl. lia. }
  destruct (Ascii.eqb c ")").
  { destruct (get_parent _ _) as [[]| |]; try done.
    intros [= <- <-]. simpl. lia. }
  destruct (has_constraint _ _) as [[n h0]| |]; try done.
  destruct (Nat.eqb n 0); [done|].
  destruct (isinstance_Operator _); [done|].
  destruct (lift _ _) as [[op h1]| |]; try done.
  destruct (add_operator _ _ _ _) as [[]| |]; try done.
  intros [= <- <-]. simpl. lia.
Qed.

Lemma parse_preamble_level fuel chars :
  ∀ l h l' h',
    parse_preamble fuel l chars h = Return (l', h') →
    nesting_lvl l' = (nesting_lvl l + level_change chars)%Z.
Proof.
  induction chars as [|c chars IH]; intros l h l' h'.
  - simpl. intros [= <- <-]. change (level_change []) with 0%Z. lia.
  - cbn [parse_preamble]. unfold bind at 1.
    destruct (parse_char fuel l c h) as [[l1 h1]| |] eqn:Ec; try done.
    intros Hrun. apply IH in Hrun. apply parse_char_level in Ec.
    rewrite level_change_cons. rewrite level_change_cons in Ec.
    change (level_change []) with 0%Z in Ec. lia.
Qed.

Lemma parse_selector_level l t h l' h' :
  parse_selector l t h = Return (l', h') → nesting_lvl l' = nesting_lvl l.
Proof.
  unfold parse_selector, bind.
  destruct (tselector t); [|by intros [= <- <-]].
  destruct (String.eqb _ _); [by intros [= <- <-]|].
  destruct (isinstance_BaseExpression _); [done|].
  destruct (new_Constraint _ _ _ _) as [[]| |]; try done.
  destruct (add_base_expression _ _ _) as [[]| |]; try done.
  by intros [= <- <-].
Qed.

Lemma parse_tokens_level fuel ts :
  ∀ l h l' h',
    parse_tokens fuel l ts h = Return (l', h') →
    nesting_lvl l' = (nesting_lvl l + level_change (preamble_chars ts))%Z.
Proof.
  induction ts as [|t ts IH]; intros l h l' h'.
  - simpl. intros [= <- <-].
    change (level_change (preamble_chars [])) with 0%Z. lia.
  - cbn [parse_tokens]. unfold bind at 1, parse_token, bind at 1.
    destruct (parse_preamble fuel l _ h) as [[l1 h1]| |] eqn:Ep; try done.
    destruct (parse_selector l1 t h1) as [[l2 h2]| |] eqn:Es; try done.
    intros Hrun. apply IH in Hrun. apply parse_preamble_level in Ep.
    apply parse_selector_level in Es.
    unfold preamble_chars in *. cbn [map List.concat].
    rewrite level_change_app. lia.
Qed.

(** X13.  Whatever the parser accepts has as many opening as closing
    parentheses in its preambles, and the expression that is returned holds at
    least one element. *)
Theorem accepted_is_balanced fuel ts r h :
  parse fuel ts [] = Return (r, h) →
  count_char "(" (preamble_chars ts) = count_char ")" (preamble_chars ts)
  ∧ ∃ e, h !! r = Some (Exp e) ∧ elements e ≠ [].
Proof.
  unfold parse, bind at 1, new_Expression. cbn [length app].
  unfold bind at 1.
  destruct (parse_tokens fuel _ ts _) as [[l h1]| |] eqn:Et; [|done..].
  apply parse_tokens_level in Et. simpl in Et.
  unfold parse_finish.
  destruct (Z.eqb_spec (nesting_lvl l) 0) as [Hz|]; [|done]. simpl.
  unfold bind, has_constraint, bind, get_Expression.
  destruct (h1 !! expression l) as [[c|e]|] eqn:He; try done. simpl.
  destruct (elements e) as [|x xs] eqn:Ee; [done|]. simpl.
  intros [= <- <-]. split.
  - unfold level_change in Et. lia.
  - exists e. by rewrite Ee.
Qed.

Lemma accepted_is_balanced_witness :
  parse 2 (iter_parse "a,(b;c)") [] = Return
    (0, [ Exp (mkExpression [1; 2] (Some Op.Or) None 0);
          Con (mkConstraint "a" None None (Some 0));
          Exp (mkExpression [3; 4] (Some Op.And) (Some 0) 2);
          Con (mkConstraint "b" None None (Some 2));
          Con (mkConstraint "c" None None (Some 2)) ])
  ∧ count_char "(" (preamble_chars (iter_parse "a,(b;c)")) = 1.
Proof.
  split; [reflexivity|].
  destruct (accepted_is_balanced 2 (iter_parse "a,(b;c)") _ _ eq_refl)
    as [H _].
  rewrite H. reflexivity.
Defined.

(** ** The parser builds a tree and raises only its own errors *)

Lemma ranked_new_child (h h' : heap) (W : ref) w w' o' :
  ranked h → elements_inside h →
  h !! W = Some (Exp w) →
  length h' = S (length h) →
  h' !! W = Some (Exp w') →
  elements w' = elements w ++ [length h] →
  h' !! length h = Some o' →
  (∀ e', o' = Exp e' → elements e' = []) →
  (∀ r : ref, r < length h → r ≠ W → h' !! r = h !! r) →
  ranked h'.
Proof.
  intros (rank & Hb & Hd) Hin HW L HW' Hel HN HNe Hfr.
  change ref with nat in *.
  pose proof (lookup_lt_Some _ _ _ HW) as LW.
  exists (fun x => if decide (x = length h) then 0 else S (rank x)).
  split.
  - intros x. rewrite L. destruct (decide _); [lia|]. specialize (Hb x). lia.
  - intros n e x Hn Hx. change ref with nat in *. pose proof (lookup_lt_Some _ _ _ Hn) as Ln.
    destruct (decide (n = W)) as [->|HnW].
    + assert (e = w') as -> by congruence. rewrite Hel in Hx.
      destruct (decide (W = length h)); [lia|].
      apply elem_of_app in Hx as [Hx|Hx%list_elem_of_singleton].
      * pose proof (Hin _ _ _ HW Hx). pose proof (Hd _ _ _ HW Hx).
        destruct (decide (x = length h)); lia.
      * subst x. destruct (decide (length h = length h)); [lia|done].
    + destruct (decide (n = length h)) as [->|HnN].
      * assert (o' = Exp e) as Ho by congruence.
        rewrite (HNe _ Ho) in Hx. by apply elem_of_nil in Hx.
      * rewrite Hfr in Hn by lia.
        pose proof (Hin _ _ _ Hn Hx). pose proof (Hd _ _ _ Hn Hx).
        destruct (decide (x = length h)); lia.
Qed.

Lemma ranked_update (h h' : heap) (W : ref) w w' :
  ranked h →
  h !! W = Some (Exp w) →
  h' !! W = Some (Exp w') →
  elements w' = elements w →
  (∀ r : ref, r ≠ W → h' !! r = h !! r) →
  ranked h'.
Proof.
  intros (rank & Hb & Hd) HW HW' Hel Hfr.
  change ref with nat in *.
  pose proof (lookup_lt_Some _ _ _ HW) as LW.
  pose proof (lookup_lt_Some _ _ _ HW') as LW'.
  assert (length h' = length h) as L.
  { assert (h' !! length h = None) as H1.
    { rewrite Hfr by lia. by apply lookup_ge_None. }
    assert (h !! length h' = None) as H2.
    { rewrite <- Hfr by lia. by apply lookup_ge_None. }
    apply lookup_ge_None in H1, H2. lia. }
  exists rank. split; [by rewrite L|].
  intros n e x Hn Hx. change ref with nat in *.
  destruct (decide (n = W)) as [->|HnW].
  - assert (e = w') as -> by congruence. rewrite Hel in Hx. by eapply Hd.
  - rewrite Hfr in Hn by done. by eapply Hd.
Qed.

Lemma ranked_new_root (h h' : heap) (W : ref) w w' e' :
  ranked h → elements_inside h →
  h !! W = Some (Exp w) →
  length h' = S (length h) →
  h' !! length h = Some (Exp e') →
  elements e' = [W] →
  h' !! W = Some (Exp w') →
  elements w' = elements w →
  (∀ r : ref, r < length h → r ≠ W → h' !! r = h !! r) →
  ranked h'.
Proof.
  intros (rank & Hb & Hd) Hin HW L HN HNel HW' Hel Hfr.
  change ref with nat in *.
  pose proof (lookup_lt_Some _ _ _ HW) as LW.
  exists (fun x => if decide (x = length h) then S (length h) else rank x).
  split.
  - intros x. rewrite L. destruct (decide _); [lia|]. specialize (Hb x). lia.
  - intros n e x Hn Hx. change ref with nat in *. pose proof (lookup_lt_Some _ _ _ Hn) as Ln.
    destruct (decide (n = length h)) as [->|HnN].
    + assert (e = e') as -> by congruence. rewrite HNel in Hx.
      apply list_elem_of_singleton in Hx as ->.
      destruct (decide (W = length h)); [lia|]. specialize (Hb W). lia.
    + assert (∃ e0, h !! n = Some (Exp e0) ∧ elements e0 = elements e)
        as (e0 & Hn0 & He0).
      { destruct (decide (n = W)) as [->|HnW].
        - exists w. split; [done|]. congruence.
        - exists e. split; [|done]. rewrite <- Hfr by lia. done. }
      rewrite <- He0 in Hx.
      pose proof (Hin _ _ _ Hn0 Hx). pose proof (Hd _ _ _ Hn0 Hx).
      destruct (decide (x = length h)); lia.
Qed.

Lemma ranked_interpose (h h' : heap) (X : ref) eX ids (last_ : ref) ox
    eX' eS :
  ranked h → elements_inside h →
  h !! X = Some (Exp eX) →
  elements eX = ids ++ [last_] →
  h !! last_ = Some ox →
  length h' = S (length h) →
  h' !! X = Some (Exp eX') →
  elements eX' = ids ++ [length h] →
  h' !! length h = Some (Exp eS) →
  elements eS = [last_] →
  h' !! last_ = Some (with_parent (length h) ox) →
  (∀ r : ref, r < length h → r ≠ X → r ≠ last_ → h' !! r = h !! r) →
  ranked h'.
Proof.
  intros (rank & Hb & Hd) Hin HX HelX Hl L HX' HelX' HS HelS Hl' Hfr.
  change ref with nat in *.
  pose proof (lookup_lt_Some _ _ _ HX) as LX.
  pose proof (lookup_lt_Some _ _ _ Hl) as Ll.
  assert (rank last_ < rank X) as Hlast.
  { apply (Hd _ _ _ HX). rewrite HelX. apply elem_of_app. right. by left. }
  assert (last_ ≠ X) as HlX by (intros E; rewrite E in Hlast; lia).
  exists (fun x => if decide (x = length h) then S (rank last_)
                   else if decide (rank last_ < rank x) then S (rank x)
                        else rank x).
  split.
  - intros x. rewrite L. pose proof (Hb x). pose proof (Hb last_).
    repeat destruct (decide _); lia.
  - intros n e x Hn Hx. change ref with nat in *. pose proof (lookup_lt_Some _ _ _ Hn) as Ln.
    destruct (decide (n = length h)) as [->|HnN].
    { assert (e = eS) as -> by congruence. rewrite HelS in Hx.
      apply list_elem_of_singleton in Hx as ->.
      repeat destruct (decide _); lia. }
    destruct (decide (n = X)) as [->|HnX].
    { assert (e = eX') as -> by congruence. rewrite HelX' in Hx.
      apply elem_of_app in Hx as [Hx|Hx%list_elem_of_singleton].
      - assert (x ∈ elements eX) as Hx'.
        { rewrite HelX. apply elem_of_app. by left. }
        pose proof (Hin _ _ _ HX Hx'). pose proof (Hd _ _ _ HX Hx').
        repeat destruct (decide _); lia.
      - subst x. repeat destruct (decide _); lia. }
    assert (∃ e0, h !! n = Some (Exp e0) ∧ elements e0 = elements e)
      as (e0 & Hn0 & He0).
    { destruct (decide (n = last_)) as [->|Hnl].
      - rewrite Hl' in Hn. destruct ox as [c|e0]; [done|].
        exists e0. split; [done|]. by injection Hn as <-.
      - exists e. split; [|done]. rewrite <- Hfr by lia. done. }
    rewrite <- He0 in Hx.
    pose proof (Hin _ _ _ Hn0 Hx). pose proof (Hd _ _ _ Hn0 Hx).
    repeat destruct (decide _); lia.
Qed.

Lemma tree_elements_inside h : tree_links h → elements_inside h.
Proof.
  intros Ht n e x Hn Hx.
  destruct (child_parent _ Ht _ _ _ Hn Hx) as (o & Ho & _).
  by eapply lookup_lt_Some.
Qed.

Lemma tree_links_new_child (h h' : heap) (W : ref) w w' o' :
  tree_links h →
  h !! W = Some (Exp w) →
  length h' = S (length h) →
  h' !! W = Some (Exp w') →
  elements w' = elements w ++ [length h] →
  parent w' = parent w →
  h' !! length h = Some o' →
  parent_of o' = Some W →
  (∀ e', o' = Exp e' → elements e' = []) →
  (∀ r : ref, r < length h → r ≠ W → h' !! r = h !! r) →
  tree_links h'.
Proof.
  intros Ht HW L HW' Hel Hpar HN HNp HNe Hfr.
  pose proof (tree_elements_inside _ Ht) as Hinside.
  destruct Ht as [T1 T2 T3 T4 T5].
  change ref with nat in *.
  pose proof (lookup_lt_Some _ _ _ HW) as LW.
  assert (∀ (r : nat) o, h' !! r = Some o →
            r = W ∨ r = length h ∨ (r ≠ W ∧ r < length h ∧ h !! r = Some o))
    as Hcase.
  { intros r o Hr. pose proof (lookup_lt_Some _ _ _ Hr) as Lr.
    destruct (decide (r = W)) as [->|]; [by left|].
    destruct (decide (r = length h)) as [->|]; [by right; left|].
    right; right. split; [done|]. split; [lia|]. rewrite <- Hfr by lia. done. }
  assert (∀ (x : nat) o (n : nat), h !! x = Some o → parent_of o = Some n →
            ∃ o2, h' !! x = Some o2 ∧ parent_of o2 = Some n) as Hkeep.
  { intros x o n Hx Hp. pose proof (lookup_lt_Some _ _ _ Hx) as Lx.
    destruct (decide (x = W)) as [->|Hne].
    - exists (Exp w'). split; [done|]. simpl. rewrite Hpar.
      assert (o = Exp w) as -> by congruence. done.
    - exists o. by rewrite Hfr. }
  split; change ref with nat.
  - intros n e x Hn Hx.
    destruct (Hcase _ _ Hn) as [->|[->|(Hne & Ln & Hn0)]].
    + assert (e = w') as -> by congruence. rewrite Hel in Hx.
      apply elem_of_app in Hx as [Hx|Hx].
      * destruct (T1 _ _ _ HW Hx) as (o & Ho & Hp). eauto.
      * apply list_elem_of_singleton in Hx as ->. eauto.
    + assert (o' = Exp e) as Heq by congruence.
      rewrite (HNe _ Heq) in Hx. by inversion Hx.
    + destruct (T1 _ _ _ Hn0 Hx) as (o & Ho & Hp). eauto.
  - intros x o p Hx Hp.
    destruct (Hcase _ _ Hx) as [->|[->|(Hne & Lx & Hx0)]].
    + assert (o = Exp w') as -> by congruence. simpl in Hp.
      rewrite Hpar in Hp.
      destruct (T2 _ _ _ HW Hp) as (e & He & Hin).
      destruct (decide (p = W)) as [->|Hnp].
      * exists w'. split; [done|]. rewrite Hel. apply elem_of_app. left.
        assert (e = w) as -> by congruence. done.
      * exists e. split; [|done]. rewrite Hfr; [done| |done].
        by eapply lookup_lt_Some.
    + assert (o = o') as -> by congruence.
      assert (p = W) as -> by congruence.
      exists w'. split; [done|]. rewrite Hel. apply elem_of_app. right.
      by apply list_elem_of_singleton.
    + destruct (T2 _ _ _ Hx0 Hp) as (e & He & Hin).
      destruct (decide (p = W)) as [->|Hnp].
      * exists w'. split; [done|]. rewrite Hel. apply elem_of_app. left.
        assert (e = w) as -> by congruence. done.
      * exists e. split; [|done]. rewrite Hfr; [done| |done].
        by eapply lookup_lt_Some.
  - intros n e Hn.
    destruct (Hcase _ _ Hn) as [->|[->|(Hne & Ln & Hn0)]].
    + assert (e = w') as -> by congruence. rewrite Hel.
      apply NoDup_app. split; [by eapply T3|]. split; [|apply NoDup_singleton].
      intros x Hx Hx'. apply list_elem_of_singleton in Hx' as ->.
      destruct (T1 _ _ _ HW Hx) as (o & Ho & _).
      apply lookup_lt_Some in Ho. lia.
    + assert (o' = Exp e) as Heq by congruence.
      rewrite (HNe _ Heq). constructor.
    + by eapply T3.
  - intros x o Hx.
    destruct (Hcase _ _ Hx) as [->|[->|(Hne & Lx & Hx0)]].
    + assert (o = Exp w') as -> by congruence. simpl. rewrite Hpar.
      apply (T4 _ _ HW).
    + assert (o = o') as -> by congruence. rewrite HNp. intros [= ->]. lia.
    + by eapply T4.
  - by eapply (ranked_new_child h h' W w w' o').
Qed.

Lemma tree_links_update (h h' : heap) (W : ref) w w' :
  tree_links h →
  h !! W = Some (Exp w) →
  h' !! W = Some (Exp w') →
  elements w' = elements w →
  parent w' = parent w →
  (∀ r : ref, r ≠ W → h' !! r = h !! r) →
  tree_links h'.
Proof.
  intros Ht HW HW' Hel Hpar Hfr.
  pose proof (tree_elements_inside _ Ht) as Hinside.
  destruct Ht as [T1 T2 T3 T4 T5].
  change ref with nat in *.
  assert (∀ (x : nat) o (n : nat), h !! x = Some o → parent_of o = Some n →
            ∃ o2, h' !! x = Some o2 ∧ parent_of o2 = Some n) as Hkeep.
  { intros x o n Hx Hp. destruct (decide (x = W)) as [->|Hne].
    - exists (Exp w'). split; [done|]. simpl. rewrite Hpar.
      assert (o = Exp w) as -> by congruence. done.
    - exists o. by rewrite Hfr. }
  assert (∀ (n : nat) e, h !! n = Some (Exp e) →
            ∃ e2, h' !! n = Some (Exp e2) ∧ elements e2 = elements e) as Hkeep2.
  { intros n e Hn. destruct (decide (n = W)) as [->|Hne].
    - exists w'. split; [done|]. rewrite Hel. congruence.
    - exists e. by rewrite Hfr. }
  assert (∀ (r : nat) o, h' !! r = Some o →
            ∃ o0, h !! r = Some o0 ∧ parent_of o0 = parent_of o
                  ∧ (∀ e, o = Exp e → ∃ e0, o0 = Exp e0
                                            ∧ elements e0 = elements e))
    as Hback.
  { intros r o Hr. destruct (decide (r = W)) as [->|Hne].
    - exists (Exp w). split; [done|].
      assert (o = Exp w') as -> by congruence. simpl. split; [done|].
      intros e [= <-]. eauto.
    - exists o. rewrite <- Hfr by done. split; [done|]. split; [done|].
      intros e ->. eauto. }
  split; change ref with nat.
  - intros n e x Hn Hx.
    destruct (Hback _ _ Hn) as (o0 & Hn0 & _ & He0).
    destruct (He0 _ eq_refl) as (e0 & -> & Hel0). rewrite <- Hel0 in Hx.
    destruct (T1 _ _ _ Hn0 Hx) as (o & Ho & Hp). eauto.
  - intros x o p Hx Hp.
    destruct (Hback _ _ Hx) as (o0 & Hx0 & Hp0 & _). rewrite <- Hp0 in Hp.
    destruct (T2 _ _ _ Hx0 Hp) as (e & He & Hin).
    destruct (Hkeep2 _ _ He) as (e2 & He2 & Hel2).
    exists e2. by rewrite Hel2.
  - intros n e Hn.
    destruct (Hback _ _ Hn) as (o0 & Hn0 & _ & He0).
    destruct (He0 _ eq_refl) as (e0 & -> & Hel0). rewrite <- Hel0.
    by eapply T3.
  - intros x o Hx.
    destruct (Hback _ _ Hx) as (o0 & Hx0 & Hp0 & _). rewrite <- Hp0.
    by eapply T4.
  - by eapply (ranked_update h h' W w w').
Qed.

Lemma tree_links_new_root (h h' : heap) (W : ref) w w' e' :
  tree_links h →
  h !! W = Some (Exp w) →
  parent w = None →
  length h' = S (length h) →
  h' !! length h = Some (Exp e') →
  elements e' = [W] →
  parent e' = None →
  h' !! W = Some (Exp w') →
  elements w' = elements w →
  parent w' = Some (length h) →
  (∀ r : ref, r < length h → r ≠ W → h' !! r = h !! r) →
  tree_links h'.
Proof.
  intros Ht HW Hnone L HN HNel HNpar HW' Hel Hpar Hfr.
  pose proof (tree_elements_inside _ Ht) as Hinside.
  destruct Ht as [T1 T2 T3 T4 T5].
  change ref with nat in *.
  pose proof (lookup_lt_Some _ _ _ HW) as LW.
  assert (∀ (r : nat) o, h' !! r = Some o →
            r = W ∨ r = length h ∨ (r ≠ W ∧ r < length h ∧ h !! r = Some o))
    as Hcase.
  { intros r o Hr. pose proof (lookup_lt_Some _ _ _ Hr) as Lr.
    destruct (decide (r = W)) as [->|]; [by left|].
    destruct (decide (r = length h)) as [->|]; [by right; left|].
    right; right. split; [done|]. split; [lia|]. rewrite <- Hfr by lia. done. }
  assert (∀ (n : nat) e, h !! n = Some (Exp e) →
            ∃ e2, h' !! n = Some (Exp e2) ∧ elements e2 = elements e) as Hkeep2.
  { intros n e Hn. pose proof (lookup_lt_Some _ _ _ Hn) as Ln.
    destruct (decide (n = W)) as [->|Hne].
    - exists w'. split; [done|]. rewrite Hel. congruence.
    - exists e. by rewrite Hfr. }
  assert (∀ (x : nat) e, h !! W = Some (Exp e) → x ∈ elements e → x ≠ W)
    as HnotW.
  { intros x e He Hx ->. destruct (T1 _ _ _ He Hx) as (o & Ho & Hp).
    by eapply T4. }
  assert (∀ (n : nat) e, h !! n = Some (Exp e) → W ∉ elements e) as HWfree.
  { intros n e Hn Hin. destruct (T1 _ _ _ Hn Hin) as (o & Ho & Hp).
    assert (o = Exp w) as -> by congruence. simpl in Hp. congruence. }
  split; change ref with nat.
  - intros n e x Hn Hx.
    destruct (Hcase _ _ Hn) as [->|[->|(Hne & Ln & Hn0)]].
    + assert (e = w') as -> by congruence. rewrite Hel in Hx.
      destruct (T1 _ _ _ HW Hx) as (o & Ho & Hp).
      exists o. split; [|done]. rewrite Hfr; [done| |].
      * by eapply lookup_lt_Some.
      * by eapply HnotW.
    + assert (e = e') as -> by congruence. rewrite HNel in Hx.
      apply list_elem_of_singleton in Hx as ->. exists (Exp w').
      by rewrite <- Hpar.
    + destruct (T1 _ _ _ Hn0 Hx) as (o & Ho & Hp).
      exists o. split; [|done]. rewrite Hfr; [done| |].
      * by eapply lookup_lt_Some.
      * intros ->. by eapply HWfree.
  - intros x o p Hx Hp.
    destruct (Hcase _ _ Hx) as [->|[->|(Hne & Lx & Hx0)]].
    + assert (o = Exp w') as -> by congruence. simpl in Hp.
      rewrite Hpar in Hp. injection Hp as <-.
      exists e'. split; [done|]. rewrite HNel. by left.
    + assert (o = Exp e') as -> by congruence. simpl in Hp. congruence.
    + destruct (T2 _ _ _ Hx0 Hp) as (e & He & Hin).
      destruct (Hkeep2 _ _ He) as (e2 & He2 & Hel2).
      exists e2. by rewrite Hel2.
  - intros n e Hn.
    destruct (Hcase _ _ Hn) as [->|[->|(Hne & Ln & Hn0)]].
    + assert (e = w') as -> by congruence. rewrite Hel. by eapply T3.
    + assert (e = e') as -> by congruence. rewrite HNel.
      apply NoDup_singleton.
    + by eapply T3.
  - intros x o Hx.
    destruct (Hcase _ _ Hx) as [->|[->|(Hne & Lx & Hx0)]].
    + assert (o = Exp w') as -> by congruence. simpl. rewrite Hpar.
      intros [= E]. lia.
    + assert (o = Exp e') as -> by congruence. simpl. by rewrite HNpar.
    + by eapply T4.
  - by eapply (ranked_new_root h h' W w w' e').
Qed.

Lemma tree_links_interpose (h h' : heap) (X : ref) eX ids (last_ : ref) ox
    eX' eS :
  tree_links h →
  h !! X = Some (Exp eX) →
  elements eX = ids ++ [last_] →
  h !! last_ = Some ox →
  length h' = S (length h) →
  h' !! X = Some (Exp eX') →
  elements eX' = ids ++ [length h] →
  parent eX' = parent eX →
  h' !! length h = Some (Exp eS) →
  elements eS = [last_] →
  parent eS = Some X →
  h' !! last_ = Some (with_parent (length h) ox) →
  (∀ r : ref, r < length h → r ≠ X → r ≠ last_ → h' !! r = h !! r) →
  tree_links h'.
Proof.
  intros Ht HX HelX Hl L HX' HelX' HparX HS HelS HparS Hl' Hfr.
  pose proof (tree_elements_inside _ Ht) as Hinside.
  destruct Ht as [T1 T2 T3 T4 T5].
  change ref with nat in *.
  pose proof (lookup_lt_Some _ _ _ HX) as LX.
  pose proof (lookup_lt_Some _ _ _ Hl) as Ll.
  assert (last_ ∈ elements eX) as Hlin.
  { rewrite HelX. apply elem_of_app. right. by left. }
  assert (parent_of ox = Some X) as Hlp.
  { destruct (T1 _ _ _ HX Hlin) as (o & Ho & Hp). congruence. }
  assert (last_ ≠ X) as HlX.
  { intros ->. by eapply T4. }
  assert (last_ ∉ ids) as Hlids.
  { pose proof (T3 _ _ HX) as Hnd. rewrite HelX in Hnd.
    apply NoDup_app in Hnd as (_ & Hd & _). intros Hin.
    eapply Hd; [exact Hin|by left]. }
  assert (∀ (r : nat) o, h' !! r = Some o →
            r = X ∨ r = length h ∨ r = last_
            ∨ (r ≠ X ∧ r ≠ last_ ∧ r < length h ∧ h !! r = Some o))
    as Hcase.
  { intros r o Hr. pose proof (lookup_lt_Some _ _ _ Hr) as Lr.
    destruct (decide (r = X)) as [->|]; [by left|].
    destruct (decide (r = length h)) as [->|]; [by right; left|].
    destruct (decide (r = last_)) as [->|]; [by right; right; left|].
    right; right; right. split; [done|]. split; [done|]. split; [lia|].
    rewrite <- Hfr by lia. done. }
  (* an object other than [last_] keeps its parent *)
  assert (∀ (x : nat) o (n : nat), h !! x = Some o → parent_of o = Some n →
            x ≠ last_ →
            ∃ o2, h' !! x = Some o2 ∧ parent_of o2 = Some n) as Hkeep.
  { intros x o n Hx Hp Hne. pose proof (lookup_lt_Some _ _ _ Hx) as Lx.
    destruct (decide (x = X)) as [->|HneX].
    - exists (Exp eX'). split; [done|]. simpl. rewrite HparX.
      assert (o = Exp eX) as -> by congruence. done.
    - exists o. by rewrite Hfr. }
  (* an expression other than [X] keeps its elements *)
  assert (∀ (n : nat) e, h !! n = Some (Exp e) → n ≠ X →
            ∃ e2, h' !! n = Some (Exp e2) ∧ elements e2 = elements e) as Hkeep2.
  { intros n e Hn Hne. pose proof (lookup_lt_Some _ _ _ Hn) as Ln.
    destruct (decide (n = last_)) as [->|Hnl].
    - assert (ox = Exp e) as -> by congruence. cbn [with_parent] in Hl'.
      eauto.
    - exists e. by rewrite Hfr. }
  (* what lists [last_] in [h] is [X] *)
  assert (∀ (n : nat) e, h !! n = Some (Exp e) → last_ ∈ elements e → n = X)
    as Honly.
  { intros n e Hn Hin. destruct (T1 _ _ _ Hn Hin) as (o & Ho & Hp).
    congruence. }
  split; change ref with nat.
  - intros n e x Hn Hx.
    destruct (Hcase _ _ Hn) as [->|[->|[->|(HnX & Hnl & Ln & Hn0)]]].
    + assert (e = eX') as -> by congruence. rewrite HelX' in Hx.
      apply elem_of_app in Hx as [Hx|Hx].
      * assert (x ∈ elements eX) as Hx0.
        { rewrite HelX. apply elem_of_app. by left. }
        destruct (T1 _ _ _ HX Hx0) as (o & Ho & Hp).
        eapply Hkeep; [exact Ho|exact Hp|]. by intros ->.
      * apply list_elem_of_singleton in Hx as ->. exists (Exp eS).
        by rewrite <- HparS.
    + assert (e = eS) as -> by congruence. rewrite HelS in Hx.
      apply list_elem_of_singleton in Hx as ->.
      exists (with_parent (length h) ox). split; [done|]. by destruct ox.
    + (* [last_] is an expression: its own elements are as before *)
      destruct ox as [c|el]; cbn [with_parent] in Hl'; [congruence|].
      assert (e = set_parent_field (Some (length h)) el) as ->
        by (rewrite Hl' in Hn; by injection Hn).
      simpl in Hx. destruct (T1 _ _ _ Hl Hx) as (o & Ho & Hp).
      eapply Hkeep; [exact Ho|exact Hp|]. intros ->.
      by eapply T4.
    + destruct (T1 _ _ _ Hn0 Hx) as (o & Ho & Hp).
      eapply Hkeep; [exact Ho|exact Hp|]. intros ->.
      apply HnX. by eapply Honly.
  - intros x o p Hx Hp.
    destruct (Hcase _ _ Hx) as [->|[->|[->|(HnX & Hnl & Lx & Hx0)]]].
    + assert (o = Exp eX') as -> by congruence. simpl in Hp.
      rewrite HparX in Hp.
      destruct (T2 _ _ (p) HX Hp) as (e & He & Hin).
      assert (p ≠ X) as HpX. { intros ->. by eapply (T4 _ _ HX). }
      destruct (Hkeep2 _ _ He HpX) as (e2 & He2 & Hel2).
      exists e2. by rewrite Hel2.
    + assert (o = Exp eS) as -> by congruence. simpl in Hp.
      rewrite HparS in Hp. injection Hp as <-.
      exists eX'. split; [done|]. rewrite HelX'. apply elem_of_app.
      right. by left.
    + assert (o = with_parent (length h) ox) as -> by congruence.
      assert (p = length h) as ->. { destruct ox; simpl in Hp; congruence. }
      exists eS. split; [done|]. rewrite HelS. by left.
    + destruct (T2 _ _ _ Hx0 Hp) as (e & He & Hin).
      destruct (decide (p = X)) as [->|HpX].
      * exists eX'. split; [done|]. rewrite HelX'. apply elem_of_app. left.
        assert (e = eX) as -> by congruence. rewrite HelX in Hin.
        apply elem_of_app in Hin as [Hin|Hin]; [done|].
        apply list_elem_of_singleton in Hin. done.
      * destruct (Hkeep2 _ _ He HpX) as (e2 & He2 & Hel2).
        exists e2. by rewrite Hel2.
  - intros n e Hn.
    destruct (Hcase _ _ Hn) as [->|[->|[->|(HnX & Hnl & Ln & Hn0)]]].
    + assert (e = eX') as -> by congruence. rewrite HelX'.
      pose proof (T3 _ _ HX) as Hnd. rewrite HelX in Hnd.
      apply NoDup_app in Hnd as (Hnd & _ & _).
      apply NoDup_app. split; [done|]. split; [|apply NoDup_singleton].
      intros x Hx Hx'. apply list_elem_of_singleton in Hx' as ->.
      assert (length h ∈ elements eX) as Hx0.
      { rewrite HelX. apply elem_of_app. by left. }
      destruct (T1 _ _ _ HX Hx0) as (o & Ho & _).
      apply lookup_lt_Some in Ho. lia.
    + assert (e = eS) as -> by congruence. rewrite HelS.
      apply NoDup_singleton.
    + destruct ox as [c|el]; cbn [with_parent] in Hl'; [congruence|].
      assert (e = set_parent_field (Some (length h)) el) as ->
        by (rewrite Hl' in Hn; by injection Hn).
      simpl. by eapply T3.
    + by eapply T3.
  - intros x o Hx.
    destruct (Hcase _ _ Hx) as [->|[->|[->|(HnX & Hnl & Lx & Hx0)]]].
    + assert (o = Exp eX') as -> by congruence. simpl. rewrite HparX.
      apply (T4 _ _ HX).
    + assert (o = Exp eS) as -> by congruence. simpl. rewrite HparS.
      intros [= E]. lia.
    + assert (o = with_parent (length h) ox) as -> by congruence.
      destruct ox; simpl; intros [= E]; lia.
    + by eapply T4.
  - by eapply (ranked_interpose h h' X eX ids last_ ox eX' eS).
Qed.

Section Raising.
Context {A B : Type} (E : exn → Prop).

Lemma raising_ret (a : A) (Q : A → heap → Prop) h :
  Q a h → raising E (ret a) Q h.
Proof. done. Qed.

Lemma raising_bind (m : M A) (k : A → M B) (Q : B → heap → Prop) h :
  raising E m (fun a h' => raising E (k a) Q h') h → raising E (bind m k) Q h.
Proof. unfold raising, bind. destruct (m h) as [[a h']| |]; done. Qed.

Lemma raising_mono (m : M A) (Q Q' : A → heap → Prop) h :
  raising E m Q h → (∀ a h', Q a h' → Q' a h') → raising E m Q' h.
Proof. unfold raising. destruct (m h) as [[a h']| |]; eauto. Qed.

Lemma raising_returns (m : M A) (Q : A → heap → Prop) h a h' :
  m h = Return (a, h') → Q a h' → raising E m Q h.
Proof. unfold raising. by intros ->. Qed.

Lemma raising_weaken (E' : exn → Prop) (m : M A) (Q : A → heap → Prop) h :
  raising E m Q h → (∀ e, E e → E' e) → raising E' m Q h.
Proof. unfold raising. destruct (m h) as [[a h']| |]; eauto. Qed.

End Raising.

Lemma tree_links_fresh :
  tree_links [Exp (mkExpression [] None None 0)].
Proof.
  split.
  - intros [|[|n]] e x; simpl; try done. intros [= <-]. simpl.
    by intros Hx%elem_of_nil.
  - intros [|[|x]] o p; simpl; try done. by intros [= <-].
  - intros [|[|n]] e; simpl; try done. intros [= <-]. constructor.
  - intros [|[|x]] o; simpl; try done. by intros [= <-].
  - exists (fun _ => 0). split; [simpl; lia|].
    intros [|[|n]] e x; simpl; try done. intros [= <-]. simpl.
    by intros Hx%elem_of_nil.
Qed.

Lemma add_operator_delegates (h : heap) n (s : ref) e w (p : ref) :
  h !! s = Some (Exp e) →
  h !! _working_fragment e = Some (Exp w) →
  operator w = Some Op.And →
  parent w = Some p →
  add_operator (S n) s (VOperator Op.Or) h
  = add_operator n p (VOperator Op.Or) h.
Proof.
  intros He Hw Ho Hp. rewrite add_operator_S. unfold bind.
  rewrite (get_Expression_eq _ _ _ He), (get_Expression_eq _ _ _ Hw).
  by rewrite Ho, Hp.
Qed.

(** What is returned at a greater depth settles a call at a smaller one:
    it returns the same, or exceeds its depth. *)
Lemma raising_deeper E n m self v h r h' (Q : ref → heap → Prop) :
  add_operator m self v h = Return (r, h') → (n ≤ m)%nat → Q r h' →
  raising E (add_operator n self v) Q h.
Proof.
  intros Hm Hle HQ. unfold raising.
  destruct (add_operator n self v h) as [[r1 h1]|ex|] eqn:En; [| |done].
  - rewrite (add_operator_stable n m) in Hm; [|by rewrite En|done].
    rewrite En in Hm. by injection Hm as -> ->.
  - rewrite (add_operator_stable n m) in Hm; [|by rewrite En|done].
    by rewrite En in Hm.
Qed.

Lemma add_operator_links n :
  ∀ (self : ref) op h,
    parser_invariant h self →
    (op = Op.And → ∀ e, h !! self = Some (Exp e) → elements e ≠ []) →
    raising no_exception (add_operator n self (VOperator op))
      (fun r h' => parser_invariant h' r) h.
Proof.
  induction n as [|n IH]; intros self op h (Ht & Hset & Hself) Hne;
    [exact I|].
  (* whatever is returned is settled and is an expression *)
  assert (∀ k r h', add_operator k self (VOperator op) h = Return (r, h') →
                    tree_links h' → parser_invariant h' r) as Hgen.
  { intros k r h' Hrun Ht'. split; [done|]. split.
    - by apply (returns_post _ _ _ _ _
                  (add_operator_safe k self op h Hset Hne) Hrun).
    - apply cursor_is_Some.
      by eapply add_operator_returns_expression. }
  apply cursor_is_Some in Hself as (e & He).
  destruct (settled_working_fragment _ _ _ Hset He) as (w & Hw).
  destruct (operator w) as [wop|] eqn:Eop.
  2:{ (* no operator yet *)
      pose proof (add_operator_sets h n self e w op He Hw Eop) as Hrun.
      eapply raising_returns; [exact Hrun|]. apply (Hgen _ _ _ Hrun).
      pose proof (lookup_lt_Some _ _ _ Hw) as Lw.
      eapply (tree_links_update h _ (_working_fragment e) w);
        [done|done|lk|done|done|].
      intros r Hr. lk. }
  destruct (Op.gt op wop) eqn:Egt.
  { (* the last element goes into a new fragment *)
    apply gt_And_Or in Egt as [-> ->].
    assert (_working_fragment e = self) as Hwf.
    { destruct (Hset _ _ _ (cursor_Exp _ _ _ He)) as [?|[w' Hw']]; [done|].
      rewrite (cursor_Exp _ _ _ Hw), Eop in Hw'. by inversion Hw'. }
    rewrite Hwf in Hw. assert (w = e) as -> by congruence.
    destruct (elements e) as [|x0 xs] eqn:Eel using rev_ind.
    { by destruct (Hne eq_refl e He). }
    clear IHxs. rename xs into ids, x0 into last_.
    assert (last_ ∈ elements e) as Hin.
    { rewrite Eel. apply elem_of_app. right. by left. }
    destruct (child_parent _ Ht _ _ _ He Hin) as (ox & Hox & Hpo).
    assert (last_ ≠ self) as Hls.
    { intros ->. by eapply (not_own_parent _ Ht). }
    assert (e = mkExpression (ids ++ [last_]) (Some Op.Or) (parent e) self)
      as Heq.
    { destruct e as [el o p wf]. simpl in *. by subst. }
    rewrite Heq in He.
    destruct (add_operator_nests h n self ids last_ ox (parent e)
                He Hox Hls)
      as (h' & Hrun & L' & HX' & HS' & Hl' & Hfr).
    eapply raising_deeper; [exact Hrun|lia|]. apply (Hgen _ _ _ Hrun).
    eapply (tree_links_interpose h h' self _ ids last_ ox);
      [done|exact He|done|done|done|exact HX'|done|done|exact HS'
      |done|done|done|done]. }
  destruct (Op.lt op wop) eqn:Elt.
  2:{ (* the same operator *)
      assert (wop = op) as -> by (by destruct op, wop).
      pose proof (add_operator_keeps h n self e w op He Hw Eop) as Hrun.
      eapply raising_returns; [exact Hrun|]. by apply (Hgen _ _ _ Hrun). }
  apply lt_Or_And in Elt as [-> ->].
  destruct (parent w) as [p|] eqn:Epar.
  - (* the parent of the working fragment takes over *)
    unfold raising.
    rewrite (add_operator_delegates _ _ _ _ _ _ He Hw Eop Epar).
    apply IH; [|done]. split; [done|]. split; [done|].
    destruct (parent_child _ Ht _ _ _ Hw Epar) as (ep & Hep & _).
    apply cursor_is_Some. eauto.
  - (* a new root *)
    destruct (add_operator_new_root h n self e w He Hw Eop Epar)
      as (h' & Hrun & L' & HR' & HW' & Hfr).
    eapply raising_deeper; [exact Hrun|lia|]. apply (Hgen _ _ _ Hrun).
    eapply (tree_links_new_root h h' (_working_fragment e) w);
      [done|done|done|done|exact HR'|done|done|exact HW'|done|done|done].
Qed.

Lemma parse_char_raising fuel l char h :
  parser_invariant h (expression l) →
  raising parser_error (parse_char fuel l char)
    (fun l' h' => parser_invariant h' (expression l')) h.
Proof.
  intros Hinv. pose proof Hinv as (Ht & Hset & Hexp).
  assert (∀ l' h', parse_char fuel l char h = Return (l', h') →
                   cursors_settled h') as Hset'.
  { intros l' h' Hrun.
    exact (returns_post _ (fun _ h' => cursors_settled h') _ _ _
             (parse_char_safe fuel l char h Hset) Hrun). }
  apply cursor_is_Some in Hexp as (e & He).
  destruct (settled_working_fragment _ _ _ Hset He) as (w & Hw).
  pose proof (lookup_lt_Some _ _ _ Hw) as Lw.
  revert Hset'. unfold parse_char.
  destruct (Ascii.eqb char "(").
  { destruct (isinstance_BaseExpression (last_element l)); [done|].
    unfold raising, bind. rewrite (create_nested_expression_eq _ _ _ _ He Hw).
    intros Hset'. split; [|split; [by eapply Hset'|]].
    - eapply (tree_links_new_child h _ (_working_fragment e) w);
        [done|done|side|lk|done|done|lk|done| |].
      + by intros e' [= <-].
      + intros r H1 H2. lk.
    - apply cursor_is_Some. simpl. eexists. lk. }
  destruct (Ascii.eqb char ")").
  { intros Hset'. unfold raising, bind, get_parent. rewrite He. simpl.
    destruct (parent e) as [p|]; [|done].
    unfold isinstance_Expression.
    destruct (h !! p) as [[cp|ep]|] eqn:Ep; try done.
    split; [done|]. split; [done|]. apply cursor_is_Some. simpl. eauto. }
  intros _.
  unfold raising, bind, has_constraint, bind.
  rewrite (get_Expression_eq _ _ _ He). simpl.
  destruct (Nat.eqb (length (elements e)) 0) eqn:En; [done|].
  destruct (isinstance_Operator (last_element l)); [done|].
  unfold lift, Op.init.
  destruct (Op.assoc _ _); [|exact I].
  set (op := if String.eqb _ _ then _ else _).
  assert (∃ o, op = Return o) as [o ->]
    by (subst op; destruct (String.eqb _ _); eauto).
  pose proof (add_operator_links fuel (expression l) o h) as Hop.
  unfold raising in Hop.
  destruct (add_operator fuel (expression l) (VOperator o) h)
    as [[r h1]|ex|]; [| |done].
  - apply Hop; [exact Hinv|]. intros _ e' He' Hnil.
    assert (e' = e) as -> by congruence. by rewrite Hnil in En.
  - exfalso. apply Hop; [exact Hinv|]. intros _ e' He' Hnil.
    assert (e' = e) as -> by congruence. by rewrite Hnil in En.
Qed.

Lemma parse_preamble_raising fuel chars :
  ∀ l h,
    parser_invariant h (expression l) →
    raising parser_error (parse_preamble fuel l chars)
      (fun l' h' => parser_invariant h' (expression l')) h.
Proof.
  induction chars as [|c chars IH]; intros l h Hinv; [by apply raising_ret|].
  cbn [parse_preamble]. apply raising_bind.
  eapply raising_mono; [by apply parse_char_raising|].
  intros l' h1 H1. by apply IH.
Qed.

Lemma parse_selector_raising l t h :
  parser_invariant h (expression l) →
  raising parser_error (parse_selector l t)
    (fun l' h' => parser_invariant h' (expression l')) h.
Proof.
  intros (Ht & Hset & Hexp).
  assert (∀ l' h', parse_selector l t h = Return (l', h') →
                   cursors_settled h') as Hset'.
  { intros l' h' Hrun.
    exact (returns_post _ (fun _ h' => cursors_settled h') _ _ _
             (parse_selector_safe l t h Hset) Hrun). }
  apply cursor_is_Some in Hexp as (e & He).
  destruct (settled_working_fragment _ _ _ Hset He) as (w & Hw).
  pose proof (lookup_lt_Some _ _ _ Hw) as Lw.
  revert Hset'. unfold parse_selector.
  destruct (tselector t) as [sel|].
  2:{ intros _. apply raising_ret. split; [done|]. split; [done|].
      apply cursor_is_Some. eauto. }
  destruct (String.eqb sel "").
  { intros _. apply raising_ret. split; [done|]. split; [done|].
    apply cursor_is_Some. eauto. }
  destruct (isinstance_BaseExpression (last_element l)); [done|].
  unfold raising, bind, new_Constraint.
  erewrite add_base_expression_eq;
    [| by apply lookup_snoc_old | by apply lookup_snoc_old
     | apply lookup_snoc_new | lia].
  intros Hset'. split; [|split; [by eapply Hset'|]].
  - eapply (tree_links_new_child h _ (_working_fragment e) w);
      [done|done|side|lk|done|done|lk|done|done|].
    intros r H1 H2. lk.
  - apply cursor_is_Some. simpl.
    destruct (decide (expression l = _working_fragment e)) as [Heq|Hn].
    + rewrite Heq. eexists. lk.
    + exists e. pose proof (lookup_lt_Some _ _ _ He). lk.
Qed.

Lemma parse_tokens_raising fuel ts :
  ∀ l h,
    parser_invariant h (expression l) →
    raising parser_error (parse_tokens fuel l ts)
      (fun l' h' => parser_invariant h' (expression l')) h.
Proof.
  induction ts as [|t ts IH]; intros l h Hinv; [by apply raising_ret|].
  cbn [parse_tokens]. apply raising_bind. unfold parse_token.
  apply raising_bind. eapply raising_mono; [by apply parse_preamble_raising|].
  intros l1 h1 H1. eapply raising_mono; [by apply parse_selector_raising|].
  intros l2 h2 H2. by apply IH.
Qed.

Lemma parse_raising fuel ts :
  raising parser_error (parse fuel ts) (fun r h => parser_invariant h r) [].
Proof.
  unfold parse. apply raising_bind. unfold raising at 1, new_Expression.
  cbn [length app]. apply raising_bind. eapply raising_mono.
  - apply parse_tokens_raising. split; [apply tree_links_fresh|]. split.
    + intros r w o. unfold cursor. destruct r as [|[|]]; simpl; try done.
      intros [= <- <-]. by left.
    + simpl. by eexists.
  - intros l h (Ht & Hset & Hexp). unfold parse_finish.
    destruct (negb _); [done|].
    apply cursor_is_Some in Hexp as (e & He).
    unfold raising, bind, has_constraint, bind.
    rewrite (get_Expression_eq _ _ _ He). simpl.
    destruct (Nat.eqb _ _); [done|]. split; [done|]. split; [done|].
    apply cursor_is_Some. eauto.
Qed.

Lemma parse_invariant fuel ts r h :
  parse fuel ts [] = Return (r, h) → parser_invariant h r.
Proof.
  intros Hrun. pose proof (parse_raising fuel ts) as Hs.
  unfold raising in Hs. by rewrite Hrun in Hs.
Qed.

(** X14.  The outcomes of [parse_str_to_expression]: it returns, it raises one
    of its own errors, or the recursion of [add_operator] exceeds the call
    depth (a [RecursionError]). The errors are its format errors and the
    object errors of [get_parent] and [Operator()]: never an [AttributeError],
    an [IndexError] or the element-type error. A result and an error are the
    same at every greater depth; where the depth is exceeded it is exceeded at
    every smaller one. *)
Theorem parse_raises_parser_errors fuel ts :
  match parse fuel ts [] with
  | Return (r, h) => ∀ m, (fuel ≤ m)%nat → parse m ts [] = Return (r, h)
  | Raise e =>
      parser_error e
      ∧ e ≠ AttributeError ∧ e ≠ IndexError
      ∧ e ≠ FiqlObjectException NotAValidElementType
      ∧ ∀ m, (fuel ≤ m)%nat → parse m ts [] = Raise e
  | DepthExceeded => ∀ m, (m ≤ fuel)%nat → parse m ts [] = DepthExceeded
  end.
Proof.
  pose proof (parse_raising fuel ts) as Hs. unfold raising in Hs.
  destruct (parse fuel ts []) as [[r h]|e|] eqn:Hrun.
  - intros m Hm. rewrite (parse_stable fuel m); [done|by rewrite Hrun|done].
  - split; [done|]. split; [by destruct e as [[]| | |]|].
    split; [by destruct e as [[]| | |]|].
    split; [by destruct e as [[]| | |]|].
    intros m Hm. rewrite (parse_stable fuel m); [done|by rewrite Hrun|done].
  - intros m Hm.
    destruct (parse m ts []) as [[r h]|e|] eqn:Em; [| |done].
    + rewrite (parse_stable m fuel) in Hrun; [|by rewrite Em|done].
      by rewrite Em in Hrun.
    + rewrite (parse_stable m fuel) in Hrun; [|by rewrite Em|done].
      by rewrite Em in Hrun.
Qed.

Lemma parse_raises_parser_errors_witness :
  parse 2 (iter_parse "a=b") []
  = Raise (FiqlObjectException NotAValidOperator)
  ∧ parser_error (FiqlObjectException NotAValidOperator).
Proof.
  split; [reflexivity|].
  exact (proj1 (parse_raises_parser_errors 2 (iter_parse "a=b"))).
Defined.

(** X15.  The store the parser returns is a tree: every element of an
    expression has that expression as its parent, every object with a parent
    is listed by it, exactly once, no expression is found below itself, and
    every working fragment is the expression itself or a fragment joined by
    [;]. *)
Theorem parse_builds_a_tree fuel ts r h :
  parse fuel ts [] = Return (r, h) →
  tree_links h ∧ cursors_settled h ∧ isinstance_Expression h r = true.
Proof.
  intros Hrun. destruct (parse_invariant _ _ _ _ Hrun) as (Ht & Hset & Hr).
  split; [done|]. split; [done|].
  apply cursor_is_Some in Hr as (e & He).
  unfold isinstance_Expression. by rewrite He.
Qed.

Lemma parse_builds_a_tree_witness :
  parse 2 (iter_parse "a;(b,c)") [] = Return (0, group_heap)
  ∧ tree_links group_heap.
Proof.
  split; [reflexivity|].
  exact (proj1 (parse_builds_a_tree 2 (iter_parse "a;(b,c)") 0 group_heap
                  eq_refl)).
Defined.

(** With every expression its own working fragment, [,] climbs the
    parents; [;] never climbs. *)
Lemma add_operator_returns_within (op : Operator) h :
  tree_links h → cursors_settled h →
  (op = Op.And
   ∨ ∀ (x : ref) e, h !! x = Some (Exp e) → _working_fragment e = x) →
  ∀ n (self : ref) e,
    h !! self = Some (Exp e) →
    (op = Op.And → elements e ≠ []) →
    (length h + 2 ≤ n)%nat →
    add_operator n self (VOperator op) h ≠ DepthExceeded.
Proof.
  intros Ht Hset Hno.
  destruct (elements_descend _ Ht) as (rank & Hb & Hd).
  assert (∀ n (self : ref) e,
            h !! self = Some (Exp e) →
            (op = Op.And → elements e ≠ []) →
            (length h - rank self + 2 ≤ n)%nat →
            add_operator n self (VOperator op) h ≠ DepthExceeded) as Hall.
  2:{ intros n self e He Hne Hn. apply (Hall n self e He Hne).
      pose proof (Hb self). lia. }
  induction n as [|n IH]; intros self e He Hne Hn; [lia|].
  destruct (settled_working_fragment _ _ _ Hset He) as (w & Hw).
  destruct (operator w) as [wop|] eqn:Eop.
  2:{ by rewrite (add_operator_sets h n self e w op He Hw Eop). }
  destruct (Op.gt op wop) eqn:Egt.
  { apply gt_And_Or in Egt as [-> ->].
    assert (_working_fragment e = self) as Hwf.
    { destruct (Hset _ _ _ (cursor_Exp _ _ _ He)) as [?|[w' Hw']]; [done|].
      rewrite (cursor_Exp _ _ _ Hw), Eop in Hw'. by inversion Hw'. }
    rewrite Hwf in Hw. assert (w = e) as -> by congruence.
    destruct (elements e) as [|x0 xs] eqn:Eel using rev_ind.
    { by destruct (Hne eq_refl). }
    clear IHxs. rename xs into ids, x0 into last_.
    assert (last_ ∈ elements e) as Hin.
    { rewrite Eel. apply elem_of_app. right. by left. }
    destruct (child_parent _ Ht _ _ _ He Hin) as (ox & Hox & Hpo).
    assert (last_ ≠ self) as Hls.
    { intros ->. by eapply (not_own_parent _ Ht). }
    assert (e = mkExpression (ids ++ [last_]) (Some Op.Or) (parent e) self)
      as Heq.
    { destruct e as [el o p wf]. simpl in *. by subst. }
    rewrite Heq in He.
    destruct n as [|n]; [lia|].
    destruct (add_operator_nests h n self ids last_ ox (parent e)
                He Hox Hls) as (h' & Hrun & _).
    by rewrite Hrun. }
  destruct (Op.lt op wop) eqn:Elt.
  2:{ assert (wop = op) as -> by (by destruct op, wop).
      by rewrite (add_operator_keeps h n self e w op He Hw Eop). }
  apply lt_Or_And in Elt as [-> ->].
  destruct Hno as [?|Hno]; [done|].
  destruct (parent w) as [p|] eqn:Epar.
  - rewrite (add_operator_delegates _ _ _ _ _ _ He Hw Eop Epar).
    pose proof (Hno _ _ He) as Hwf. rewrite Hwf in Hw.
    assert (w = e) as -> by congruence.
    destruct (parent_child _ Ht self (Exp e) p He Epar) as (ep & Hep & Hin).
    apply (IH p ep Hep); [done|].
    pose proof (Hd _ _ _ Hep Hin). pose proof (Hb p). lia.
  - destruct n as [|n]; [lia|].
    destruct (add_operator_new_root h n self e w He Hw Eop Epar)
      as (h' & Hrun & _).
    by rewrite Hrun.
Qed.

(** X16.  [add_operator] keeps a tree a tree: on a store whose links make a
    tree and whose working fragments are settled, adding an operator (for [;],
    to a receiver that holds something) raises no exception, and what it
    returns is an expression of a store with the same two properties. It does
    return, at a call depth of the size of the store and two more, for [;]
    always and for [,] when every expression is its own working fragment; on
    other stores [,] can exceed every call depth. *)
Theorem add_operator_keeps_tree n (self : ref) op h :
  tree_links h → cursors_settled h → isinstance_Expression h self = true →
  (op = Op.And → ∀ e, h !! self = Some (Exp e) → elements e ≠ []) →
  match add_operator n self (VOperator op) h with
  | Return (r, h') =>
      tree_links h' ∧ cursors_settled h' ∧ isinstance_Expression h' r = true
  | Raise _ => False
  | DepthExceeded => True
  end
  ∧ ((op = Op.And
      ∨ ∀ (x : ref) e, h !! x = Some (Exp e) → _working_fragment e = x) →
     (length h + 2 ≤ n)%nat →
     ∃ r h', add_operator n self (VOperator op) h = Return (r, h')).
Proof.
  intros Ht Hset Hself Hne.
  assert (∃ e, h !! self = Some (Exp e)) as (e & He).
  { unfold isinstance_Expression in Hself.
    destruct (h !! self) as [[c|e]|]; try done. eauto. }
  assert (parser_invariant h self) as Hinv.
  { split; [done|]. split; [done|]. apply cursor_is_Some. eauto. }
  pose proof (add_operator_links n self op h Hinv Hne) as Hs.
  unfold raising in Hs.
  split.
  - destruct (add_operator n self (VOperator op) h) as [[r h']|ex|] eqn:E;
      [|done..].
    destruct Hs as (Ht' & Hset' & Hr). split; [done|]. split; [done|].
    apply cursor_is_Some in Hr as (e' & He').
    unfold isinstance_Expression. by rewrite He'.
  - intros Hno Hn.
    pose proof (add_operator_returns_within op h Ht Hset Hno n self e He
                  (fun Hop => Hne Hop e He) Hn) as Hret.
    destruct (add_operator n self (VOperator op) h) as [[r h']|ex|];
      [eauto|done|done].
Qed.

Lemma add_operator_keeps_tree_witness :
  add_operator 2 0 (VOperator Op.And)
    [ Exp (mkExpression [1; 2] (Some Op.Or) None 0);
      Con (mkConstraint "a" None None (Some 0));
      Con (mkConstraint "b" None None (Some 0)) ]
  = Return (0, [ Exp (mkExpression [1; 3] (Some Op.Or) None 3);
                 Con (mkConstraint "a" None None (Some 0));
                 Con (mkConstraint "b" None None (Some 3));
                 Exp (mkExpression [2] (Some Op.And) (Some 0) 3) ])
  ∧ tree_links [ Exp (mkExpression [1; 3] (Some Op.Or) None 3);
                 Con (mkConstraint "a" None None (Some 0));
                 Con (mkConstraint "b" None None (Some 3));
                 Exp (mkExpression [2] (Some Op.And) (Some 0) 3) ].
Proof.
  assert (parse 1 (iter_parse "a,b") []
          = Return (0, [ Exp (mkExpression [1; 2] (Some Op.Or) None 0);
                         Con (mkConstraint "a" None None (Some 0));
                         Con (mkConstraint "b" None None (Some 0)) ]))
    as Hp by reflexivity.
  destruct (parse_invariant _ _ _ _ Hp) as (Ht & Hset & _).
  assert (add_operator 2 0 (VOperator Op.And)
            [ Exp (mkExpression [1; 2] (Some Op.Or) None 0);
              Con (mkConstraint "a" None None (Some 0));
              Con (mkConstraint "b" None None (Some 0)) ]
          = Return (0, [ Exp (mkExpression [1; 3] (Some Op.Or) None 3);
                         Con (mkConstraint "a" None None (Some 0));
                         Con (mkConstraint "b" None None (Some 3));
                         Exp (mkExpression [2] (Some Op.And) (Some 0) 3) ]))
    as Hrun by reflexivity.
  split; [exact Hrun|].
  assert (∀ e, [ Exp (mkExpression [1; 2] (Some Op.Or) None 0);
                 Con (mkConstraint "a" None None (Some 0));
                 Con (mkConstraint "b" None None (Some 0)) ] !! 0
               = Some (Exp e) → elements e ≠ []) as Hne
    by (by intros e [= <-]).
  pose proof (proj1 (add_operator_keeps_tree 2 0 Op.And _ Ht Hset eq_refl
                       (fun _ => Hne))) as H.
  simpl in H. apply H.
Defined.

(** ** Inputs without parentheses: grouping by precedence *)

Lemma or_groups_nonempty c0 rest : or_groups c0 rest ≠ [].
Proof.
  revert c0. induction rest as [|[[] c] rest IH]; intros c0; simpl; try done.
  by destruct (or_groups c rest).
Qed.

Lemma extend_and_snoc gs g c : extend_and (gs ++ [g]) c = gs ++ [g ++ [c]].
Proof.
  induction gs as [|g0 gs IH]; [done|].
  simpl. rewrite IH. by destruct gs.
Qed.

Lemma extend_and_cons g gs c :
  gs ≠ [] → extend_and (g :: gs) c = g :: extend_and gs c.
Proof. by destruct gs. Qed.

Lemma or_groups_snoc rest :
  ∀ c0 o c,
    or_groups c0 (rest ++ [(o, c)]) = extend_groups (or_groups c0 rest) o c.
Proof.
  induction rest as [|[o1 c1] rest IH]; intros c0 o c.
  - by destruct o.
  - cbn [app or_groups]. rewrite IH.
    pose proof (or_groups_nonempty c1 rest) as Hne.
    destruct (or_groups c1 rest) as [|g gs]; [done|].
    destruct o1, o; simpl; try done.
    by destruct gs.
Qed.

Lemma last_shape_snoc rest :
  ∀ s o c,
    last_shape s (rest ++ [(o, c)])
    = match last_shape s rest with
      | Some s' => next_shape s' o c
      | None => None
      end.
Proof.
  induction rest as [|[o1 c1] rest IH]; intros s o c.
  - simpl. by destruct (next_shape s o c).
  - cbn [app last_shape]. destruct (next_shape s o1 c1); [apply IH|done].
Qed.

Lemma shape_groups_next s o c s' :
  next_shape s o c = Some s' →
  shape_groups s' = extend_groups (shape_groups s) o c.
Proof.
  destruct s, o; intros [= <-]; cbn [shape_groups extend_groups];
    rewrite ?extend_and_snoc, ?map_app; done.
Qed.

Lemma shape_groups_last c0 rest :
  ∀ s, last_shape (Alone c0) rest = Some s →
       shape_groups s = or_groups c0 rest.
Proof.
  induction rest as [|[o c] rest IH] using rev_ind; intros s.
  - by intros [= <-].
  - rewrite last_shape_snoc, or_groups_snoc.
    destruct (last_shape (Alone c0) rest) as [s0|]; [|done].
    intros Hs. rewrite (shape_groups_next _ _ _ _ Hs). by rewrite (IH s0).
Qed.

Lemma shape_form_last c0 rest s :
  last_shape (Alone c0) rest = Some s →
  shape_form s = precedence_form c0 rest.
Proof.
  intros Hs. unfold shape_form, precedence_form.
  by rewrite (shape_groups_last _ _ _ Hs).
Qed.

Lemma last_shape_accepts rest :
  ∀ s, is_Some (last_shape s rest) ↔ shape_accepts s (map fst rest) = true.
Proof.
  induction rest as [|[o c] rest IH]; intros s.
  - simpl. split; [by destruct s|by eexists].
  - cbn [last_shape map fst].
    destruct s, o; simpl; rewrite ?IH; simpl; done.
Qed.

(** *** The parser follows the shapes *)

Lemma parse_token_runs fuel l lc o c h e (X1 : ref) h1 e1 w1 :
  last_element l = Some (VObj lc) →
  nesting_lvl l = 0%Z →
  h !! expression l = Some (Exp e) →
  elements e ≠ [] →
  add_operator fuel (expression l) (VOperator o) h = Return (X1, h1) →
  h1 !! X1 = Some (Exp e1) →
  h1 !! _working_fragment e1 = Some (Exp w1) →
  selector c ≠ "" →
  ∃ hf,
    parse_token fuel l (ctoken (Op.value o) c) h
    = Return (mkLocals 0 (Some (VObj (length h1))) X1, hf)
    ∧ length hf = S (length h1)
    ∧ constraint_at hf (length h1) c
    ∧ hf !! _working_fragment e1
      = Some (Exp (set_elements (elements w1 ++ [length h1]) w1))
    ∧ ∀ r, r < length h1 → r ≠ _working_fragment e1 → hf !! r = h1 !! r.
Proof.
  intros Hl Hn He Hne Hop HX1 Hw1 Hsel.
  rewrite (parse_token_operator _ _ _ _ _ _ _ Hl He Hne), Hop.
  destruct (parse_selector_appends h1
              (mkLocals (nesting_lvl l) (Some (VOperator o)) X1)
              (Op.value o) c e1 w1 HX1 Hw1 Hsel eq_refl)
    as (hf & Hps & Hrest).
  exists hf. rewrite Hps. simpl. by rewrite Hn.
Qed.

Lemma constraint_at_frame (h h' : heap) (X : ref) eX id c :
  h !! X = Some (Exp eX) →
  (∀ r : ref, r < length h → r ≠ X → h' !! r = h !! r) →
  constraint_at h id c → constraint_at h' id c.
Proof.
  intros HX Hfr (c' & Hc & Hd). exists c'. split; [|done].
  rewrite Hfr; [done|by eapply lookup_lt_Some|congruence].
Qed.

Lemma constraints_at_frame (h h' : heap) (X : ref) eX ids cs :
  h !! X = Some (Exp eX) →
  (∀ r : ref, r < length h → r ≠ X → h' !! r = h !! r) →
  Forall2 (constraint_at h) ids cs → Forall2 (constraint_at h') ids cs.
Proof.
  intros HX Hfr H. eapply Forall2_impl; [exact H|].
  intros id c. by eapply constraint_at_frame.
Qed.

(** The items under a parentless [X] are kept by whatever changes [X] only,
    apart from the parent of a constraint. *)
Lemma items_at_keep (h h' : heap) (X : ref) eX ids its :
  h !! X = Some (Exp eX) →
  parent eX = None →
  (∀ (r : ref) o, h !! r = Some o → r ≠ X →
     h' !! r = Some o ∨ ∃ c, o = Con c ∧ constraint_at h' r c) →
  Forall2 (item_at h X) ids its → Forall2 (item_at h' X) ids its.
Proof.
  intros HX Hpar Hfr Hits.
  eapply (items_at_evolves [X]); [exact Hits| |].
  - intros r o Hr. destruct (decide (r = X)) as [->|Hne].
    + right; right. split; [by left|]. rewrite HX in Hr.
      injection Hr as <-. eauto.
    + destruct (Hfr _ _ Hr Hne) as [H|H]; [by left|by right; left].
  - intros id Hin. rewrite list_elem_of_singleton. intros ->.
    by eapply (items_at_not_root h X eX ids its).
Qed.

Lemma shape_step fuel h (X : ref) s o c s' lc :
  shape_at h X s → selector c ≠ "" → next_shape s o c = Some s' →
  ∃ (X' : ref) lc' h',
    parse_token (S (S fuel)) (mkLocals 0 (Some (VObj lc)) X)
      (ctoken (Op.value o) c) h
    = Return (mkLocals 0 (Some (VObj lc')) X', h')
    ∧ shape_at h' X' s'.
Proof.
  intros Hs Hsel Hstep. destruct s as [c0|cs|its c0|its cs].
  - (* one constraint alone: the operator is set *)
    destruct Hs as (id & HX & Hc0).
    pose proof (lookup_lt_Some _ _ _ HX) as LX.
    pose proof (add_operator_sets h (S fuel) X _ _ o HX HX eq_refl) as Hop.
    simpl in Hop.
    destruct (parse_token_runs (S (S fuel)) (mkLocals 0 (Some (VObj lc)) X)
                lc o c h _ X _
                (mkExpression [id] (Some o) None X)
                (mkExpression [id] (Some o) None X)
                eq_refl eq_refl HX ltac:(done) Hop ltac:(lk) ltac:(lk) Hsel)
      as (hf & Hrun & Lf & Cf & HXf & Hfr).
    simpl in HXf, Hfr. rewrite length_insert in *.
    assert (constraint_at hf id c0) as Hc0'.
    { destruct Hc0 as (c' & Hid & Hd). exists c'. split; [|done].
      rewrite Hfr; [|by eapply lookup_lt_Some|congruence].
      rewrite list_lookup_insert_ne by congruence. done. }
    exists X, (length h), hf. split; [exact Hrun|].
    destruct o; injection Hstep as <-.
    + exists [id; length h]. split; [exact HXf|]. split; [|done].
      constructor; [done|]. constructor; [done|constructor].
    + exists [id], (length h). split; [exact HXf|]. split; [|done].
      constructor; [done|constructor].
  - destruct Hs as (ids & HX & Hcs & Hne).
    pose proof (lookup_lt_Some _ _ _ HX) as LX.
    assert (ids ≠ []) as Hids.
    { intros ->. inversion Hcs; by subst. }
    destruct o; injection Hstep as <-.
    + (* [;] again *)
      pose proof (add_operator_keeps h (S fuel) X _ _ Op.And HX HX eq_refl)
        as Hop.
      destruct (parse_token_runs (S (S fuel)) (mkLocals 0 (Some (VObj lc)) X)
                  lc Op.And c h _ X _ _ _
                  eq_refl eq_refl HX Hids Hop HX HX Hsel)
        as (hf & Hrun & Lf & Cf & HXf & Hfr).
      simpl in HXf, Hfr.
      exists X, (length h), hf. split; [exact Hrun|].
      exists (ids ++ [length h]). split; [exact HXf|]. split.
      * apply Forall2_app.
        -- eapply (constraints_at_frame h hf X); [exact HX|exact Hfr|exact Hcs].
        -- constructor; [done|constructor].
      * by destruct cs.
    + (* [,] after [;]: a new root *)
      destruct (add_operator_lifts h fuel X ids HX)
        as (hs & Hop & Ls & HNs & HXs & Hfrs).
      destruct (parse_token_runs (S (S fuel)) (mkLocals 0 (Some (VObj lc)) X)
                  lc Op.Or c h _ (length h) _ _ _
                  eq_refl eq_refl HX Hids Hop HNs HNs Hsel)
        as (hf & Hrun & Lf & Cf & HNf & Hfr).
      simpl in HNf, Hfr.
      exists (length h), (length hs), hf. split; [exact Hrun|].
      exists [X], (length hs). split; [exact HNf|]. split; [|done].
      constructor; [|constructor].
      exists ids, X. split; [rewrite Hfr by lia; exact HXs|].
      eapply (constraints_at_frame hs); [exact HNs|exact Hfr|].
      eapply (constraints_at_frame h); [exact HX| |exact Hcs].
      intros r Hr Hn. by apply Hfrs.
  - destruct Hs as (ids & id & HX & Hits & Hc0).
    pose proof (lookup_lt_Some _ _ _ HX) as LX.
    assert (ids ++ [id] ≠ []) as Hids by (by destruct ids).
    destruct o; injection Hstep as <-.
    + (* [;] after [,]: the last constraint sinks *)
      destruct Hc0 as (cl & Hcl & Hd1 & Hd2 & Hd3).
      destruct (add_operator_sinks h fuel X ids id cl HX Hcl)
        as (hs & Hop & Ls & HXs & HSs & Cls & Hfrs).
      destruct (parse_token_runs (S (S fuel)) (mkLocals 0 (Some (VObj lc)) X)
                  lc Op.And c h _ X _ _ _
                  eq_refl eq_refl HX Hids Hop HXs HSs Hsel)
        as (hf & Hrun & Lf & Cf & HSf & Hfr).
      simpl in HSf, Hfr.
      assert (id ≠ X) as HidX by congruence.
      assert (id < length h) as Lid by (by eapply lookup_lt_Some).
      assert (constraint_at hf id c0) as Hid'.
      { destruct Cls as (c2 & Hc2 & ? & ? & ?). exists c2.
        rewrite Hfr by lia. split; [done|]. repeat split; congruence. }
      exists X, (length hs), hf. split; [exact Hrun|].
      exists ids, (length h). split; [rewrite Hfr by lia; exact HXs|].
      split; [|split].
      * eapply (items_at_keep h); [exact HX|done| |exact Hits].
        intros r ob Hr Hne. pose proof (lookup_lt_Some _ _ _ Hr) as Lr.
        destruct (decide (r = id)) as [->|Hn'].
        -- right. exists cl. split; [congruence|].
           destruct Hid' as (c2 & Hc2 & ? & ? & ?). exists c2.
           split; [done|]. repeat split; congruence.
        -- left. rewrite Hfr by lia. by rewrite Hfrs.
      * intros Hin. eapply items_at_lt in Hin; [|exact Hits]. lia.
      * exists [id; length hs], (length h). split; [exact HSf|].
        constructor; [done|]. constructor; [done|constructor].
    + (* [,] again *)
      pose proof (add_operator_keeps h (S fuel) X _ _ Op.Or HX HX eq_refl)
        as Hop.
      destruct (parse_token_runs (S (S fuel)) (mkLocals 0 (Some (VObj lc)) X)
                  lc Op.Or c h _ X _ _ _
                  eq_refl eq_refl HX Hids Hop HX HX Hsel)
        as (hf & Hrun & Lf & Cf & HXf & Hfr).
      simpl in HXf, Hfr.
      exists X, (length h), hf. split; [exact Hrun|].
      exists (ids ++ [id]), (length h). split; [exact HXf|]. split; [|done].
      apply Forall2_app.
      * eapply (items_at_keep h); [exact HX|done| |exact Hits].
        intros r ob Hr Hne. left. rewrite Hfr; [done| |done].
        by eapply lookup_lt_Some.
      * constructor; [|constructor]. simpl.
        by eapply (constraint_at_frame h hf X).
  - destruct Hs as (ids & F & HX & Hits & HF & HG).
    destruct o; [|done]. injection Hstep as <-.
    (* [;] again, into the sunk fragment *)
    destruct HG as (gids & wS & HSn & Hgc).
    pose proof (lookup_lt_Some _ _ _ HX) as LX.
    assert (ids ++ [F] ≠ []) as Hids by (by destruct ids).
    pose proof (add_operator_keeps h (S fuel) X _ _ Op.And HX HSn eq_refl)
      as Hop.
    destruct (parse_token_runs (S (S fuel)) (mkLocals 0 (Some (VObj lc)) X)
                lc Op.And c h _ X _ _ _
                eq_refl eq_refl HX Hids Hop HX HSn Hsel)
      as (hf & Hrun & Lf & Cf & HSf & Hfr).
    simpl in HSf, Hfr.
    assert (F ≠ X) as HFX by congruence.
    assert (evolves [F] h hf) as Hev.
    { intros r ob Hr. pose proof (lookup_lt_Some _ _ _ Hr) as Lr.
      destruct (decide (r = F)) as [->|Hn].
      - right; right. split; [by left|]. rewrite HSn in Hr.
        injection Hr as <-. eauto.
      - left. rewrite Hfr by lia. done. }
    exists X, (length h), hf. split; [exact Hrun|].
    exists ids, F. split; [rewrite Hfr by lia; exact HX|].
    split; [|split; [done|]].
    + eapply items_at_evolves; [exact Hits|exact Hev|].
      intros id Hin. rewrite list_elem_of_singleton. by intros ->.
    + exists (gids ++ [length h]), wS. split; [exact HSf|].
      apply Forall2_app; [by eapply constraints_at_evolves|].
      constructor; [exact Cf|constructor].
Qed.

Lemma shape_stuck_step fuel h (X : ref) its cs c lc :
  shape_at h X (Sunk its cs) →
  parse_token fuel (mkLocals 0 (Some (VObj lc)) X)
    (ctoken (Op.value Op.Or) c) h = DepthExceeded.
Proof.
  intros (ids & F & HX & Hits & HF & (gids & wS & HSn & Hgc)).
  rewrite (parse_token_operator fuel (mkLocals 0 (Some (VObj lc)) X) lc
             Op.Or c h _ eq_refl HX); [|by destruct ids].
  simpl expression.
  by rewrite (add_operator_delegation_cycle fuel h X _ _ HX HSn).
Qed.

Lemma shape_first fuel c0 :
  selector c0 ≠ "" →
  ∃ h,
    parse_token fuel (mkLocals 0 None 0) (ctoken "" c0)
      [Exp (mkExpression [] None None 0)]
    = Return (mkLocals 0 (Some (VObj 1)) 0, h)
    ∧ shape_at h 0 (Alone c0).
Proof.
  intros Hsel. unfold parse_token, bind. simpl.
  unfold parse_selector, ctoken. simpl.
  apply String.eqb_neq in Hsel. rewrite Hsel. simpl.
  eexists. split; [reflexivity|].
  exists 1. split; [reflexivity|]. eexists. split; [reflexivity|done].
Qed.

Lemma shape_steps fuel rest :
  ∀ h (X : ref) s lc s',
    shape_at h X s →
    Forall (fun oc => selector (snd oc) ≠ "") rest →
    last_shape s rest = Some s' →
    ∃ (X' : ref) lc' h',
      parse_tokens (S (S fuel)) (mkLocals 0 (Some (VObj lc)) X)
        (map (fun oc => ctoken (Op.value (fst oc)) (snd oc)) rest) h
      = Return (mkLocals 0 (Some (VObj lc')) X', h')
      ∧ shape_at h' X' s'.
Proof.
  induction rest as [|[o c] rest IH]; intros h X s lc s' Hs Hsel.
  - intros [= <-]. by exists X, lc, h.
  - inversion Hsel as [|? ? Hc Hrest]; subst. simpl in Hc.
    cbn [last_shape]. destruct (next_shape s o c) as [s1|] eqn:E1; [|done].
    intros Hsteps.
    destruct (shape_step fuel h X s o c s1 lc Hs Hc E1)
      as (X1 & lc1 & h1 & Hrun1 & Hs1).
    destruct (IH h1 X1 s1 lc1 s' Hs1 Hrest Hsteps)
      as (X2 & lc2 & h2 & Hrun2 & Hs2).
    exists X2, lc2, h2. split; [|done].
    cbn [map parse_tokens fst snd]. unfold bind at 1.
    by rewrite Hrun1.
Qed.

Lemma shape_stuck fuel rest :
  ∀ h (X : ref) s lc,
    shape_at h X s →
    Forall (fun oc => selector (snd oc) ≠ "") rest →
    last_shape s rest = None →
    parse_tokens (S (S fuel)) (mkLocals 0 (Some (VObj lc)) X)
      (map (fun oc => ctoken (Op.value (fst oc)) (snd oc)) rest) h
    = DepthExceeded.
Proof.
  induction rest as [|[o c] rest IH]; intros h X s lc Hs Hsel; [done|].
  inversion Hsel as [|? ? Hc Hrest]; subst. simpl in Hc.
  cbn [last_shape map parse_tokens fst snd]. unfold bind at 1.
  destruct (next_shape s o c) as [s1|] eqn:E1.
  - intros Hsteps.
    destruct (shape_step fuel h X s o c s1 lc Hs Hc E1)
      as (X1 & lc1 & h1 & Hrun1 & Hs1).
    rewrite Hrun1. by eapply IH.
  - intros _. destruct s as [| | |its cs]; try (by destruct o).
    destruct o; [done|].
    by rewrite (shape_stuck_step _ _ _ _ _ _ _ Hs).
Qed.

(** *** What the shapes deconstruct to *)

Lemma to_python_constraint_is d h id c :
  constraint_at h id c → to_python (S d) h id = Return (Constraint_to_python c).
Proof.
  intros (c' & Hc & Hs & Hcm & Ha). simpl. rewrite Hc.
  unfold Constraint_to_python. by rewrite Hs, Hcm, Ha.
Qed.

Lemma to_python_constraints_are d h ids cs :
  Forall2 (constraint_at h) ids cs →
  omap_list (to_python (S d) h) ids = Return (map Constraint_to_python cs).
Proof.
  induction 1 as [|id c ids cs Hc H IH]; [done|].
  cbn [omap_list map]. rewrite (to_python_constraint_is _ _ _ _ Hc).
  cbn [obind]. by rewrite IH.
Qed.

Lemma to_python_node d h (X : ref) e items :
  h !! X = Some (Exp e) →
  omap_list (to_python d h) (elements e) = Return items →
  to_python (S d) h X
  = Return (node_form (Op.to_python (effective_operator e)) items).
Proof.
  intros HX Hitems. rewrite (to_python_Expression _ _ _ _ HX).
  destruct (elements e) as [|x [|y l]].
  - by injection Hitems as <-.
  - simpl in Hitems. destruct (to_python d h x) as [v| |]; try done.
    by injection Hitems as <-.
  - rewrite Hitems. simpl.
    apply omap_list_Forall2 in Hitems.
    inversion Hitems as [|? v1 ? vs1 _ Hrest]; subst.
    by inversion Hrest.
Qed.

Lemma to_python_item_is d h (N : ref) id it :
  item_at h N id it →
  to_python (S (S d)) h id = Return (and_form (item_group it)).
Proof.
  destruct it as [c|cs]; simpl item_at.
  - apply to_python_constraint_is.
  - intros (gids & w & Hg & Hcs).
    by rewrite (to_python_node _ _ _ _ _ Hg
                  (to_python_constraints_are d _ _ _ Hcs)).
Qed.

Lemma to_python_items_are d h (N : ref) ids its :
  Forall2 (item_at h N) ids its →
  omap_list (to_python (S (S d)) h) ids
  = Return (map and_form (map item_group its)).
Proof.
  induction 1 as [|id it ids its Hi H IH]; [done|].
  cbn [omap_list map]. rewrite (to_python_item_is _ _ _ _ _ Hi).
  cbn [obind]. by rewrite IH.
Qed.

Lemma to_python_shape d h (X : ref) s :
  shape_at h X s → to_python (S (S (S d))) h X = Return (shape_form s).
Proof.
  destruct s as [c0|cs|its c0|its cs]; unfold shape_form;
    cbn [shape_groups map].
  - intros (id & HX & Hc0).
    erewrite to_python_node; [|exact HX|].
    2:{ apply (to_python_items_are d h X [id] [IC c0]).
        constructor; [done|constructor]. }
    done.
  - intros (ids & HX & Hcs & _).
    erewrite to_python_node; [|exact HX|].
    2:{ simpl. apply (to_python_constraints_are (S d)), Hcs. }
    done.
  - intros (ids & id & HX & Hits & Hc0).
    erewrite to_python_node; [|exact HX|].
    2:{ apply (to_python_items_are d h X (ids ++ [id]) (its ++ [IC c0])).
        apply Forall2_app; [done|]. constructor; [done|constructor]. }
    by rewrite !map_app.
  - intros (ids & F & HX & Hits & _ & HG).
    erewrite to_python_node; [|exact HX|].
    2:{ apply (to_python_items_are d h X (ids ++ [F]) (its ++ [IG cs])).
        apply Forall2_app; [done|]. constructor; [done|constructor]. }
    by rewrite !map_app.
Qed.

Lemma shape_at_length h (X : ref) s : shape_at h X s → (2 ≤ length h)%nat.
Proof.
  destruct s as [c0|cs|its c0|its cs].
  - intros (id & HX & (c' & Hc & _)).
    pose proof (lookup_lt_Some _ _ _ HX). pose proof (lookup_lt_Some _ _ _ Hc).
    assert (id ≠ X) by congruence. lia.
  - intros (ids & HX & Hcs & Hne).
    destruct Hcs as [|id c ids cs (c' & Hc & _) _]; [done|].
    pose proof (lookup_lt_Some _ _ _ HX). pose proof (lookup_lt_Some _ _ _ Hc).
    assert (id ≠ X) by congruence. lia.
  - intros (ids & id & HX & _ & (c' & Hc & _)).
    pose proof (lookup_lt_Some _ _ _ HX). pose proof (lookup_lt_Some _ _ _ Hc).
    assert (id ≠ X) by congruence. lia.
  - intros (ids & F & HX & _ & _ & (gids & w & HF & _)).
    pose proof (lookup_lt_Some _ _ _ HX). pose proof (lookup_lt_Some _ _ _ HF).
    assert (F ≠ X) by congruence. lia.
Qed.

Lemma shape_at_finish h (X : ref) s lc :
  shape_at h X s →
  parse_finish (mkLocals 0 (Some (VObj lc)) X) h = Return (X, h).
Proof.
  intros Hs. unfold parse_finish. simpl.
  unfold bind, has_constraint, bind.
  destruct s as [c0|cs|its c0|its cs].
  - destruct Hs as (id & HX & _). by rewrite (get_Expression_eq _ _ _ HX).
  - destruct Hs as (ids & HX & Hcs & Hne).
    rewrite (get_Expression_eq _ _ _ HX). simpl.
    destruct Hcs; done.
  - destruct Hs as (ids & id & HX & _).
    rewrite (get_Expression_eq _ _ _ HX). simpl. by destruct ids.
  - destruct Hs as (ids & F & HX & _).
    rewrite (get_Expression_eq _ _ _ HX). simpl. by destruct ids.
Qed.

(** The parser on the tuples of a flat input. *)
Lemma flat_parse_result fuel c0 rest :
  selector c0 ≠ "" →
  Forall (fun oc => selector (snd oc) ≠ "") rest →
  match last_shape (Alone c0) rest with
  | Some s =>
      ∃ (r : ref) h, parse (S (S fuel)) (flat_tokens c0 rest) [] = Return (r, h)
                     ∧ shape_at h r s
  | None => ∀ n, parse n (flat_tokens c0 rest) [] = DepthExceeded
  end.
Proof.
  intros Hc0 Hrest.
  destruct (last_shape (Alone c0) rest) as [s|] eqn:Es.
  - destruct (shape_first (S (S fuel)) c0 Hc0) as (h1 & Hrun1 & Hs1).
    destruct (shape_steps fuel rest h1 0 _ 1 s Hs1 Hrest Es)
      as (X & lc & h2 & Hrun2 & Hs2).
    exists X, h2. split; [|done].
    unfold parse, flat_tokens, new_Expression.
    cbn [parse_tokens]. unfold bind. cbn [length app].
    rewrite Hrun1, Hrun2. by eapply shape_at_finish.
  - assert (∀ k, parse (S (S k)) (flat_tokens c0 rest) [] = DepthExceeded)
      as Hdeep.
    { intros k. destruct (shape_first (S (S k)) c0 Hc0) as (h1 & Hrun1 & Hs1).
      unfold parse, flat_tokens, new_Expression.
      cbn [parse_tokens]. unfold bind. cbn [length app].
      rewrite Hrun1. by rewrite (shape_stuck k rest h1 0 _ 1 Hs1 Hrest Es). }
    intros n.
    destruct (parse n (flat_tokens c0 rest) []) as [[r h]|ex|] eqn:En;
      [| |done].
    + rewrite <- (parse_stable n (S (S n))) in En; [|by rewrite En|lia].
      by rewrite Hdeep in En.
    + rewrite <- (parse_stable n (S (S n))) in En; [|by rewrite En|lia].
      by rewrite Hdeep in En.
Qed.

Lemma flat_parse_outcome fuel c0 rest :
  plain_constraint c0 →
  Forall (fun oc => plain_constraint (snd oc)) rest →
  if no_or_and_or (map fst rest)
  then parsed_to_python (2 + fuel) (flat_text c0 rest)
       = Return (precedence_form c0 rest)
       ∧ parsed_str (2 + fuel) (flat_text c0 rest)
         = Return (flat_text c0 rest)
  else parsed fuel (flat_text c0 rest) = DepthExceeded.
Proof.
  intros Hc0 Hrest.
  assert (selector c0 ≠ "") as Hs0 by by apply plain_constraint_selector.
  assert (Forall (fun oc => selector (snd oc) ≠ "") rest) as Hsr.
  { eapply Forall_impl; [exact Hrest|].
    intros oc. apply plain_constraint_selector. }
  pose proof (flat_parse_result fuel c0 rest Hs0 Hsr) as Hres.
  pose proof (last_shape_accepts rest (Alone c0)) as Hacc. simpl in Hacc.
  unfold parsed_to_python, parsed_str, parsed, parse_str_to_expression.
  rewrite (iter_parse_flat _ _ Hc0 Hrest).
  destruct (last_shape (Alone c0) rest) as [s|] eqn:Es.
  - rewrite (proj1 Hacc) by eauto.
    destruct Hres as (r & h & Hrun & Hshape).
    change (2 + fuel) with (S (S fuel)). rewrite Hrun. cbn [obind].
    pose proof (shape_at_length _ _ _ Hshape) as Hlen.
    destruct (length h) as [|[|d]] eqn:El; [lia|lia|]. split.
    + rewrite (to_python_shape _ _ _ _ Hshape).
      by rewrite (shape_form_last _ _ _ Es).
    + apply str_flat_state. by eapply flat_parse.
  - destruct (no_or_and_or (map fst rest)) eqn:Ea.
    + destruct (proj2 Hacc eq_refl) as [? ?]. done.
    + apply Hres.
Qed.

(** X17.  On an input without parentheses the parser groups by precedence, or
    does not return: for constraints of unreserved characters joined by [;]
    and [,], when no [,] comes after a [;] that comes after a [,] the parse
    returns, [to_python()] of the result is the grouping by precedence (the
    runs between two [,] each joined by AND, and those joined by OR) and
    [str()] of the result is the input; otherwise the parse exceeds every call
    depth. *)
Theorem flat_parse_by_precedence fuel c0 rest :
  plain_constraint c0 →
  Forall (fun oc => plain_constraint (snd oc)) rest →
  if no_or_and_or (map fst rest)
  then parsed_to_python (2 + fuel) (flat_text c0 rest)
       = Return (precedence_form c0 rest)
       ∧ parsed_str (2 + fuel) (flat_text c0 rest)
         = Return (flat_text c0 rest)
  else parsed fuel (flat_text c0 rest) = DepthExceeded.
Proof. apply flat_parse_outcome. Qed.

Lemma flat_parse_by_precedence_witness :
  parsed_to_python 2 "a;b,c;d"
  = Return (OR_ [AND_ [leaf "a"; leaf "b"]; AND_ [leaf "c"; leaf "d"]])
  ∧ parsed_str 2 "a;b,c;d" = Return "a;b,c;d".
Proof.
  apply (flat_parse_by_precedence 0
           (mkConstraint "a" None None None)
           [ (Op.And, mkConstraint "b" None None None);
             (Op.Or, mkConstraint "c" None None None);
             (Op.And, mkConstraint "d" None None None) ]).
  - by repeat split.
  - repeat constructor.
Defined.

(** X18.  On the text of plain constraints joined by operators, [iter_parse]
    yields one tuple per constraint, with its selector, comparison and
    argument and the operator before it as preamble. *)
Theorem iter_parse_flat_text c0 rest :
  plain_constraint c0 →
  Forall (fun oc => plain_constraint (snd oc)) rest →
  iter_parse (flat_text c0 rest) = flat_tokens c0 rest
  ∧ length (iter_parse (flat_text c0 rest)) = S (length rest).
Proof.
  intros Hc0 Hrest. rewrite (iter_parse_flat _ _ Hc0 Hrest).
  split; [done|]. unfold flat_tokens. simpl. by rewrite length_map.
Qed.

Lemma iter_parse_flat_text_witness :
  iter_parse "a==1;b,c=gt=2"
  = [ mkToken "" (Some "a") (Some "==") (Some "1");
      mkToken ";" (Some "b") None None;
      mkToken "," (Some "c") (Some "=gt=") (Some "2") ].
Proof.
  apply (iter_parse_flat_text
           (mkConstraint "a" (Some "==") (Some "1") None)
           [ (Op.And, mkConstraint "b" None None None);
             (Op.Or, mkConstraint "c" (Some "=gt=") (Some "2") None) ]).
  - by repeat split.
  - repeat constructor; by repeat split.
Defined.

(** ** One constraint in parentheses *)

Lemma parse_char_open fuel l h :
  isinstance_BaseExpression (last_element l) = false →
  parse_char fuel l "(" h
  = (sub <- create_nested_expression (expression l) ;;
     ret (mkLocals (nesting_lvl l + 1) (last_element l) sub)) h.
Proof. intros Hl. unfold parse_char. simpl. by rewrite Hl. Qed.

Lemma parse_char_close fuel l h :
  parse_char fuel l ")" h
  = (p <- get_parent (expression l) ;;
     ret (mkLocals (nesting_lvl l - 1) (Some (VObj p)) p)) h.
Proof. done. Qed.

Lemma parse_opens fuel m :
  ∀ (i : nat) (h : heap),
    length h = S i →
    chain h i →
    h !! i = Some (Exp (mkExpression [] None (above i) i)) →
    ∃ h',
      parse_preamble fuel (mkLocals (Z.of_nat i) None i)
        (repeat "("%char m) h
      = Return (mkLocals (Z.of_nat (i + m)) None (i + m), h')
      ∧ length h' = S (i + m)
      ∧ chain h' (i + m)
      ∧ h' !! (i + m)
        = Some (Exp (mkExpression [] None (above (i + m)) (i + m))).
Proof.
  induction m as [|m IH]; intros i h L Hch Hi.
  - exists h. rewrite Nat.add_0_r. done.
  - cbn [repeat parse_preamble]. unfold bind at 1.
    rewrite parse_char_open by done. unfold bind at 1. simpl expression.
    rewrite (create_nested_expression_eq h i _ _ Hi Hi).
    simpl _working_fragment. rewrite L. cbn [ret nesting_lvl last_element
      elements app set_elements operator parent].
    match goal with
    | |- context [parse_preamble _ _ _ ?hh] => set (h1 := hh)
    end.
    replace (Z.of_nat i + 1)%Z with (Z.of_nat (S i)) by lia.
    destruct (IH (S i) h1) as (h' & Hrun & L' & Hch' & Hi').
    + subst h1. side.
    + intros j Hj. subst h1. destruct (decide (j = i)) as [->|Hne].
      * lk.
      * rewrite list_lookup_insert_ne by done.
        rewrite list_lookup_insert_ne by lia.
        rewrite lookup_app_l by lia. apply Hch. lia.
    + subst h1. lk.
    + exists h'. replace (i + S m) with (S i + m) by lia. done.
Qed.

Lemma chain_Expression h k (i : nat) :
  chain h (S k) → (i ≤ k)%nat → isinstance_Expression h i = true.
Proof.
  intros Hch Hi. unfold isinstance_Expression.
  change ref with nat in *. by rewrite (Hch i) by lia.
Qed.

Lemma parse_closes fuel m :
  ∀ (i : nat) le (h : heap) (k : nat),
    (i ≤ k)%nat → chain h (S k) → (m ≤ i)%nat →
    ∃ le',
      parse_preamble fuel (mkLocals (Z.of_nat i) le i)
        (repeat ")"%char m) h
      = Return (mkLocals (Z.of_nat (i - m)) le' (i - m), h).
Proof.
  induction m as [|m IH]; intros i le h k Hik Hch Hm.
  - exists le. by rewrite Nat.sub_0_r.
  - destruct i as [|i]; [lia|].
    cbn [repeat parse_preamble]. unfold bind at 1.
    rewrite parse_char_close. unfold bind at 1, get_parent.
    simpl expression. change ref with nat in *.
    rewrite (Hch (S i)) by lia. simpl parent_of. cbv iota.
    rewrite (chain_Expression h k i Hch) by lia.
    cbn [ret nesting_lvl].
    replace (Z.of_nat (S i) - 1)%Z with (Z.of_nat i) by lia.
    destruct (IH i (Some (VObj i)) h k) as (le' & Hrun); [lia|done|lia|].
    exists le'. by rewrite Hrun.
Qed.

Lemma parse_closes_too_many fuel m :
  ∀ (i : nat) le (h : heap) (k : nat),
    (i ≤ k)%nat → chain h (S k) → i < m →
    parse_preamble fuel (mkLocals (Z.of_nat i) le i) (repeat ")"%char m) h
    = Raise (FiqlObjectException ParentMustBeExpression).
Proof.
  induction m as [|m IH]; intros i le h k Hik Hch Hm; [lia|].
  cbn [repeat parse_preamble]. unfold bind at 1.
  rewrite parse_char_close. unfold bind at 1, get_parent.
  simpl expression. change ref with nat in *.
  rewrite (Hch i) by lia. simpl parent_of.
  destruct i as [|i]; [done|]. simpl above. cbv iota.
  rewrite (chain_Expression h k i Hch) by lia.
  cbn [ret nesting_lvl].
  replace (Z.of_nat (S i) - 1)%Z with (Z.of_nat i) by lia.
  apply (IH i _ h k); [lia|done|lia].
Qed.

(** The first tuple: [k] expressions are opened and the constraint goes
    into the innermost. *)
Lemma parse_nested_first fuel k c :
  selector c ≠ "" →
  ∃ h,
    parse_token fuel (mkLocals 0 None 0) (ctoken (opens k) c)
      [Exp (mkExpression [] None None 0)]
    = Return (mkLocals (Z.of_nat k) (Some (VObj (S k))) k, h)
    ∧ length h = S (S k)
    ∧ chain h (S k)
    ∧ constraint_at h (S k) c.
Proof.
  intros Hsel. unfold parse_token, bind at 1.
  change (preamble (ctoken (opens k) c)) with (opens k).
  unfold opens at 1. rewrite chars_text.
  destruct (parse_opens fuel k 0 [Exp (mkExpression [] None None 0)]
              eq_refl ltac:(intros j Hj; lia) eq_refl)
    as (h1 & Hrun & L1 & Hch1 & Hk1).
  change (Z.of_nat 0) with 0%Z in Hrun. simpl in Hrun, L1, Hch1, Hk1.
  rewrite Hrun.
  destruct (parse_selector_appends h1 (mkLocals (Z.of_nat k) None k)
              (opens k) c _ _ Hk1 Hk1 Hsel eq_refl)
    as (h2 & Hps & L2 & Cf & Hk2 & Hfr).
  simpl in Hps, Hk2, Hfr. rewrite L1 in *.
  exists h2. split; [exact Hps|]. split; [done|]. split; [|done].
  intros j Hj. destruct (decide (j = k)) as [->|Hne]; [exact Hk2|].
  rewrite Hfr by lia. apply Hch1. lia.
Qed.

Lemma parse_finish_nested le (h : heap) k (i : nat) :
  chain h (S k) → (i ≤ k)%nat →
  parse_finish (mkLocals (Z.of_nat i) le i) h
  = match i with
    | 0 => Return (0, h)
    | S _ => Raise (FiqlFormatException NestedNotClosed)
    end.
Proof.
  intros Hch Hi. unfold parse_finish. simpl nesting_lvl.
  destruct i as [|i]; [|done]. simpl.
  unfold bind, has_constraint, bind. simpl expression.
  by rewrite (get_Expression_eq _ _ _ (Hch 0 ltac:(lia))).
Qed.

Lemma parse_nested fuel k j c :
  selector c ≠ "" →
  ∃ h,
    length h = S (S k) ∧ chain h (S k) ∧ constraint_at h (S k) c
    ∧ parse fuel (nested_tokens k j c) []
      = match Nat.compare j k with
        | Lt => Raise (FiqlFormatException NestedNotClosed)
        | Eq => Return (0, h)
        | Gt => Raise (FiqlObjectException ParentMustBeExpression)
        end.
Proof.
  intros Hsel.
  destruct (parse_nested_first fuel k c Hsel) as (h & Hrun & L & Hch & Hc).
  exists h. split; [done|]. split; [done|]. split; [done|].
  unfold parse, nested_tokens, new_Expression.
  unfold bind at 1. cbn [length app parse_tokens].
  unfold bind at 1. unfold bind at 1. rewrite Hrun.
  destruct j as [|j].
  - cbn [parse_tokens ret].
    rewrite (parse_finish_nested _ h k k Hch (le_n _)).
    destruct k; done.
  - cbn [parse_tokens]. unfold bind at 1, parse_token, bind at 1.
    change (preamble (mkToken (closes (S j)) None None None))
      with (closes (S j)).
    unfold closes. rewrite chars_text.
    destruct (Nat.compare_spec (S j) k) as [Heq|Hlt|Hgt].
    + destruct (parse_closes fuel (S j) k (Some (VObj (S k))) h k
                  (le_n _) Hch ltac:(lia)) as (le' & Hcl).
      rewrite Hcl. cbn [parse_selector tselector ret].
      rewrite (parse_finish_nested _ h k (k - S j) Hch ltac:(lia)).
      by replace (k - S j) with 0 by lia.
    + destruct (parse_closes fuel (S j) k (Some (VObj (S k))) h k
                  (le_n _) Hch ltac:(lia)) as (le' & Hcl).
      rewrite Hcl. cbn [parse_selector tselector ret].
      rewrite (parse_finish_nested _ h k (k - S j) Hch ltac:(lia)).
      destruct (k - S j) eqn:E; [lia|done].
    + by rewrite (parse_closes_too_many fuel (S j) k _ h k (le_n _) Hch Hgt).
Qed.

(** *** What the chain deconstructs and renders to *)

Lemma chain_wraps h k :
  chain h (S k) → ∀ n (i : nat), i + n = S k → wraps h n i (S k).
Proof.
  intros Hch. induction n as [|n IH]; intros i Hi.
  - replace i with (S k) by lia. constructor.
  - eapply wraps_step; [apply (Hch i); lia|done|]. apply IH. lia.
Qed.

Lemma str_chain h k c :
  chain h (S k) → constraint_at h (S k) c →
  ∀ n (i : nat) d, i + n = S k →
    str (S (n + d)) h i = Return (Constraint_str c).
Proof.
  intros Hch Hc. induction n as [|n IH]; intros i d Hi.
  - replace i with (S k) by lia. by apply str_constraint.
  - pose proof (Hch i ltac:(lia)) as Hnode.
    change (S n + d) with (S (n + d)).
    erewrite str_Expression; [|exact Hnode|].
    2:{ cbn [elements omap_list]. rewrite (IH (S i) d) by lia. done. }
    cbn [parent effective_operator operator String.concat].
    destruct i as [|i]; [done|]. simpl above. cbv iota.
    change ref with nat in *. by rewrite (Hch i) by lia.
Qed.

(** *** The tokenizer on a constraint in parentheses *)

Lemma match_constraint_plain_before c rest :
  plain_constraint c →
  stops Lex.is_unreserved rest →
  stops Lex.is_arg_char rest →
  Lex.match_comparison rest = None →
  ∃ sel grp,
    Lex.match_constraint (list_ascii_of_string (Constraint_str c) ++ rest)
    = Some (sel, grp, rest)
    ∧ text (Lex.unquote_plus sel) = selector c
    ∧ text <$> (fst <$> grp) = comparison c
    ∧ text <$> (Lex.unquote_plus <$> (snd <$> grp)) = argument c.
Proof.
  intros [Hsel Hgrp] Hst1 Hst2 Hcmp0.
  apply plain_chars_spec in Hsel as [Hsel Hne].
  unfold Constraint_str, Lex.match_constraint.
  destruct (comparison c) as [cmp|], (argument c) as [arg|]; try done.
  - destruct Hgrp as [Hcmp Harg].
    apply plain_chars_spec in Harg as [Harg Hane].
    rewrite !chars_append, <- !app_assoc.
    rewrite run_app; [|done|].
    2:{ red in Hcmp. destruct (list_ascii_of_string cmp) as [|x cs]; [done|].
        simpl. simpl in Hcmp. destruct (Ascii.eqb x "=") eqn:Ex.
        - apply Ascii.eqb_eq in Ex. by subst.
        - destruct (Lex.is_fiql_delim x) eqn:Ed; [|done].
          clear Hcmp. split; [|by destruct x as [[] [] [] [] [] [] [] []]].
          by destruct x as [[] [] [] [] [] [] [] []]. }
    rewrite match_nonempty by done.
    rewrite (match_comparison_app _ _ _ _ Hcmp). cbn [app].
    rewrite run_app; [|by apply is_arg_char_unreserved|done].
    rewrite match_nonempty by done.
    do 2 eexists. split; [reflexivity|].
    cbn [fmap option_fmap option_map fst snd].
    rewrite !unquote_plus_plain by done.
    unfold text. by rewrite !string_of_list_ascii_of_string.
  - rewrite run_app; [|done|done].
    rewrite match_nonempty by done. rewrite Hcmp0.
    do 2 eexists. split; [reflexivity|].
    cbn [fmap option_fmap option_map fst snd].
    rewrite unquote_plus_plain by done.
    unfold text. by rewrite string_of_list_ascii_of_string.
Qed.

Lemma split_closes j : Lex.split (repeat ")"%char j) = None.
Proof.
  induction j as [|j IH]; [done|].
  cbn [repeat]. rewrite split_unfold.
  change (Lex.match_constraint (")"%char :: repeat ")"%char j)) with
    (@None (list ascii * option (list ascii * list ascii) * list ascii)).
  by rewrite IH.
Qed.

Lemma split_opens k s m :
  Lex.split s = Some ([], m) →
  Lex.split (repeat "("%char k ++ s) = Some (repeat "("%char k, m).
Proof.
  intros Hs. induction k as [|k IH]; [done|].
  cbn [repeat app]. rewrite split_unfold.
  change (Lex.match_constraint ("("%char :: repeat "("%char k ++ s)) with
    (@None (list ascii * option (list ascii * list ascii) * list ascii)).
  by rewrite IH.
Qed.

Lemma iter_parse_nested k j c :
  plain_constraint c →
  iter_parse (nested_text k j c) = nested_tokens k j c.
Proof.
  intros Hc. unfold iter_parse, nested_text, nested_tokens.
  rewrite !chars_append. unfold opens, closes. rewrite !chars_text.
  destruct (match_constraint_plain_before c (repeat ")"%char j) Hc)
    as (sel & grp & Hm & Hs & Hcm & Ha); [by destruct j..|].
  pose proof (Constraint_str_nonempty _ Hc) as Hne.
  set (body := list_ascii_of_string (Constraint_str c)) in *.
  assert (Lex.split (body ++ repeat ")"%char j)
          = Some ([], (sel, grp, repeat ")"%char j))) as Hsp.
  { by rewrite split_unfold, Hm. }
  apply (split_opens k) in Hsp.
  destruct (repeat "("%char k ++ body ++ repeat ")"%char j) as [|x xs] eqn:E.
  { destruct k; [by destruct body|done]. }
  assert (length (x :: xs) = k + length body + j) as Hlen.
  { rewrite <- E, !length_app, !repeat_length. lia. }
  cbn [length] in Hlen. cbn [length iter_parse_loop]. rewrite Hsp.
  unfold ctoken. rewrite Hs, Hcm, Ha. f_equal.
  destruct j as [|j]; [by destruct (length xs)|].
  destruct (length xs) as [|n] eqn:En.
  { destruct body; [done|]. simpl in Hlen. lia. }
  cbn [iter_parse_loop repeat]. change (")"%char :: repeat ")"%char j)
    with (repeat ")"%char (S j)). by rewrite split_closes.
Qed.

(** X19.  One constraint behind [k] opening and before [j] closing
    parentheses: with as many of each the parse returns the root, which
    deconstructs to the constraint alone and renders to it without any
    parenthesis, however deep the nesting; with fewer closing parentheses it
    raises the not-closed error after the whole input is read; with more,
    [get_parent] raises its object error at the first one too many. *)
Theorem nested_constraint fuel k j c :
  plain_constraint c →
  (j < k → parsed fuel (nested_text k j c)
           = Raise (FiqlFormatException NestedNotClosed))
  ∧ (j = k → parsed_to_python fuel (nested_text k j c)
             = Return (Constraint_to_python c)
             ∧ parsed_str fuel (nested_text k j c)
               = Return (Constraint_str c))
  ∧ (k < j → parsed fuel (nested_text k j c)
           = Raise (FiqlObjectException ParentMustBeExpression)).
Proof.
  intros Hc. pose proof (plain_constraint_selector _ Hc) as Hsel.
  destruct (parse_nested fuel k j c Hsel) as (h & L & Hch & Hcon & Hrun).
  unfold parsed_to_python, parsed_str, parsed, parse_str_to_expression.
  rewrite (iter_parse_nested _ _ _ Hc), Hrun.
  split; [|split].
  - intros Hlt. by rewrite (proj2 (Nat.compare_lt_iff j k) Hlt).
  - intros ->. rewrite Nat.compare_refl. cbn [obind]. rewrite L. split.
    + replace (S (S (S k))) with (S k + 2) by lia.
      rewrite (to_python_wraps h (S k) 2 0 (S k));
        [|by apply chain_wraps].
      by apply to_python_constraint_is.
    + replace (S (S (S k))) with (S (S k + 1)) by lia.
      apply (str_chain h k c Hch Hcon (S k) 0 1). lia.
  - intros Hgt. by rewrite (proj2 (Nat.compare_gt_iff j k) Hgt).
Qed.

Lemma nested_constraint_witness :
  parsed_str 0 "(((a==1)))" = Return "a==1"
  ∧ parsed 0 "((a==1)" = Raise (FiqlFormatException NestedNotClosed)
  ∧ parsed 0 "(a==1))" = Raise (FiqlObjectException ParentMustBeExpression).
Proof.
  assert (plain_constraint (mkConstraint "a" (Some "==") (Some "1") None))
    as Hc by by repeat split.
  split; [|split].
  - apply (nested_constraint 0 3 3 _ Hc). reflexivity.
  - apply (nested_constraint 0 2 1 _ Hc). lia.
  - apply (nested_constraint 0 1 2 _ Hc). lia.
Defined.

(** ** Building with [op_and] and [op_or] *)

Lemma new_Constraints_eq cs :
  ∀ h : heap,
    new_Constraints cs h
    = Return (seq (length h) (length cs), h ++ map fresh_Constraint cs).
Proof.
  induction cs as [|c cs IH]; intros h.
  - simpl. unfold ret. by rewrite app_nil_r.
  - cbn [new_Constraints]. unfold bind at 1, new_Constraint.
    unfold bind at 1. rewrite IH. cbn [ret length seq map].
    rewrite length_app. simpl. rewrite Nat.add_1_r.
    by rewrite <- app_assoc.
Qed.

Lemma constraints_at_fresh (h : heap) cs :
  Forall2 (constraint_at (h ++ map fresh_Constraint cs))
    (seq (length h) (length cs)) cs.
Proof.
  revert h. induction cs as [|c cs IH]; intros h; [constructor|].
  cbn [length seq map]. constructor.
  - exists (mkConstraint (selector c) (comparison c) (argument c) None).
    split; [|done]. rewrite lookup_app_r by done.
    by rewrite Nat.sub_diag.
  - specialize (IH (h ++ [fresh_Constraint c])).
    rewrite length_app, Nat.add_1_r, <- app_assoc in IH. exact IH.
Qed.

Lemma add_elements_appends fuel (X : ref) o rs :
  ∀ cs (h : heap) ids par,
    h !! X = Some (Exp (mkExpression ids o par X)) →
    Forall2 (constraint_at h) rs cs →
    ∃ h',
      add_elements fuel X (map VObj rs) h = Return (tt, h')
      ∧ length h' = length h
      ∧ h' !! X = Some (Exp (mkExpression (ids ++ rs) o par X))
      ∧ Forall2 (constraint_at h') rs cs
      ∧ ∀ id c, constraint_at h id c → constraint_at h' id c.
Proof.
  induction rs as [|r rs IH]; intros cs h ids par HX Hcs.
  - inversion Hcs; subst. exists h. rewrite app_nil_r. done.
  - inversion Hcs as [|? c ? cs' Hc Hrest]; subst.
    destruct Hc as (c' & Hr & Hd).
    pose proof (lookup_lt_Some _ _ _ HX) as LX.
    pose proof (lookup_lt_Some _ _ _ Hr) as Lr.
    assert (r ≠ X) as Hne by congruence.
    cbn [map add_elements add_element]. unfold bind at 1.
    rewrite (add_base_expression_eq h X _ _ r _ HX HX Hr Hne).
    simpl _working_fragment. cbn [set_elements elements operator parent
      _working_fragment].
    set (h1 := <[X := _]> _).
    assert (∀ id c0, constraint_at h id c0 → constraint_at h1 id c0) as Hkeep.
    { intros id c0 (c1 & Hid & Hd1). subst h1.
      assert (id ≠ X) by congruence.
      destruct (decide (id = r)) as [->|Hnr].
      - assert (c1 = c') as -> by congruence.
        eexists. split; [lk|]. done.
      - exists c1. split; [|done]. lk. }
    destruct (IH cs' h1 (ids ++ [r]) par) as (h' & Hrun & L' & HX' & Hcs' & Hk').
    + subst h1. lk.
    + eapply Forall2_impl; [exact Hrest|]. intros id c0. apply Hkeep.
    + exists h'. split; [exact Hrun|]. split; [subst h1; rewrite L'; side|].
      split; [by rewrite <- app_assoc in HX'|]. split.
      * constructor; [|done]. apply Hk', Hkeep. by exists c'.
      * intros id c0 H0. by apply Hk', Hkeep.
Qed.

Lemma joined_result fuel o (cs : list Constraint) :
  deconstruct (joined (S fuel) o cs)
  = Return (node_form (Op.to_python o) (map Constraint_to_python cs))
  ∧ render (joined (S fuel) o cs)
    = Return (String.concat (Op.str o) (map Constraint_str cs)).
Proof.
  assert (∃ h, joined (S fuel) o cs [] = Return (0, h)
               ∧ length h = S (length cs)
               ∧ h !! 0 = Some (Exp (mkExpression (seq 1 (length cs))
                                       (Some o) None 0))
               ∧ Forall2 (constraint_at h) (seq 1 (length cs)) cs)
    as (h & Hrun & L & HX & Hcs).
  { unfold joined, bind at 1, new_Expression. cbn [length app].
    unfold bind at 1. rewrite new_Constraints_eq. cbn [length].
    set (h0 := [Exp (mkExpression [] None None 0)] ++ map fresh_Constraint cs).
    assert (h0 !! 0 = Some (Exp (mkExpression [] None None 0))) as H0
      by done.
    assert (add_operator (S fuel) 0 (VOperator o) h0
            = Return (0, <[0 := Exp (mkExpression [] (Some o) None 0)]> h0))
      as Hop by apply (add_operator_sets h0 fuel 0 _ _ o H0 H0 eq_refl).
    destruct (add_elements_appends (S fuel) 0 (Some o) (seq 1 (length cs)) cs
                (<[0 := Exp (mkExpression [] (Some o) None 0)]> h0) [] None)
      as (h' & Hadd & L' & HX' & Hcs' & _).
    { done. }
    { eapply Forall2_impl;
        [apply (constraints_at_fresh [Exp (mkExpression [] None None 0)])|].
      intros id c (c' & Hid & Hd). exists c'. split; [|done].
      destruct id; [done|]. done. }
    exists h'. split.
    - destruct o; unfold op_and, op_or, bind; rewrite Hop, Hadd; done.
    - split; [|done]. rewrite L', length_insert. subst h0.
      rewrite length_app, length_map. done. }
  unfold deconstruct, render. rewrite Hrun. cbn [obind]. rewrite L.
  split.
  - rewrite (to_python_node _ _ _ _ (map Constraint_to_python cs) HX); [done|].
    apply to_python_constraints_are, Hcs.
  - erewrite str_Expression; [|exact HX|].
    2:{ apply (str_constraints (length cs)), Hcs. }
    done.
Qed.

(** X20.  [Expression().op_and(c1, ..., cn)] and [Expression().op_or(c1, ...,
    cn)] build one expression that holds the constraints in order: it
    deconstructs to [None] for no constraint, to the constraint for one, and
    to the operator's name followed by the constraints for more; it renders to
    the constraints joined by the operator, without parentheses. *)
Theorem op_joins_constraints fuel o (cs : list Constraint) :
  deconstruct (joined (S fuel) o cs)
  = Return (node_form (Op.to_python o) (map Constraint_to_python cs))
  ∧ render (joined (S fuel) o cs)
    = Return (String.concat (Op.str o) (map Constraint_str cs)).
Proof. apply joined_result. Qed.

(** ** Parsing what [op_and] and [op_or] render *)

Lemma concat_flat_text o cs :
  ∀ c0, String.concat (Op.str o) (map Constraint_str (c0 :: cs))
        = flat_text c0 (each_after o cs).
Proof.
  induction cs as [|c cs IH]; intros c0.
  - unfold flat_text. simpl. by rewrite append_empty_r.
  - change (String.concat (Op.str o) (map Constraint_str (c0 :: c :: cs)))
      with (Constraint_str c0
            +:+ Op.str o
            +:+ String.concat (Op.str o) (map Constraint_str (c :: cs))).
    rewrite IH. unfold flat_text. cbn [each_after map flat_tail].
    by destruct o.
Qed.

Lemma no_or_each_after_And cs :
  no_or (map fst (each_after Op.And cs)) = true.
Proof. induction cs; done. Qed.

Lemma no_or_after_and_each_after o cs :
  no_or_after_and (map fst (each_after o cs)) = true.
Proof.
  destruct o.
  - destruct cs; [done|]. apply no_or_each_after_And.
  - induction cs; done.
Qed.

Lemma no_or_and_or_each_after o cs :
  no_or_and_or (map fst (each_after o cs)) = true.
Proof.
  destruct o.
  - induction cs; done.
  - destruct cs; [done|]. apply (no_or_after_and_each_after Op.Or).
Qed.

Lemma or_groups_each_after_And cs :
  ∀ c0, or_groups c0 (each_after Op.And cs) = [c0 :: cs].
Proof.
  induction cs as [|c cs IH]; intros c0; [done|].
  cbn [each_after map or_groups]. fold (each_after Op.And cs).
  by rewrite IH.
Qed.

Lemma or_groups_each_after_Or cs :
  ∀ c0, or_groups c0 (each_after Op.Or cs) = map (fun c => [c]) (c0 :: cs).
Proof.
  induction cs as [|c cs IH]; intros c0; [done|].
  cbn [each_after map or_groups]. fold (each_after Op.Or cs).
  by rewrite IH.
Qed.

Lemma precedence_form_each_after o c0 cs :
  precedence_form c0 (each_after o cs)
  = node_form (Op.to_python o) (map Constraint_to_python (c0 :: cs)).
Proof.
  unfold precedence_form. destruct o.
  - by rewrite or_groups_each_after_And.
  - rewrite or_groups_each_after_Or, map_map. done.
Qed.

(** X21.  Rendering what [op_and] or [op_or] builds and parsing the text gives
    back the same structure: for constraints [c0, ..., cn] of unreserved
    characters, [str()] of [Expression().op_and(c0, ..., cn)] (of [op_or])
    returns a text, and [to_python()] of the parse of that text is
    [to_python()] of the built expression. *)
Theorem parse_of_joined fuel o c0 cs :
  plain_constraint c0 →
  Forall plain_constraint cs →
  ∃ text,
    render (joined (S fuel) o (c0 :: cs)) = Return text
    ∧ parsed_to_python (2 + fuel) text
      = deconstruct (joined (S fuel) o (c0 :: cs))
    ∧ parsed_str (2 + fuel) text = Return text.
Proof.
  intros Hc0 Hcs.
  destruct (joined_result fuel o (c0 :: cs)) as [Hpy Hstr].
  exists (flat_text c0 (each_after o cs)).
  rewrite Hstr, Hpy, concat_flat_text. split; [done|].
  pose proof (flat_parse_outcome fuel c0 (each_after o cs) Hc0) as Hflat.
  rewrite no_or_and_or_each_after in Hflat.
  rewrite <- precedence_form_each_after. apply Hflat.
  unfold each_after. rewrite Forall_map. exact Hcs.
Qed.

Lemma parse_of_joined_witness :
  ∃ text,
    render (joined 1 Op.Or [ mkConstraint "a" None None None;
                             mkConstraint "b" (Some "==") (Some "1") None ])
    = Return text
    ∧ parsed_to_python 2 text
      = deconstruct
          (joined 1 Op.Or [ mkConstraint "a" None None None;
                            mkConstraint "b" (Some "==") (Some "1") None ])
    ∧ parsed_str 2 text = Return text.
Proof.
  apply (parse_of_joined 0 Op.Or (mkConstraint "a" None None None)
           [mkConstraint "b" (Some "==") (Some "1") None]).
  - by repeat split.
  - repeat constructor; by repeat split.
Defined.

(** ** An operator at the end of the input *)

Lemma iter_parse_trailing c o :
  plain_constraint c →
  iter_parse (Constraint_str c +:+ Op.value o)
  = [ctoken "" c; mkToken (Op.value o) None None None].
Proof.
  intros Hc. unfold iter_parse. rewrite chars_append.
  assert (∃ x, list_ascii_of_string (Op.value o) = [x]
               ∧ (x = ";"%char ∨ x = ","%char)
               ∧ Lex.split [x] = None) as (x & Hx & Hop & Hnone).
  { destruct o; eexists; (split; [reflexivity|]); split; eauto. }
  rewrite Hx.
  destruct (match_constraint_plain c [x] Hc Hop)
    as (sel & grp & Hm & Hs & Hcm & Ha).
  pose proof (Constraint_str_nonempty _ Hc) as Hne.
  rewrite length_app. cbn [length].
  destruct (list_ascii_of_string (Constraint_str c) ++ [x]) as [|y l] eqn:E.
  { by destruct (list_ascii_of_string (Constraint_str c)). }
  destruct (length (list_ascii_of_string (Constraint_str c))) as [|k] eqn:Ek.
  { by destruct (list_ascii_of_string (Constraint_str c)). }
  cbn [Nat.add iter_parse_loop]. rewrite split_unfold, Hm.
  f_equal.
  - unfold ctoken. by rewrite Hs, Hcm, Ha.
  - rewrite Nat.add_1_r. cbn [iter_parse_loop]. rewrite Hnone.
    unfold text. rewrite <- Hx. by rewrite string_of_list_ascii_of_string.
Qed.

(** X22.  An operator at the end of the input is accepted and changes nothing:
    for a constraint of unreserved characters followed by [;] or by [,], the
    parse returns, [to_python()] of the result is the constraint's tuple and
    [str()] of the result is the constraint alone, without the operator. *)
Theorem trailing_operator_accepted fuel c o :
  plain_constraint c →
  parsed_to_python (S fuel) (Constraint_str c +:+ Op.value o)
  = Return (Constraint_to_python c)
  ∧ parsed_str (S fuel) (Constraint_str c +:+ Op.value o)
    = Return (Constraint_str c).
Proof.
  intros Hc.
  pose proof (plain_constraint_selector _ Hc) as Hsel.
  unfold parsed_to_python, parsed_str, parsed, parse_str_to_expression.
  rewrite (iter_parse_trailing _ _ Hc).
  destruct (shape_first (S fuel) c Hsel) as (h1 & Hrun1 & id & HX & Hid).
  assert (∃ x, list_ascii_of_string (Op.value o) = [x]
               ∧ Op.init (String x EmptyString) = Return o
               ∧ Ascii.eqb x "(" = false ∧ Ascii.eqb x ")" = false)
    as (x & Hx & Hinit & Hopen & Hclose).
  { destruct o; eexists; (split; [reflexivity|]); done. }
  set (h2 := <[0 := Exp (mkExpression [id] (Some o) None 0)]> h1).
  assert (parse (S fuel) [ctoken "" c; mkToken (Op.value o) None None None] []
          = Return (0, h2)) as Hrun.
  { unfold parse, new_Expression. cbn [parse_tokens]. unfold bind at 1.
    cbn [length app]. unfold bind at 1. unfold bind at 1. rewrite Hrun1.
    unfold parse_token at 1. cbn [preamble]. rewrite Hx.
    cbn [parse_preamble]. unfold bind at 1. unfold bind at 1.
    unfold bind at 1.
    unfold parse_char. rewrite Hopen, Hclose.
    cbn [expression last_element isinstance_Operator]. unfold bind at 1.
    unfold has_constraint, bind at 1.
    rewrite (get_Expression_eq _ _ _ HX). cbn [elements length Nat.eqb ret].
    unfold bind at 1. unfold lift at 1. rewrite Hinit.
    unfold bind at 1.
    rewrite (add_operator_sets h1 fuel 0 _ _ o HX HX eq_refl).
    change (<[_working_fragment (mkExpression [id] None None 0) :=
               Exp (set_operator (Some o) (mkExpression [id] None None 0))]>
              h1) with h2.
    cbn [ret nesting_lvl]. unfold parse_selector. cbn [tselector ret parse_tokens].
    unfold parse_finish. cbn [nesting_lvl Z.eqb negb expression].
    unfold bind at 1, has_constraint, bind at 1.
    assert (h2 !! 0 = Some (Exp (mkExpression [id] (Some o) None 0))) as H2.
    { subst h2. apply list_lookup_insert_eq. by eapply lookup_lt_Some. }
    by rewrite (get_Expression_eq _ _ _ H2). }
  rewrite Hrun. cbn [obind].
  assert (h2 !! 0 = Some (Exp (mkExpression [id] (Some o) None 0))) as H2.
  { subst h2. apply list_lookup_insert_eq. by eapply lookup_lt_Some. }
  assert (constraint_at h2 id c) as Hid2.
  { destruct Hid as (c' & Hl & Hd). exists c'. split; [|done].
    assert (id ≠ 0) as Hne.
    { intros ->. change ref with nat in *. congruence. }
    subst h2. by rewrite list_lookup_insert_ne. }
  assert (2 ≤ length h2)%nat as Hlen.
  { destruct Hid2 as (c' & Hl & _).
    pose proof (lookup_lt_Some _ _ _ Hl).
    assert (id ≠ 0) as Hne.
    { intros ->. change ref with nat in *. congruence. }
    lia. }
  destruct (length h2) as [|[|d]] eqn:El; [lia|lia|]. split.
  - rewrite (to_python_node _ _ _ _ [Constraint_to_python c] H2); [done|].
    apply (to_python_constraints_are _ _ [id] [c]). by constructor.
  - erewrite str_Expression; [|exact H2|].
    2:{ apply (str_constraints _ _ [id] [c]). by constructor. }
    done.
Qed.

Lemma trailing_operator_accepted_witness :
  parsed_to_python 1 "a==1;"
  = Return (PyTuple [PyStr "a"; PyStr "=="; PyStr "1"])
  ∧ parsed_str 1 "a==1;" = Return "a==1".
Proof.
  apply (trailing_operator_accepted 0
           (mkConstraint "a" (Some "==") (Some "1") None) Op.And).
  by repeat split.
Defined.

(** ** What the parser returns can be read *)

Lemma omap_list_returns {A B} (f : A → outcome B) (l : list A) :
  (∀ x, x ∈ l → ∃ y, f x = Return y) → ∃ ys, omap_list f l = Return ys.
Proof.
  induction l as [|x l IH]; intros Hf; [by exists []|].
  destruct (Hf x) as [y Hy]; [by left|].
  destruct IH as [ys Hys]; [intros z Hz; apply Hf; by right|].
  exists (y :: ys). cbn [omap_list]. by rewrite Hy, Hys.
Qed.

(** In a tree, [to_python()] of any object returns within a depth of the
    size of the store. *)
Lemma tree_to_python_returns h (x : ref) o :
  tree_links h → h !! x = Some o →
  ∃ v, to_python (S (length h)) h x = Return v.
Proof.
  intros Ht. destruct (elements_descend _ Ht) as (rank & Hb & Hd).
  assert (∀ d (y : ref) oy, h !! y = Some oy → rank y < d →
                            ∃ v, to_python d h y = Return v) as Hall.
  { induction d as [|d IH]; intros y oy Hy Hr; [lia|].
    cbn [to_python]. rewrite Hy. destruct oy as [c|e]; [eauto|].
    assert (∀ z, z ∈ elements e → ∃ v, to_python d h z = Return v) as Hel.
    { intros z Hz. destruct (child_parent _ Ht _ _ _ Hy Hz) as (oz & Hoz & _).
      apply (IH z oz Hoz). pose proof (Hd _ _ _ Hy Hz). lia. }
    destruct (elements e) as [|z [|z' l]] eqn:Ee; [eauto| |].
    - apply Hel. by left.
    - destruct (omap_list_returns _ _ Hel) as [vs Hvs]. rewrite Hvs.
      cbn [obind]. eauto. }
  intros Hx. apply (Hall _ x o Hx). pose proof (Hb x). lia.
Qed.

(** In a tree, [str()] of any object returns within a depth of the size of
    the store. *)
Lemma tree_str_returns h (x : ref) o :
  tree_links h → h !! x = Some o →
  ∃ s, str (S (length h)) h x = Return s.
Proof.
  intros Ht. destruct (elements_descend _ Ht) as (rank & Hb & Hd).
  assert (∀ d (y : ref) oy, h !! y = Some oy → rank y < d →
                            ∃ s, str d h y = Return s) as Hall.
  { induction d as [|d IH]; intros y oy Hy Hr; [lia|].
    cbn [str]. rewrite Hy. destruct oy as [c|e]; [eauto|].
    assert (∀ z, z ∈ elements e → ∃ s, str d h z = Return s) as Hel.
    { intros z Hz. destruct (child_parent _ Ht _ _ _ Hy Hz) as (oz & Hoz & _).
      apply (IH z oz Hoz). pose proof (Hd _ _ _ Hy Hz). lia. }
    destruct (omap_list_returns _ _ Hel) as [ss Hss]. rewrite Hss.
    cbn [obind]. destruct (parent e) as [p|] eqn:Ep; [|eauto].
    destruct (parent_child _ Ht y (Exp e) p Hy Ep) as (pe & Hpe & _).
    rewrite Hpe. destruct (Op.gt _ _); eauto. }
  intros Hx. apply (Hall _ x o Hx). pose proof (Hb x). lia.
Qed.

(** X23.  What the parser returns can be read: whenever
    [parse_str_to_expression] returns, [to_python()] and [str()] of the result
    return, without an exception and within a nesting of the number of objects
    built. *)
Theorem parse_result_reads fuel ts r h :
  parse fuel ts [] = Return (r, h) →
  ∃ v s, to_python (S (length h)) h r = Return v
         ∧ str (S (length h)) h r = Return s.
Proof.
  intros Hrun. destruct (parse_invariant _ _ _ _ Hrun) as (Ht & _ & Hr).
  apply cursor_is_Some in Hr as (e & He).
  destruct (tree_to_python_returns _ _ _ Ht He) as [v Hv].
  destruct (tree_str_returns _ _ _ Ht He) as [s Hs].
  by exists v, s.
Qed.

Lemma parse_result_reads_witness :
  ∃ v s, to_python (S (length group_heap)) group_heap 0 = Return v
         ∧ str (S (length group_heap)) group_heap 0 = Return s.
Proof.
  exact (parse_result_reads 2 (iter_parse "a;(b,c)") 0 group_heap eq_refl).
Defined.

(** ** Round trip of inputs with groups in parentheses *)

(** *** The tokenizer on parentheses, operators and constraints *)









(** *** Running the parser over items and groups *)
















(** *** The text of items and groups, cut into segments *)














(** *** The parse of items and groups *)




(** *** Reading the parse of items and groups back *)






(** *** The rendering of items under [,] as a flat text *)














